(** * t86-wdebug: the native debugger core, the assembly parser and the
      type reconstruction of the source layer

    A shallow embedding of
    - [t86/debugger/Native.h]         (module [Native]),
    - [t86/common/parser.h]           (module [Asm]),
    - [t86/debugger/Source/Source.cpp], type reconstruction (module [Source]),
    in a monad of state and exceptions, followed by the properties checked
    against the specification (modules [NativeProps], [AsmProps] and
    [SourceProps]).

    The process the debugger drives and the architecture it runs on are
    interfaces: [Native] is written over any implementation of them, and the
    concrete scenarios run on a small in-memory debuggee (module
    [Debuggee]). *)

From Stdlib Require Import ZArith Lia Ascii.
From stdpp Require Import gmap strings list fin_maps pretty.

Open Scope string_scope.

Set Warnings "-register-all".

(** ** Fixed-width integers

    [uint64_t]/[size_t] values live in [N], [int64_t] and [int] values in
    [Z]; every operation that can leave the range wraps explicitly. *)

Definition two64 : N := (2 ^ 64)%N.

Definition wrap64 (n : N) : N := (n mod two64)%N.

(** Conversion [int64_t -> uint64_t]. *)
Definition u64_of_i64 (z : Z) : N := Z.to_N (z mod 2 ^ 64).

(** Conversion into [int64_t] (two's complement). *)
Definition i64 (z : Z) : Z := ((z + 2 ^ 63) mod 2 ^ 64 - 2 ^ 63)%Z.

(** Conversion into [int] (32 bits, two's complement). *)
Definition i32 (z : Z) : Z := ((z + 2 ^ 31) mod 2 ^ 32 - 2 ^ 31)%Z.

Definition INT_MAX : Z := (2 ^ 31 - 1)%Z.
Definition INT_MIN : Z := (- 2 ^ 31)%Z.

(** ** Exceptions and the state-and-exception monad

    Every way a call can end other than by returning.  The state is kept
    when an exception propagates: what a C++ function has already written
    into its object stays written. *)

Inductive exn : Type :=
| DebuggerError (msg : string)
| ParserError (msg : string)
| runtime_error (msg : string)
| out_of_range            (* std::out_of_range: [.at], [std::stoi] *)
| invalid_argument        (* std::invalid_argument: [std::stoi], [std::stod] *)
| assertion_failed        (* [assert] *)
| UNREACHABLE
| NOT_IMPLEMENTED
| ProcessFailure (msg : string).

Inductive outcome (A : Type) : Type :=
| Ok (a : A)
| Throw (e : exn)
| OutOfFuel.
Arguments Ok {A} a.
Arguments Throw {A} e.
Arguments OutOfFuel {A}.

Definition M (S A : Type) : Type := S → outcome A * S.

Definition ret {S A} (a : A) : M S A := λ s, (Ok a, s).

Definition throw {S A} (e : exn) : M S A := λ s, (Throw e, s).

Definition out_of_fuel {S A} : M S A := λ s, (OutOfFuel, s).

Definition bind {S A B} (m : M S A) (k : A → M S B) : M S B :=
  λ s, match m s with
       | (Ok a, s') => k a s'
       | (Throw e, s') => (Throw e, s')
       | (OutOfFuel, s') => (OutOfFuel, s')
       end.

Definition get {S} : M S S := λ s, (Ok s, s).
Definition gets {S A} (f : S → A) : M S A := λ s, (Ok (f s), s).
Definition modify {S} (f : S → S) : M S unit := λ s, (Ok tt, f s).

Declare Scope exn_scope.
Delimit Scope exn_scope with exn.
Notation "x <- m ;; k" := (bind m (λ x, k))
  (at level 100, m at next level, right associativity) : exn_scope.
Notation "m ;; k" := (bind m (λ _, k))
  (at level 100, right associativity) : exn_scope.
Open Scope exn_scope.

(** [v.at(i)] on a vector. *)
Definition vector_at {S A} (v : list A) (i : nat) : M S A :=
  match v !! i with
  | Some a => ret a
  | None => throw out_of_range
  end.

(** [fmt::format("{}", n)] for an unsigned and a signed integer. *)
Definition fmt_N (n : N) : string := pretty n.
Definition fmt_Z (z : Z) : string := pretty z.

(** ** Ranges of a word-addressed memory

    [n] consecutive words from [addr], and the memory with the words [ws]
    written from [addr] on; both fail out of bounds. *)
Definition read_range {A} (l : list A) (addr n : N) : option (list A) :=
  if bool_decide (addr + n ≤ N.of_nat (length l))%N
  then Some (take (N.to_nat n) (drop (N.to_nat addr) l))
  else None.

Definition write_range {A} (l : list A) (addr : N) (ws : list A) : option (list A) :=
  if bool_decide (addr + N.of_nat (length ws) ≤ N.of_nat (length l))%N
  then Some (take (N.to_nat addr) l ++ ws ++
             drop (N.to_nat addr + length ws) l)%list
  else None.

(** ** Stop reasons and debug events

    Modelled from the spec: [DebugEvent.h] is not part of the sources at
    hand; the stop reasons are the ones [MapReasonToEvent] tells apart, the
    events the ones of the data model. *)

Module StopReason.
Inductive t : Type :=
| SoftwareBreakpointHit
| HardwareBreak
| Singlestep
| ExecutionEnd
| ExecutionBegin.
End StopReason.

Inductive BPType : Type := Software | Hardware.
Inductive WatchpointType : Type := Write.

Inductive DebugEvent : Type :=
| BreakpointHit (type : BPType) (address : N)
| WatchpointTrigger (type : WatchpointType) (address : N)
| Singlestep
| ExecutionEnd
| ExecutionBegin.

Definition holds_BreakpointHit (e : DebugEvent) : bool :=
  match e with BreakpointHit _ _ => true | _ => false end.

Definition holds_Singlestep (e : DebugEvent) : bool :=
  match e with Singlestep => true | _ => false end.

(** ** The process interface

    Modelled from the spec: [Process.h] is not part of the sources at hand;
    the abstract class is taken from the contract table of the process
    interface and from the calls [Native] makes.  [P] is the state of the
    driver together with the debuggee, [D] the architecture-opaque vector of
    debug registers.  Any call may throw. *)

Module Process.
Class t (P D : Type) : Type := {
    ReadText : N → N → M P (list string);
    WriteText : N → list string → M P unit;
    ReadMemory : N → N → M P (list Z);
    WriteMemory : N → list Z → M P unit;
    FetchRegisters : M P (gmap string Z);
    SetRegisters : gmap string Z → M P unit;
    FetchDebugRegisters : M P D;
    SetDebugRegisters : D → M P unit;
    ResumeExecution : M P unit;
    Singlestep : M P unit;
    Wait : M P unit;
    GetReason : M P StopReason.t;
    TextSize : M P N;
    Terminate : M P unit
  }.
End Process.

(** ** The architecture singleton

    Modelled from the spec: [Arch.h] is not part of the sources at hand.
    The process-wide constants and helpers [Native] calls are gathered in a
    capability record.  The helpers that edit a debug-register vector in
    place return the edited vector, or throw. *)

Module Arch.
Inductive Machine : Type := T86 | Unsupported.

#[global] Instance Machine_eq_dec : EqDecision Machine.
Proof. solve_decision. Defined.

Class t (D : Type) : Type := {
    GetMachine : Machine;
    SupportHardwareLevelSingleStep : bool;
    SupportsHardwareWatchpoints : bool;
    DebugRegistersCount : N;
    GetResponsibleRegister : D → outcome N;
    SetDebugRegister : N → N → D → outcome D;
    ActivateDebugRegister : N → D → outcome D;
    DeactivateDebugRegister : N → D → outcome D
  }.
End Arch.

(** Lift an outcome computed without touching the state. *)
Definition lift_outcome {S A} (o : outcome A) : M S A := λ s, (o, s).

(** ** The native control layer ([t86/debugger/Native.h])

    All of [class Native] but the accessors of the floating-point registers
    (their values are not modelled), [Initialize] (the TCP connection) and
    the unfinished [SetDebugRegister]. *)

Module Native.

(** [Breakpoint.h] and [Watchpoint.h], as used.  Modelled from the spec: the
    watchpoint keeps the index of its debug register as a [u8]. *)
Record SoftwareBreakpoint : Type := {
  data : string;
  enabled : bool
}.

Record Watchpoint : Type := {
  type : WatchpointType;
  hw_reg : N
}.

Definition u8 (n : N) : N := (n mod 256)%N.

Section Native.
Context {P D : Type} {proc : Process.t P D} {arch : Arch.t D}.

Record Native : Type := {
  process : P;
  software_breakpoints : gmap N SoftwareBreakpoint;
  watchpoints : gmap N Watchpoint;
  cached_event : option DebugEvent
}.

Definition set_process (p : P) (n : Native) : Native :=
  {| process := p; software_breakpoints := software_breakpoints n;
     watchpoints := watchpoints n; cached_event := cached_event n |}.

Definition set_software_breakpoints (t : gmap N SoftwareBreakpoint)
    (n : Native) : Native :=
  {| process := process n; software_breakpoints := t;
     watchpoints := watchpoints n; cached_event := cached_event n |}.

Definition set_watchpoints (t : gmap N Watchpoint) (n : Native) : Native :=
  {| process := process n; software_breakpoints := software_breakpoints n;
     watchpoints := t; cached_event := cached_event n |}.

Definition set_cached_event (e : option DebugEvent) (n : Native) : Native :=
  {| process := process n; software_breakpoints := software_breakpoints n;
     watchpoints := watchpoints n; cached_event := e |}.

(** [process->f(...)]: run a call of the process interface on the owned
    process. *)
Definition call {A} (f : M P A) : M Native A :=
  λ n, let '(r, p) := f (process n) in (r, set_process p n).

(** [m.emplace(k, v)]: inserts unless the key is present. *)
Definition emplace {V} (k : N) (v : V) (m : gmap N V) : gmap N V :=
  match m !! k with
  | Some _ => m
  | None => <[k := v]> m
  end.

Definition opcode_map : list (Arch.Machine * string) :=
  [(Arch.T86, "BKPT")].

(** Returns SW BP opcode for current architecture ([opcode_map.at]). *)
Definition GetSoftwareBreakpointOpcode : M Native string :=
  match list_find (λ e, e.1 = Arch.GetMachine) opcode_map with
  | Some (_, e) => ret e.2
  | None => throw out_of_range
  end.

(** Creates new enabled software breakpoint at given address. *)
Definition CreateSoftwareBreakpoint (address : N) : M Native SoftwareBreakpoint :=
  opcode <- GetSoftwareBreakpointOpcode ;;
  text <- call (Process.ReadText address 1) ;;
  backup <- vector_at text 0 ;;
  call (Process.WriteText address [opcode]) ;;
  text' <- call (Process.ReadText address 1) ;;
  new_opcode <- vector_at text' 0 ;;
  if bool_decide (new_opcode ≠ opcode) then
    throw (DebuggerError ("Failed to set breakpoint! Expected opcode '" +:+
             opcode +:+ "', got '" +:+ new_opcode +:+ "'"))
  else
    ret {| data := backup; enabled := true |}.

(** Creates new breakpoint at given address and enables it. *)
Definition SetBreakpoint (address : N) : M Native unit :=
  bps <- gets software_breakpoints ;;
  if bool_decide (is_Some (bps !! address)) then
    throw (DebuggerError ("Breakpoint at " +:+ fmt_N address +:+
                          " is already set!"))
  else
    bp <- CreateSoftwareBreakpoint address ;;
    modify (λ n, set_software_breakpoints
                   (emplace address bp (software_breakpoints n)) n).

(** Enables BP at given address. If BP is already enabled then noop,
    if BP doesn't exist then throws DebuggerError. *)
Definition EnableSoftwareBreakpoint (address : N) : M Native unit :=
  bps <- gets software_breakpoints ;;
  match bps !! address with
  | None =>
      throw (DebuggerError ("No breakpoint at address " +:+ fmt_N address +:+ "!"))
  | Some bp =>
      if negb (enabled bp) then
        bp' <- CreateSoftwareBreakpoint address ;;
        modify (λ n, set_software_breakpoints
                       (<[address := bp']> (software_breakpoints n)) n)
      else ret tt
  end.

(** Disables BP at given address. If BP is already disabled then noop,
    if BP doesn't exist then throws DebuggerError. *)
Definition DisableSoftwareBreakpoint (address : N) : M Native unit :=
  bps <- gets software_breakpoints ;;
  match bps !! address with
  | None =>
      throw (DebuggerError ("No breakpoint at address " +:+ fmt_N address +:+ "!"))
  | Some bp =>
      if enabled bp then
        call (Process.WriteText address [data bp]) ;;
        modify (λ n, set_software_breakpoints
                       (<[address := {| data := data bp; enabled := false |}]>
                          (software_breakpoints n)) n)
      else ret tt
  end.

(** Disables and removes breakpoint from address.
    Throws if BP doesn't exist. *)
Definition UnsetBreakpoint (address : N) : M Native unit :=
  DisableSoftwareBreakpoint address ;;
  modify (λ n, set_software_breakpoints
                 (delete address (software_breakpoints n)) n).

Definition TextSize : M Native N := call Process.TextSize.

(** The substitution loop of [ReadText]: every word whose address has an
    entry in the breakpoint table is replaced by the saved opcode. *)
Definition ReadText_subst (bps : gmap N SoftwareBreakpoint) (address : N)
    (text : list string) : list string :=
  imap (λ i w, match bps !! wrap64 (N.of_nat i + address) with
               | Some bp => data bp
               | None => w
               end) text.

Definition ReadText (address amount : N) : M Native (list string) :=
  text_size <- TextSize ;;
  if bool_decide (text_size < wrap64 (address + amount))%N then
    throw (DebuggerError ("Reading text at range " +:+ fmt_N address +:+ "-" +:+
             fmt_N (wrap64 (address + amount)) +:+ ", but text size is " +:+
             fmt_N text_size))
  else
    text <- call (Process.ReadText address amount) ;;
    bps <- gets software_breakpoints ;;
    ret (ReadText_subst bps address text).

(** The loop of [WriteText], from index [i] on: a word whose address has an
    entry in the table goes into the saved data of that entry, and the
    breakpoint opcode is written in its place. *)
Fixpoint WriteText_loop (address : N) (i : nat) (text : list string)
    : M Native (list string) :=
  match text with
  | [] => ret []
  | w :: rest =>
      let curr_addr := wrap64 (N.of_nat i + address) in
      bps <- gets software_breakpoints ;;
      w' <- match bps !! curr_addr with
            | Some bp =>
                modify (λ n, set_software_breakpoints
                               (<[curr_addr := {| data := w; enabled := enabled bp |}]>
                                  (software_breakpoints n)) n) ;;
                GetSoftwareBreakpointOpcode
            | None => ret w
            end ;;
      rest' <- WriteText_loop address (S i) rest ;;
      ret (w' :: rest')
  end.

Definition WriteText (address : N) (text : list string) : M Native unit :=
  text_size <- TextSize ;;
  let size := N.of_nat (length text) in
  if bool_decide (text_size < wrap64 (address + size))%N then
    throw (DebuggerError ("Writing text at range " +:+ fmt_N address +:+ "-" +:+
             fmt_N (wrap64 (address + size)) +:+ ", but text size is " +:+
             fmt_N text_size))
  else
    text' <- WriteText_loop address 0 text ;;
    call (Process.WriteText address text').

Definition GetRegisters : M Native (gmap string Z) := call Process.FetchRegisters.

(** Returns value of single register.
    Throws DebuggerError if register does not exist. *)
Definition GetRegister (name : string) : M Native Z :=
  regs <- call Process.FetchRegisters ;;
  match regs !! name with
  | None => throw (DebuggerError ("No register '" +:+ name +:+ "' in target"))
  | Some v => ret v
  end.

Definition SetRegisters (regs : gmap string Z) : M Native unit :=
  call (Process.SetRegisters regs).

(** Sets one register to given value, throws DebuggerError if the register
    name is invalid. *)
Definition SetRegister (name : string) (value : Z) : M Native unit :=
  regs <- GetRegisters ;;
  if bool_decide (is_Some (regs !! name)) then
    SetRegisters (<[name := value]> regs)
  else
    throw (DebuggerError ("Unknown '" +:+ name +:+ "' register name!")).

(** [GetIP] returns [uint64_t]: the [int64_t] register value is converted. *)
Definition GetIP : M Native N :=
  v <- GetRegister "IP" ;;
  ret (u64_of_i64 v).

Definition SetMemory (address : N) (values : list Z) : M Native unit :=
  call (Process.WriteMemory address values).

Definition ReadMemory (address amount : N) : M Native (list Z) :=
  call (Process.ReadMemory address amount).

(** [std::ranges::find_if(watchpoints, hw_reg == idx)]: a [std::map] is
    walked in key order, so the entry found is the one with the least
    address. *)
Definition find_if_hw_reg (idx : N) (wps : gmap N Watchpoint) : option N :=
  foldr (λ kv acc,
           if (hw_reg kv.2 =? idx)%N then
             match acc with
             | Some k => Some (N.min kv.1 k)
             | None => Some kv.1
             end
           else acc)
        None (map_to_list wps).

Definition MapReasonToEvent (reason : StopReason.t) : M Native DebugEvent :=
  match reason with
  | StopReason.SoftwareBreakpointHit =>
      ip <- GetIP ;;
      ret (BreakpointHit Software (wrap64 (ip + two64 - 1)))
  | StopReason.HardwareBreak =>
      dbg_regs <- call Process.FetchDebugRegisters ;;
      idx <- lift_outcome (Arch.GetResponsibleRegister dbg_regs) ;;
      wps <- gets watchpoints ;;
      match find_if_hw_reg idx wps with
      | None => throw assertion_failed
      | Some address => ret (WatchpointTrigger Write address)
      end
  | StopReason.Singlestep => ret Singlestep
  | StopReason.ExecutionEnd => ret ExecutionEnd
  | StopReason.ExecutionBegin => ret ExecutionBegin
  end.

Definition WaitForDebugEvent : M Native DebugEvent :=
  cached <- gets cached_event ;;
  reason <- match cached with
            | Some e =>
                (* If, for some reason, we got the event in some other
                   inner function (ie. ContinueExecution), return it now
                   and empty it. *)
                modify (set_cached_event None) ;;
                ret e
            | None =>
                call Process.Wait ;;
                r <- call Process.GetReason ;;
                MapReasonToEvent r
            end ;;
  (if holds_BreakpointHit reason then
     regs <- GetRegisters ;;
     match regs !! "IP" with
     | None => throw out_of_range
     | Some ip => SetRegisters (<["IP" := i64 (ip - 1)]> regs)
     end
   else ret tt) ;;
  ret reason.

(** Does singlestep, does not check for breakpoints. *)
Definition DoRawSingleStep : M Native DebugEvent :=
  call Process.Singlestep ;;
  WaitForDebugEvent.

(** Removes breakpoint at current ip, singlesteps and sets the breakpoint
    back.  [PerformSingleStep] and [StepOverBreakpoint] call each other; the
    step in the middle is passed in, and the recursion is cut by fuel. *)
Definition StepOverBreakpoint_with (step : M Native DebugEvent) (ip : N)
    : M Native DebugEvent :=
  DisableSoftwareBreakpoint ip ;;
  event <- step ;;
  EnableSoftwareBreakpoint ip ;;
  ret event.

(** Does singlestep, also steps over breakpoints. *)
Fixpoint PerformSingleStep (fuel : nat) : M Native DebugEvent :=
  match fuel with
  | O => out_of_fuel
  | S fuel' =>
      if negb Arch.SupportHardwareLevelSingleStep then
        throw (DebuggerError
                 "Singlestep is not supported for current architecture")
      else
        ip <- GetIP ;;
        bps <- gets software_breakpoints ;;
        match bps !! ip with
        | Some bp =>
            if enabled bp
            then StepOverBreakpoint_with (PerformSingleStep fuel') ip
            else DoRawSingleStep
        | None => DoRawSingleStep
        end
  end.

Definition StepOverBreakpoint (fuel : nat) (ip : N) : M Native DebugEvent :=
  StepOverBreakpoint_with (PerformSingleStep fuel) ip.

Definition ContinueExecution (fuel : nat) : M Native unit :=
  ip <- GetIP ;;
  bps <- gets software_breakpoints ;;
  let resume := call Process.ResumeExecution in
  match bps !! ip with
  | Some bp =>
      if enabled bp then
        event <- StepOverBreakpoint fuel ip ;;
        (* If some other thing happened other than singlestep
           that requires pause cache the event here and return
           it in WaitForDebugEvent. *)
        if negb (holds_Singlestep event) then
          modify (set_cached_event (Some event))
        else resume
      else resume
  | None => resume
  end.

(** The lowest debug register no watchpoint uses. *)
Definition GetFreeDebugRegister (wps : gmap N Watchpoint) : option N :=
  find (λ i, negb (existsb (λ kv, (hw_reg kv.2 =? i)%N) (map_to_list wps)))
       (N.of_nat <$> seq 0 (N.to_nat Arch.DebugRegistersCount)).

Definition SetWatchpointWrite (address : N) : M Native unit :=
  if negb Arch.SupportsHardwareWatchpoints then
    throw (DebuggerError "This architecture does not support watchpoints")
  else
    wps <- gets watchpoints ;;
    if bool_decide (is_Some (wps !! address)) then
      throw (DebuggerError "A watchpoint is already set on that address.")
    else
      match GetFreeDebugRegister wps with
      | None => throw (DebuggerError "Maximum amount of watchpoints has been set")
      | Some idx =>
          dbg_regs <- call Process.FetchDebugRegisters ;;
          dbg_regs <- lift_outcome (Arch.SetDebugRegister idx address dbg_regs) ;;
          dbg_regs <- lift_outcome (Arch.ActivateDebugRegister idx dbg_regs) ;;
          call (Process.SetDebugRegisters dbg_regs) ;;
          modify (λ n, set_watchpoints
                         (emplace address {| type := Write; hw_reg := u8 idx |}
                                  (watchpoints n)) n)
      end.

Definition RemoveWatchpoint (address : N) : M Native unit :=
  wps <- gets watchpoints ;;
  match wps !! address with
  | None => throw (DebuggerError "A watchpoint is already set on that address.")
  | Some wp =>
      dbg_regs <- call Process.FetchDebugRegisters ;;
      (* the deactivated vector is a local: it is dropped *)
      _ <- lift_outcome (Arch.DeactivateDebugRegister (hw_reg wp) dbg_regs) ;;
      modify (λ n, set_watchpoints (delete address (watchpoints n)) n)
  end.

Definition GetWatchpoints : M Native (gmap N Watchpoint) := gets watchpoints.

Definition GetBreakpoints : M Native (gmap N SoftwareBreakpoint) :=
  gets software_breakpoints.

Definition Terminate : M Native unit := call Process.Terminate.

End Native.
End Native.

(** ** An in-memory debuggee

    Modelled from the spec: no implementation of the process interface
    ([T86Process.h]) is part of the sources at hand.  [Debuggee] is a small
    in-memory process that follows the contract table of the process
    interface: text and data memories with bounds checks, register maps, a
    vector of debug registers, and a CPU reduced to what the control layer
    can observe ([BKPT] traps, [HALT] ends the run, every other word only
    advances [IP]).  It records the names of the calls it receives.  The
    concrete scenarios below run [Native] on it. *)

Module Debuggee.

(** Debug registers: the watched addresses with their activation bits, and
    the index of the register that fired last. *)
Record debug_registers : Type := {
  dr_slots : list (N * bool);
  dr_fired : N
}.

Inductive mode : Type := Stopped | Stepping | Running.

Record t : Type := {
  text : list string;
  memory : list Z;
  regs : gmap string Z;
  dbg : debug_registers;
  reason : StopReason.t;
  pending : mode;
  calls : list string          (* most recent call first *)
}.

Definition log (name : string) (p : t) : t :=
  {| text := text p; memory := memory p; regs := regs p; dbg := dbg p;
     reason := reason p; pending := pending p; calls := name :: calls p |}.

Definition set_text (x : list string) (p : t) : t :=
  {| text := x; memory := memory p; regs := regs p; dbg := dbg p;
     reason := reason p; pending := pending p; calls := calls p |}.

Definition set_memory (x : list Z) (p : t) : t :=
  {| text := text p; memory := x; regs := regs p; dbg := dbg p;
     reason := reason p; pending := pending p; calls := calls p |}.

Definition set_regs (x : gmap string Z) (p : t) : t :=
  {| text := text p; memory := memory p; regs := x; dbg := dbg p;
     reason := reason p; pending := pending p; calls := calls p |}.

Definition set_dbg (x : debug_registers) (p : t) : t :=
  {| text := text p; memory := memory p; regs := regs p; dbg := x;
     reason := reason p; pending := pending p; calls := calls p |}.

Definition set_reason (x : StopReason.t) (p : t) : t :=
  {| text := text p; memory := memory p; regs := regs p; dbg := dbg p;
     reason := x; pending := pending p; calls := calls p |}.

Definition set_pending (x : mode) (p : t) : t :=
  {| text := text p; memory := memory p; regs := regs p; dbg := dbg p;
     reason := reason p; pending := x; calls := calls p |}.

Definition ReadText (addr n : N) : M t (list string) :=
  λ p, match read_range (text p) addr n with
       | Some ws => (Ok ws, log "ReadText" p)
       | None => (Throw (ProcessFailure "text out of bounds"), log "ReadText" p)
       end.

Definition WriteText (addr : N) (ws : list string) : M t unit :=
  λ p, match write_range (text p) addr ws with
       | Some x => (Ok tt, log "WriteText" (set_text x p))
       | None => (Throw (ProcessFailure "text out of bounds"), log "WriteText" p)
       end.

(** A debuggee whose text cannot be changed: writes are acknowledged and
    dropped. *)
Definition WriteText_rom (addr : N) (ws : list string) : M t unit :=
  λ p, match write_range (text p) addr ws with
       | Some _ => (Ok tt, log "WriteText" p)
       | None => (Throw (ProcessFailure "text out of bounds"), log "WriteText" p)
       end.

Definition ReadMemory (addr n : N) : M t (list Z) :=
  λ p, match read_range (memory p) addr n with
       | Some ws => (Ok ws, log "ReadMemory" p)
       | None => (Throw (ProcessFailure "memory out of bounds"), log "ReadMemory" p)
       end.

Definition WriteMemory (addr : N) (ws : list Z) : M t unit :=
  λ p, match write_range (memory p) addr ws with
       | Some x => (Ok tt, log "WriteMemory" (set_memory x p))
       | None => (Throw (ProcessFailure "memory out of bounds"), log "WriteMemory" p)
       end.

Definition FetchRegisters : M t (gmap string Z) :=
  λ p, (Ok (regs p), log "FetchRegisters" p).

Definition SetRegisters (r : gmap string Z) : M t unit :=
  λ p, (Ok tt, log "SetRegisters" (set_regs r p)).

Definition FetchDebugRegisters : M t debug_registers :=
  λ p, (Ok (dbg p), log "FetchDebugRegisters" p).

Definition SetDebugRegisters (d : debug_registers) : M t unit :=
  λ p, (Ok tt, log "SetDebugRegisters" (set_dbg d p)).

Definition ResumeExecution : M t unit :=
  λ p, (Ok tt, log "ResumeExecution" (set_pending Running p)).

Definition Singlestep : M t unit :=
  λ p, (Ok tt, log "Singlestep" (set_pending Stepping p)).

Definition ip (p : t) : Z := default 0%Z (regs p !! "IP").

Definition advance (p : t) : t := set_regs (<["IP" := i64 (ip p + 1)]> (regs p)) p.

(** One instruction.  [None]: the instruction completed without stopping
    the machine. *)
Definition execute (p : t) : t * option StopReason.t :=
  match text p !! Z.to_nat (ip p) with
  | None => (p, Some StopReason.ExecutionEnd)
  | Some w =>
      if bool_decide (w = "BKPT")
      then (advance p, Some StopReason.SoftwareBreakpointHit)
      else if bool_decide (w = "HALT")
      then (advance p, Some StopReason.ExecutionEnd)
      else (advance p, None)
  end.

Fixpoint run (fuel : nat) (p : t) : t :=
  match fuel with
  | O => set_reason StopReason.ExecutionEnd p
  | S fuel' =>
      match execute p with
      | (p', Some r) => set_reason r p'
      | (p', None) => run fuel' p'
      end
  end.

Definition Wait : M t unit :=
  λ p, let p' :=
         match pending p with
         | Stopped => p
         | Stepping =>
             match execute p with
             | (p', Some r) => set_reason r p'
             | (p', None) => set_reason StopReason.Singlestep p'
             end
         | Running => run (S (length (text p))) p
         end in
       (Ok tt, log "Wait" (set_pending Stopped p')).

Definition GetReason : M t StopReason.t :=
  λ p, (Ok (reason p), log "GetReason" p).

Definition TextSize : M t N :=
  λ p, (Ok (N.of_nat (length (text p))), log "TextSize" p).

Definition Terminate : M t unit := λ p, (Ok tt, log "Terminate" p).

Definition process : Process.t t debug_registers := {|
  Process.ReadText := ReadText;
  Process.WriteText := WriteText;
  Process.ReadMemory := ReadMemory;
  Process.WriteMemory := WriteMemory;
  Process.FetchRegisters := FetchRegisters;
  Process.SetRegisters := SetRegisters;
  Process.FetchDebugRegisters := FetchDebugRegisters;
  Process.SetDebugRegisters := SetDebugRegisters;
  Process.ResumeExecution := ResumeExecution;
  Process.Singlestep := Singlestep;
  Process.Wait := Wait;
  Process.GetReason := GetReason;
  Process.TextSize := TextSize;
  Process.Terminate := Terminate
|}.

Definition rom_process : Process.t t debug_registers := {|
  Process.ReadText := ReadText;
  Process.WriteText := WriteText_rom;
  Process.ReadMemory := ReadMemory;
  Process.WriteMemory := WriteMemory;
  Process.FetchRegisters := FetchRegisters;
  Process.SetRegisters := SetRegisters;
  Process.FetchDebugRegisters := FetchDebugRegisters;
  Process.SetDebugRegisters := SetDebugRegisters;
  Process.ResumeExecution := ResumeExecution;
  Process.Singlestep := Singlestep;
  Process.Wait := Wait;
  Process.GetReason := GetReason;
  Process.TextSize := TextSize;
  Process.Terminate := Terminate
|}.

(** The architecture record of the debuggee: four debug registers. *)
Definition edit_slot (f : N * bool → N * bool) (idx : N) (d : debug_registers)
    : outcome debug_registers :=
  match dr_slots d !! N.to_nat idx with
  | None => Throw out_of_range
  | Some s =>
      Ok {| dr_slots := <[N.to_nat idx := f s]> (dr_slots d);
            dr_fired := dr_fired d |}
  end.

Definition arch : Arch.t debug_registers := {|
  Arch.GetMachine := Arch.T86;
  Arch.SupportHardwareLevelSingleStep := true;
  Arch.SupportsHardwareWatchpoints := true;
  Arch.DebugRegistersCount := 4;
  Arch.GetResponsibleRegister := λ d, Ok (dr_fired d);
  Arch.SetDebugRegister := λ idx address, edit_slot (λ s, (address, s.2)) idx;
  Arch.ActivateDebugRegister := edit_slot (λ s, (s.1, true));
  Arch.DeactivateDebugRegister := edit_slot (λ s, (s.1, false))
|}.

(** A freshly started debuggee: stopped at address 0, nothing watched. *)
Definition start (program : list string) : t := {|
  text := program;
  memory := replicate 16 0%Z;
  regs := <["IP" := 0%Z]> (<["R0" := 0%Z]> ∅);
  dbg := {| dr_slots := replicate 4 (0%N, false); dr_fired := 0 |};
  reason := StopReason.ExecutionBegin;
  pending := Stopped;
  calls := []
|}.

(** A debugger attached to it. *)
Definition attach (p : t) : @Native.Native t := {|
  Native.process := p;
  Native.software_breakpoints := ∅;
  Native.watchpoints := ∅;
  Native.cached_event := None
|}.

End Debuggee.

(** ** The assembly lexer and parser ([t86/common/parser.h]) *)

Module Asm.

(** *** Characters

    [lookahead] is a [char]; [input.get()] at the end of the stream returns
    [EOF], which the assignment narrows to the character 255, and the
    comparisons [lookahead == EOF] are true for exactly that character. *)

Definition EOF : ascii := ascii_of_N 255.

Definition code (c : ascii) : N := N_of_ascii c.

Definition isdigit (c : ascii) : bool := (48 <=? code c)%N && (code c <=? 57)%N.

Definition isalpha (c : ascii) : bool :=
  ((65 <=? code c)%N && (code c <=? 90)%N) ||
  ((97 <=? code c)%N && (code c <=? 122)%N).

Definition isalnum (c : ascii) : bool := isalpha c || isdigit c.

Definition isspace (c : ascii) : bool :=
  ((9 <=? code c)%N && (code c <=? 13)%N) || (code c =? 32)%N.

Definition is_char (c d : ascii) : bool := bool_decide (c = d).

(** [s += c] *)
Definition push_back (s : string) (c : ascii) : string := s +:+ String c "".

(** *** [std::stoi], [std::stod] and [std::atoi]

    [stoi] skips white space, takes an optional sign and the longest run of
    digits; it throws [std::invalid_argument] when there is no digit and
    [std::out_of_range] when the value is not an [int]. *)

Definition digit_value (c : ascii) : Z := (Z.of_N (code c) - 48)%Z.

Fixpoint digits_value (acc : Z) (s : list ascii) : Z :=
  match s with
  | c :: s' => if isdigit c then digits_value (10 * acc + digit_value c) s' else acc
  | [] => acc
  end.

Fixpoint skip_spaces (s : list ascii) : list ascii :=
  match s with
  | c :: s' => if isspace c then skip_spaces s' else s
  | [] => []
  end.

Definition split_sign (s : list ascii) : Z * list ascii :=
  match s with
  | c :: s' =>
      if is_char c "-" then ((-1)%Z, s')
      else if is_char c "+" then (1%Z, s')
      else (1%Z, s)
  | [] => (1%Z, [])
  end.

Definition stoi (s : string) : outcome Z :=
  let '(sign, ds) := split_sign (skip_spaces (String.list_ascii_of_string s)) in
  match ds with
  | c :: _ =>
      if isdigit c then
        let v := (sign * digits_value 0 ds)%Z in
        if ((INT_MIN <=? v) && (v <=? INT_MAX))%Z then Ok v else Throw out_of_range
      else Throw invalid_argument
  | [] => Throw invalid_argument
  end.

(** [atoi] on the rest of a register name: the value of the leading digits
    (an identifier has neither white space nor a sign).  The C standard
    leaves the result undefined when it is not an [int]; the value is kept
    as it is. *)
Definition atoi (s : string) : Z := digits_value 0 (String.list_ascii_of_string s).

(** The value of a floating-point literal is not computed: the token keeps
    the sign and the text handed to [std::stod].  [stod] throws
    [std::invalid_argument] when the text does not start, after white space
    and a sign, with a digit or with a dot and a digit; its range errors are
    not modelled. *)
Definition stod_converts (s : string) : bool :=
  match (split_sign (skip_spaces (String.list_ascii_of_string s))).2 with
  | c :: rest =>
      isdigit c ||
      (is_char c "." && match rest with d :: _ => isdigit d | [] => false end)
  | [] => false
  end.

(** *** Tokens *)

Inductive TokenKind : Type :=
| ID | DOT | NUM | LBRACKET | RBRACKET | END | SEMICOLON | PLUS | TIMES
| COMMA | STRING | FLOAT.

#[global] Instance TokenKind_eq_dec : EqDecision TokenKind.
Proof. solve_decision. Defined.

Record Token : Type := {
  kind : TokenKind;
  row : N;
  col : N
}.

(** *** The lexer *)

Module Lexer.

Record t : Type := {
  input : list ascii;            (* what the stream still holds *)
  lookahead : ascii;
  row : N;
  col : N;
  tok_begin_row : N;
  tok_begin_col : N;
  number : Z;                    (* int *)
  float_number : Z * string;     (* sign and text of the literal *)
  id : string;
  str : string
}.

Definition set_number (v : Z) (l : t) : t :=
  {| input := input l; lookahead := lookahead l; row := row l; col := col l;
     tok_begin_row := tok_begin_row l; tok_begin_col := tok_begin_col l;
     number := v; float_number := float_number l; id := id l; str := str l |}.

Definition set_float_number (v : Z * string) (l : t) : t :=
  {| input := input l; lookahead := lookahead l; row := row l; col := col l;
     tok_begin_row := tok_begin_row l; tok_begin_col := tok_begin_col l;
     number := number l; float_number := v; id := id l; str := str l |}.

Definition set_id (v : string) (l : t) : t :=
  {| input := input l; lookahead := lookahead l; row := row l; col := col l;
     tok_begin_row := tok_begin_row l; tok_begin_col := tok_begin_col l;
     number := number l; float_number := float_number l; id := v; str := str l |}.

Definition set_str (v : string) (l : t) : t :=
  {| input := input l; lookahead := lookahead l; row := row l; col := col l;
     tok_begin_row := tok_begin_row l; tok_begin_col := tok_begin_col l;
     number := number l; float_number := float_number l; id := id l; str := v |}.

(** [input.get()] *)
Definition stream_get (s : list ascii) : ascii * list ascii :=
  match s with
  | c :: s' => (c, s')
  | [] => (EOF, [])
  end.

(** [explicit Lexer(std::istream& input)] *)
Definition make (s : list ascii) : t :=
  let '(c, s') := stream_get s in
  {| input := s'; lookahead := c; row := 0; col := 0;
     tok_begin_row := 0; tok_begin_col := 0;
     number := (-1)%Z; float_number := ((-1)%Z, ""); id := ""; str := "" |}.

Definition GetChar : M t ascii :=
  λ l,
    let '(r, c) := if is_char (lookahead l) "010"
                   then (wrap64 (row l + 1), 0%N)
                   else (row l, wrap64 (col l + 1)) in
    let '(la, s') := stream_get (input l) in
    (Ok la,
     {| input := s'; lookahead := la; row := r; col := c;
        tok_begin_row := tok_begin_row l; tok_begin_col := tok_begin_col l;
        number := number l; float_number := float_number l;
        id := id l; str := str l |}).

Definition RecordTokLoc : M t unit :=
  modify (λ l,
    {| input := input l; lookahead := lookahead l; row := row l; col := col l;
       tok_begin_row := row l; tok_begin_col := col l;
       number := number l; float_number := float_number l;
       id := id l; str := str l |}).

Definition MakeToken (k : TokenKind) : M t Token :=
  l <- get ;;
  ret {| kind := k; Asm.row := tok_begin_row l; Asm.col := tok_begin_col l |}.

(** [str += c] on the member [str]. *)
Definition str_push_back (c : ascii) : M t unit :=
  modify (λ l, set_str (push_back (str l) c) l).

(** The loop of [ParseString]. *)
Fixpoint ParseString_loop (fuel : nat) : M t unit :=
  match fuel with
  | O => out_of_fuel
  | S fuel' =>
      c <- GetChar ;;
      if is_char c "034" then ret tt
      else if is_char c EOF then throw (ParserError "Unterminated string!")
      else if is_char c "\" then
        e <- GetChar ;;
        if is_char e "n" then str_push_back "010" ;; ParseString_loop fuel'
        else if is_char e "t" then str_push_back "009" ;; ParseString_loop fuel'
        else if is_char e "\" then str_push_back "\" ;; ParseString_loop fuel'
        else if is_char e "034" then str_push_back "034" ;; ParseString_loop fuel'
        else throw (ParserError ("Unknown escape sequence: '\" +:+ String e "'"))
      else str_push_back c ;; ParseString_loop fuel'
  end.

Definition ParseString (fuel : nat) : M t unit :=
  modify (set_str "") ;;
  ParseString_loop fuel ;;
  GetChar ;;
  ret tt.

(** The loop of [ParseNumber]: the text so far and whether a dot was seen. *)
Fixpoint ParseNumber_loop (fuel : nat) (num : string) (is_float : bool)
    : M t (string * bool) :=
  match fuel with
  | O => out_of_fuel
  | S fuel' =>
      c <- GetChar ;;
      if is_char c "." then ParseNumber_loop fuel' (push_back num c) true
      else if negb (isdigit c) then ret (num, is_float)
      else ParseNumber_loop fuel' (push_back num c) is_float
  end.

Definition ParseNumber (fuel : nat) : M t TokenKind :=
  l <- get ;;
  let neg := if is_char (lookahead l) "-" then (-1)%Z else 1%Z in
  (if (neg =? -1)%Z then GetChar ;; ret tt else ret tt) ;;
  l <- get ;;
  r <- ParseNumber_loop fuel (String (lookahead l) "") false ;;
  let '(num, is_float) := r in
  if is_float : bool then
    if stod_converts num then
      modify (set_float_number (neg, num)) ;;
      ret FLOAT
    else throw invalid_argument
  else
    v <- lift_outcome (stoi num) ;;
    modify (set_number (i32 (neg * v))) ;;
    ret NUM.

Fixpoint ParseIdentifier_loop (fuel : nat) (s : string) : M t string :=
  match fuel with
  | O => out_of_fuel
  | S fuel' =>
      c <- GetChar ;;
      if negb (isalnum c) && negb (is_char c "_") then ret s
      else ParseIdentifier_loop fuel' (push_back s c)
  end.

Definition ParseIdentifier (fuel : nat) : M t unit :=
  l <- get ;;
  s <- ParseIdentifier_loop fuel (String (lookahead l) "") ;;
  modify (set_id s).

(** The loop that skips a comment up to the end of the line. *)
Fixpoint skip_comment (fuel : nat) : M t unit :=
  match fuel with
  | O => out_of_fuel
  | S fuel' =>
      l <- get ;;
      if negb (is_char (lookahead l) EOF) && negb (is_char (lookahead l) "010")
      then GetChar ;; skip_comment fuel'
      else ret tt
  end.

Fixpoint getNext (fuel : nat) : M t Token :=
  match fuel with
  | O => out_of_fuel
  | S fuel' =>
      l <- get ;;
      let c := lookahead l in
      if is_char c "#" then
        skip_comment fuel' ;;
        l <- get ;;
        (if is_char (lookahead l) "010" then GetChar ;; ret tt else ret tt) ;;
        getNext fuel'
      else if isspace c then
        GetChar ;;
        getNext fuel'
      else
        RecordTokLoc ;;
        if is_char c EOF then MakeToken END
        else if is_char c ";" then GetChar ;; MakeToken SEMICOLON
        else if is_char c "," then GetChar ;; MakeToken COMMA
        else if is_char c "[" then GetChar ;; MakeToken LBRACKET
        else if is_char c "]" then GetChar ;; MakeToken RBRACKET
        else if is_char c "+" then GetChar ;; MakeToken PLUS
        else if is_char c "*" then GetChar ;; MakeToken TIMES
        else if is_char c "." then GetChar ;; MakeToken DOT
        else if is_char c "034" then ParseString fuel' ;; MakeToken STRING
        else if isdigit c || is_char c "-" then
          k <- ParseNumber fuel' ;; MakeToken k
        else if isalpha c || is_char c "_" then
          ParseIdentifier fuel' ;; MakeToken ID
        else
          throw (ParserError (fmt_N (row l) +:+ ":" +:+ fmt_N (col l) +:+
                              ":No token beginning with '" +:+ String c "'"))
  end.

End Lexer.

(** *** The program representation

    Modelled from the spec: the headers of [tiny::t86] are not part of the
    sources at hand.  Registers, the operand forms of the data model and
    the instructions are taken from the program data model and from the
    constructor calls of the parser.  An instruction other than [MOV] and
    [LEA] is its class name with its operands. *)

Module t86.

Inductive Register : Type :=
| StackBasePointer
| StackPointer
| ProgramCounter
| Reg (index : N).

Inductive Operand : Type :=
| OpReg (r : Register)
| OpImm (i : Z)
| OpRegImm (r : Register) (i : Z)
| MemImm (address : N)
| MemReg (r : Register)
| MemRegImm (r : Register) (i : Z)
| MemRegReg (r r2 : Register)
| MemRegRegScaled (r r2 : Register) (scale : Z)
| MemRegImmReg (r : Register) (i : Z) (r2 : Register)
| MemRegImmRegScaled (r : Register) (i : Z) (r2 : Register) (scale : Z)
| MemRegScaled (r : Register) (scale : Z).

Inductive Instruction : Type :=
| MOV (dest from : Operand)
| LEA (dest : Register) (from : Operand)
| Binary (name : string) (dest : Register) (from : Operand)
| Unary (name : string) (op : Operand)
| Nullary (name : string).

Record Program : Type := {
  instructions : list Instruction;
  data : list Z
}.

End t86.

(** *** The parser *)

Module Parser.
Import t86.

Record t : Type := {
  lex : Lexer.t;
  curtok : Token;
  program : list Instruction;
  data : list Z
}.

Definition set_lex (l : Lexer.t) (p : t) : t :=
  {| lex := l; curtok := curtok p; program := program p; data := data p |}.

Definition set_curtok (k : Token) (p : t) : t :=
  {| lex := lex p; curtok := k; program := program p; data := data p |}.

Definition push_instruction (i : Instruction) (p : t) : t :=
  {| lex := lex p; curtok := curtok p; program := program p ++ [i];
     data := data p |}.

Definition push_data (ws : list Z) (p : t) : t :=
  {| lex := lex p; curtok := curtok p; program := program p;
     data := data p ++ ws |}.

(** A call on the lexer member. *)
Definition lexer {A} (f : M Lexer.t A) : M t A :=
  λ p, let '(r, l) := f (lex p) in (r, set_lex l p).

(** The fuel handed to the lexer for one token: it never reads more than
    what the stream holds. *)
Definition lexer_fuel (p : t) : nat := 3 + length (Lexer.input (lex p)).

Definition lex_getNext : M t Token :=
  p <- get ;;
  lexer (Lexer.getNext (lexer_fuel p)).

(** [Parser(std::istream& is) : lex(is) { curtok = lex.getNext(); }] *)
Definition make (s : list ascii) : outcome t * t :=
  let p := {| lex := Lexer.make s;
              curtok := {| kind := ID; row := 0; col := 0 |};
              program := []; data := [] |} in
  (tok <- lex_getNext ;; modify (set_curtok tok) ;; get) p.

Definition curkind : M t TokenKind := gets (λ p, kind (curtok p)).
Definition getId : M t string := gets (λ p, Lexer.id (lex p)).
Definition getNumber : M t Z := gets (λ p, Lexer.number (lex p)).
Definition getStr : M t string := gets (λ p, Lexer.str (lex p)).

Definition ExpectTok (expected tok : TokenKind) (message : string) : M t unit :=
  if bool_decide (expected ≠ tok) then throw (ParserError message) else ret tt.

(** Fetches new token and returns previous one. *)
Definition GetNextPrev : M t TokenKind :=
  prev <- gets curtok ;;
  tok <- lex_getNext ;;
  modify (set_curtok tok) ;;
  ret (kind prev).

Definition GetNext : M t TokenKind :=
  tok <- lex_getNext ;;
  modify (set_curtok tok) ;;
  ret (kind tok).

(** [throw CreateError(...)] *)
Definition throw_CreateError {A} (message : string) : M t A :=
  p <- get ;;
  throw (ParserError ("Error:" +:+ fmt_N (row (curtok p)) +:+ ":" +:+
                      fmt_N (col (curtok p)) +:+ ":" +:+ message)).

Definition getRegister (regname : string) : M t Register :=
  if bool_decide (regname = "BP") then ret StackBasePointer
  else if bool_decide (regname = "SP") then ret StackPointer
  else if bool_decide (regname = "IP") then ret ProgramCounter
  else
    match regname with
    | String c rest =>
        if negb (is_char c "R") then
          throw_CreateError
            ("Registers must begin with an R, unless IP, BP or SP, got " +:+ regname)
        else ret (Reg (Z.to_N (atoi rest)))
    | EmptyString => throw UNREACHABLE    (* an identifier is never empty *)
    end.

(** Allows only register as operand *)
Definition Register : M t t86.Register :=
  k <- curkind ;;
  if bool_decide (k = ID) then
    regname <- getId ;;
    reg <- getRegister regname ;;
    GetNext ;;
    ret reg
  else throw_CreateError "Expected R".

(** Allows only immediate as operand *)
Definition Imm : M t Z :=
  k <- curkind ;;
  if bool_decide (k = NUM) then
    val <- getNumber ;;
    GetNext ;;
    ret val
  else throw_CreateError "Expected i".

(** Allows R or i *)
Definition ImmOrRegister : M t Operand :=
  k <- curkind ;;
  if bool_decide (k = ID) then r <- Register ;; ret (OpReg r)
  else if bool_decide (k = NUM) then i <- Imm ;; ret (OpImm i)
  else throw_CreateError "Expected either i or R".

(** Allows [i], [R], [R + i] *)
Definition SimpleMemory : M t Operand :=
  k <- curkind ;;
  if bool_decide (k = LBRACKET) then
    GetNext ;;
    k <- curkind ;;
    if bool_decide (k = ID) then
      inner <- Register ;;
      k <- curkind ;;
      if bool_decide (k = PLUS) then
        GetNext ;;
        imm <- Imm ;;
        k <- curkind ;;
        if bool_decide (k ≠ RBRACKET) then throw_CreateError "Expected end of ']'"
        else ret (MemRegImm inner imm)
      else
        if bool_decide (k ≠ RBRACKET) then throw_CreateError "Expected end of ']'"
        else GetNext ;; ret (MemReg inner)
    else
      inner <- Imm ;;
      k <- curkind ;;
      if bool_decide (k ≠ RBRACKET) then throw_CreateError "Expected end of ']'"
      else GetNext ;; ret (MemImm (u64_of_i64 inner))
  else throw_CreateError "Expected either [i], [R] or [R + i]".

(** Allows R, [i], [R], [R + i] *)
Definition RegisterOrSimpleMemory : M t Operand :=
  k <- curkind ;;
  if bool_decide (k = ID) then r <- Register ;; ret (OpReg r)
  else if bool_decide (k = LBRACKET) then SimpleMemory
  else throw_CreateError "Expected either R, [i], [R] or [R + i]".

(** Allows R, i, [i], [R], [R + i] *)
Definition ImmOrRegisterOrSimpleMemory : M t Operand :=
  k <- curkind ;;
  if bool_decide (k = ID) || bool_decide (k = NUM) then ImmOrRegister
  else if bool_decide (k = LBRACKET) then SimpleMemory
  else throw_CreateError "Expected either i, R, [i], [R] or [R + i]".

(** Parses every kind of operand, specially for MOV *)
Definition Operand : M t t86.Operand :=
  k <- curkind ;;
  if bool_decide (k = ID) then
    regname <- getId ;;
    GetNext ;;
    k <- curkind ;;
    (* Reg + Imm *)
    if bool_decide (k = PLUS) then
      k <- GetNext ;;
      if bool_decide (k ≠ NUM) then
        throw_CreateError "After Reg + _ there can be only number"
      else
        imm <- getNumber ;;
        GetNext ;;
        reg <- getRegister regname ;;
        ret (OpRegImm reg imm)
    else
      reg <- getRegister regname ;;
      ret (OpReg reg)
  else if bool_decide (k = NUM) then
    imm <- getNumber ;;
    GetNext ;;
    ret (OpImm imm)
  else if bool_decide (k = LBRACKET) then
    k <- GetNext ;;
    (* First is imm *)
    if bool_decide (k = NUM) then
      val <- getNumber ;;
      GetNext ;;
      GetNext ;;
      ret (MemImm (u64_of_i64 val))
    (* First is register *)
    else if bool_decide (k = ID) then
      regname <- getId ;;
      reg <- getRegister regname ;;
      k <- GetNext ;;
      (* Only register *)
      if bool_decide (k = RBRACKET) then
        GetNext ;;
        ret (MemReg reg)
      (* Has second with + *)
      else if bool_decide (k = PLUS) then
        GetNext ;;
        k <- curkind ;;
        (* Can either be imm or register *)
        if bool_decide (k = ID) then
          regname2 <- getId ;;
          reg2 <- getRegister regname2 ;;
          k <- GetNext ;;
          if bool_decide (k = RBRACKET) then
            GetNext ;;
            ret (MemRegReg reg reg2)
          else if bool_decide (k = TIMES) then
            k <- GetNext ;;
            if bool_decide (k = NUM) then
              val <- getNumber ;;
              k <- GetNext ;;
              ExpectTok RBRACKET k
                ("Expected ']' to close dereference" +:+ String "010" "") ;;
              ret (MemRegRegScaled reg reg2 val)
            else throw UNREACHABLE
          else throw UNREACHABLE
        else if bool_decide (k = NUM) then
          val <- getNumber ;;
          k <- GetNext ;;
          if bool_decide (k = RBRACKET) then
            GetNext ;;
            ret (MemRegImm reg val)
          else
            k <- (if bool_decide (k ≠ PLUS) then ret None
                  else k' <- GetNext ;; ret (Some k')) ;;
            if bool_decide (k ≠ Some ID) then
              throw (ParserError
                "Dereference of form [R1 + i ...] must always contain `+ R` after i")
            else
              regname2 <- getId ;;
              reg2 <- getRegister regname2 ;;
              k <- GetNext ;;
              if bool_decide (k = RBRACKET) then
                GetNext ;;
                ret (MemRegImmReg reg val reg2)
              else
                ExpectTok TIMES k
                  "After `[R1 + i + R2` there must always be a `*` or `]`" ;;
                k <- GetNext ;;
                ExpectTok NUM k
                  "After `[R1 + i + R2 *` there must always be an imm" ;;
                val2 <- getNumber ;;
                k <- GetNext ;;
                ExpectTok RBRACKET k "Expected ']' to close dereference " ;;
                GetNext ;;
                ret (MemRegImmRegScaled reg val reg2 val2)
        else throw UNREACHABLE
      (* Has second with * *)
      else if bool_decide (k = TIMES) then
        (* There must be imm now *)
        k <- GetNext ;;
        ExpectTok NUM k "After [R1 * ...] there must always be an imm" ;;
        val <- getNumber ;;
        k <- GetNext ;;
        if bool_decide (k ≠ RBRACKET) then
          throw (ParserError "Expected ']' to close dereference")
        else
          GetNext ;;
          ret (MemRegScaled reg val)
      else throw UNREACHABLE
    else throw NOT_IMPLEMENTED
  else throw UNREACHABLE.

(** The operand parsers the instruction table names. *)
Inductive operand_parser : Type :=
| ParseRegister
| ParseImmOrRegister
| ParseImmOrRegisterOrSimpleMemory
| ParseOperand.

Definition parse_operand (f : operand_parser) : M t t86.Operand :=
  match f with
  | ParseRegister => r <- Register ;; ret (OpReg r)
  | ParseImmOrRegister => ImmOrRegister
  | ParseImmOrRegisterOrSimpleMemory => ImmOrRegisterOrSimpleMemory
  | ParseOperand => Operand
  end.

(** The chain of [PARSE_BINARY], [PARSE_UNARY] and [PARSE_NULLARY], in the
    order of the source.  Every binary instruction of the chain parses its
    destination with [Register]. *)
Inductive shape : Type :=
| BinaryShape (from : operand_parser)
| UnaryShape (op : operand_parser)
| NullaryShape.

Definition instruction_table : list (string * shape) :=
  [ ("ADD", BinaryShape ParseImmOrRegisterOrSimpleMemory);
    ("SUB", BinaryShape ParseImmOrRegisterOrSimpleMemory);
    ("MUL", BinaryShape ParseImmOrRegisterOrSimpleMemory);
    ("DIV", BinaryShape ParseImmOrRegisterOrSimpleMemory);
    ("IMUL", BinaryShape ParseImmOrRegisterOrSimpleMemory);
    ("IDIV", BinaryShape ParseImmOrRegisterOrSimpleMemory);
    ("AND", BinaryShape ParseImmOrRegisterOrSimpleMemory);
    ("OR", BinaryShape ParseImmOrRegisterOrSimpleMemory);
    ("XOR", BinaryShape ParseImmOrRegisterOrSimpleMemory);
    ("LSH", BinaryShape ParseImmOrRegisterOrSimpleMemory);
    ("RSH", BinaryShape ParseImmOrRegisterOrSimpleMemory);
    ("CMP", BinaryShape ParseImmOrRegisterOrSimpleMemory);
    ("LOOP", BinaryShape ParseImmOrRegister);
    ("LEA", BinaryShape ParseOperand);
    ("INC", UnaryShape ParseRegister);
    ("DEC", UnaryShape ParseRegister);
    ("NEG", UnaryShape ParseRegister);
    ("NOT", UnaryShape ParseRegister);
    ("JMP", UnaryShape ParseImmOrRegister);
    ("JZ", UnaryShape ParseImmOrRegisterOrSimpleMemory);
    ("JNZ", UnaryShape ParseImmOrRegisterOrSimpleMemory);
    ("JE", UnaryShape ParseImmOrRegisterOrSimpleMemory);
    ("JNE", UnaryShape ParseImmOrRegisterOrSimpleMemory);
    ("JG", UnaryShape ParseImmOrRegisterOrSimpleMemory);
    ("JGE", UnaryShape ParseImmOrRegisterOrSimpleMemory);
    ("JL", UnaryShape ParseImmOrRegisterOrSimpleMemory);
    ("JLE", UnaryShape ParseImmOrRegisterOrSimpleMemory);
    ("JA", UnaryShape ParseImmOrRegisterOrSimpleMemory);
    ("JAE", UnaryShape ParseImmOrRegisterOrSimpleMemory);
    ("JB", UnaryShape ParseImmOrRegisterOrSimpleMemory);
    ("JBE", UnaryShape ParseImmOrRegisterOrSimpleMemory);
    ("JO", UnaryShape ParseImmOrRegisterOrSimpleMemory);
    ("JNO", UnaryShape ParseImmOrRegisterOrSimpleMemory);
    ("JS", UnaryShape ParseImmOrRegisterOrSimpleMemory);
    ("JNS", UnaryShape ParseImmOrRegisterOrSimpleMemory);
    ("CALL", UnaryShape ParseImmOrRegister);
    ("PUSH", UnaryShape ParseImmOrRegister);
    ("POP", UnaryShape ParseRegister);
    ("PUTCHAR", UnaryShape ParseRegister);
    ("PUTNUM", UnaryShape ParseRegister);
    ("GETCHAR", UnaryShape ParseRegister);
    ("HALT", NullaryShape);
    ("NOP", NullaryShape);
    ("BKPT", NullaryShape);
    ("BREAK", NullaryShape);
    ("RET", NullaryShape) ].

Fixpoint lookup_instruction (name : string) (table : list (string * shape))
    : option shape :=
  match table with
  | (n, s) :: rest => if bool_decide (name = n) then Some s
                      else lookup_instruction name rest
  | [] => None
  end.

Definition expect_comma : M t unit :=
  k <- curkind ;;
  if bool_decide (k ≠ COMMA) then throw_CreateError "Expected ','"
  else GetNext ;; ret tt.

(** Modelled from the spec: [Operand::getRegister] of [tiny::t86] is not
    part of the sources at hand; [LEA reg, mem] has a register destination,
    and any other destination fails its assertion. *)
Definition Operand_getRegister (o : t86.Operand) : M t t86.Register :=
  match o with
  | OpReg r => ret r
  | _ => throw assertion_failed
  end.

Definition Instruction : M t t86.Instruction :=
  (* Address at the beginning is optional *)
  k <- curkind ;;
  (if bool_decide (k = NUM) then GetNextPrev ;; ret tt else ret tt) ;;
  k <- curkind ;;
  ExpectTok ID k "Expected register name" ;;
  ins_name <- getId ;;
  GetNextPrev ;;
  if bool_decide (ins_name = "MOV") then
    dest <- Operand ;;
    expect_comma ;;
    from <- Operand ;;
    ret (MOV dest from)
  else if bool_decide (ins_name = "LEA") then
    dest <- Operand ;;
    expect_comma ;;
    from <- Operand ;;
    reg <- Operand_getRegister dest ;;
    ret (LEA reg from)
  else
    match lookup_instruction ins_name instruction_table with
    | Some (BinaryShape from_parse) =>
        dest <- Register ;;
        expect_comma ;;
        from <- parse_operand from_parse ;;
        ret (Binary ins_name dest from)
    | Some (UnaryShape operand_parse) =>
        op <- parse_operand operand_parse ;;
        ret (Unary ins_name op)
    | Some NullaryShape => ret (Nullary ins_name)
    | None =>
        if bool_decide (ins_name = "DBG") then
          throw (ParserError "DBG instruction is not supported")
        else throw (ParserError ("Unknown instruction " +:+ ins_name))
    end.

Fixpoint Text (fuel : nat) : M t unit :=
  match fuel with
  | O => out_of_fuel
  | S fuel' =>
      k <- curkind ;;
      if bool_decide (k = NUM) || bool_decide (k = ID) then
        ins <- Instruction ;;
        modify (push_instruction ins) ;;
        Text fuel'
      else ret tt
  end.

(** [char] is signed: a character above 127 becomes a negative word. *)
Definition char_word (c : ascii) : Z :=
  let n := Z.of_N (code c) in
  if (n <? 128)%Z then n else (n - 256)%Z.

Fixpoint Data (fuel : nat) : M t unit :=
  match fuel with
  | O => out_of_fuel
  | S fuel' =>
      k <- curkind ;;
      if bool_decide (k = STRING) then
        s <- getStr ;;
        modify (push_data (char_word <$> String.list_ascii_of_string s)) ;;
        GetNext ;;
        Data fuel'
      else if bool_decide (k = NUM) then
        v <- getNumber ;;
        modify (push_data [v]) ;;
        GetNext ;;
        Data fuel'
      else ret tt
  end.

(** The loop that skips an unknown section. *)
Fixpoint skip_section (fuel : nat) : M t unit :=
  match fuel with
  | O => out_of_fuel
  | S fuel' =>
      k <- curkind ;;
      if bool_decide (k ≠ DOT) && bool_decide (k ≠ END) then
        GetNext ;;
        skip_section fuel'
      else ret tt
  end.

Definition Section (fuel : nat) : M t unit :=
  k <- curkind ;;
  ExpectTok ID k "Expected '.section_name'" ;;
  section_name <- getId ;;
  GetNext ;;
  if bool_decide (section_name = "text") then Text fuel
  else if bool_decide (section_name = "data") then Data fuel
  else skip_section fuel.

Fixpoint Parse_loop (fuel : nat) : M t unit :=
  match fuel with
  | O => out_of_fuel
  | S fuel' =>
      k <- GetNextPrev ;;
      if bool_decide (k = DOT) then
        Section fuel' ;;
        Parse_loop fuel'
      else ret tt
  end.

Definition Parse (fuel : nat) : M t Program :=
  k <- curkind ;;
  if bool_decide (k ≠ DOT) then
    throw (ParserError "File does not contain any sections")
  else
    Parse_loop fuel ;;
    p <- get ;;
    ret {| instructions := program p; t86.data := data p |}.

End Parser.

(** Parsing a whole file: the parser is constructed on the text and [Parse]
    is called, every loop with more fuel than the text has characters. *)
Definition parse (s : string) : outcome t86.Program :=
  let input := String.list_ascii_of_string s in
  match Parser.make input with
  | (Ok p, _) => (Parser.Parse (3 + length input) p).1
  | (Throw e, _) => Throw e
  | (OutOfFuel, _) => OutOfFuel
  end.

End Asm.

(** ** Type reconstruction of the source layer
       ([t86/debugger/Source/Source.cpp]) *)

Module Source.

(** Modelled from the spec: [Die.h], [LocExpr.h] and [Type.h] are not part
    of the sources at hand.  The DIE tree, its attributes and the
    reconstructed types are taken from the data model of the debug
    information and from the uses in [Source.cpp]. *)

Inductive TAG : Type :=
| compile_unit | function | scope | variable
| primitive_type | structured_type | pointer_type.

#[global] Instance TAG_eq_dec : EqDecision TAG.
Proof. solve_decision. Defined.

Inductive LocExpr : Type :=
| PushImm (i : Z)
| PushReg (name : string)
| PushBaseOffset (i : Z)
| Add
| Dereference.

Record Member : Type := {
  member_name : string;
  member_type_id : N;
  member_offset : Z
}.

Inductive DIE_ATTR : Type :=
| ATTR_name (n : string)
| ATTR_id (id : N)
| ATTR_begin_addr (addr : N)
| ATTR_end_addr (addr : N)
| ATTR_size (size : N)
| ATTR_type (type_id : N)
| ATTR_members (m : list Member)
| ATTR_location_expr (locs : list LocExpr).

Inductive DIE : Type :=
| MakeDIE (tag : TAG) (attributes : list DIE_ATTR) (children : list DIE).

Definition get_tag (d : DIE) : TAG := let 'MakeDIE t _ _ := d in t.
Definition attributes (d : DIE) : list DIE_ATTR := let 'MakeDIE _ a _ := d in a.
Definition children (d : DIE) : list DIE := let 'MakeDIE _ _ c := d in c.

(** [FindDieAttribute<ATTR>(die)]: the attribute of the kind picked by
    [sel], if the DIE has one. *)
Fixpoint find_attribute {A} (sel : DIE_ATTR → option A) (l : list DIE_ATTR)
    : option A :=
  match l with
  | a :: rest =>
      match sel a with
      | Some x => Some x
      | None => find_attribute sel rest
      end
  | [] => None
  end.

Definition FindDieAttribute {A} (sel : DIE_ATTR → option A) (d : DIE) : option A :=
  find_attribute sel (attributes d).

Definition sel_name (a : DIE_ATTR) : option string :=
  match a with ATTR_name n => Some n | _ => None end.
Definition sel_id (a : DIE_ATTR) : option N :=
  match a with ATTR_id i => Some i | _ => None end.
Definition sel_size (a : DIE_ATTR) : option N :=
  match a with ATTR_size s => Some s | _ => None end.
Definition sel_type (a : DIE_ATTR) : option N :=
  match a with ATTR_type i => Some i | _ => None end.
Definition sel_members (a : DIE_ATTR) : option (list Member) :=
  match a with ATTR_members m => Some m | _ => None end.

(** Returns DIE with given id or nullptr if not found. *)
Fixpoint FindDIEById (die : DIE) (id : N) {struct die} : option DIE :=
  let in_children :=
    match die with
    | MakeDIE _ _ cs =>
        (fix go (cs : list DIE) : option DIE :=
           match cs with
           | c :: rest =>
               match FindDIEById c id with
               | Some found => Some found   (* IDs are unique, we can stop *)
               | None => go rest
               end
           | [] => None
           end) cs
    end in
  match FindDieAttribute sel_id die with
  | Some found_id =>
      if bool_decide (found_id = id) then Some die else in_children
  | None => in_children
  end.

(** The categories of primitive types. *)
Inductive PrimitiveKind : Type := SIGNED | UNSIGNED | FLOAT | CHAR | BOOL.

Inductive Type_ : Type :=
| PrimitiveType (type : PrimitiveKind) (size : N)
| StructuredType (name : string) (size : N)
                 (members : option (list StructuredMember))
| PointerType (type_idx : N) (name : string) (size : N)
with StructuredMember : Type :=
| MakeStructuredMember (name : string) (type : option Type_) (offset : Z).

Record Source : Type := {
  top_die : option DIE;
  cached_types : gmap N Type_
}.

Definition cache_type (id : N) (ty : Type_) (s : Source) : Source :=
  {| top_die := top_die s;
     cached_types := match cached_types s !! id with
                     | Some _ => cached_types s
                     | None => <[id := ty]> (cached_types s)
                     end |}.

(** [std::ranges::transform] with a function that has effects: the elements
    are visited in order. *)
Fixpoint transform {S A B} (f : A → M S B) (l : list A) : M S (list B) :=
  match l with
  | [] => ret []
  | a :: rest =>
      b <- f a ;;
      bs <- transform f rest ;;
      ret (b :: bs)
  end.

Section Reconstruct.

(** Modelled from the spec: [ToPrimitiveType] resolves the category from
    the name of the primitive type and yields nothing for an unknown name;
    its table is not part of the sources at hand. *)
Variable ToPrimitiveType : string → option PrimitiveKind.

(** The recursion on the types of the members is cut by fuel.  The source
    dereferences [top_die] without a check; on a [Source] without debug
    information the model stops with [assertion_failed]. *)
Fixpoint ReconstructTypeInformation (fuel : nat) (id : N)
    : M Source (option Type_) :=
  match fuel with
  | O => out_of_fuel
  | S fuel' =>
      cache <- gets cached_types ;;
      match cache !! id with
      | Some ty => ret (Some ty)
      | None =>
          top <- gets top_die ;;
          match top with
          | None => throw assertion_failed
          | Some top =>
              match FindDIEById top id with
              | None => ret None
              | Some type_die =>
                  match get_tag type_die with
                  | primitive_type =>
                      match FindDieAttribute sel_name type_die with
                      | None => ret None
                      | Some name =>
                          match ToPrimitiveType name with
                          | None => ret None
                          | Some primitive =>
                              match FindDieAttribute sel_size type_die with
                              | None => ret None
                              | Some size => ret (Some (PrimitiveType primitive size))
                              end
                          end
                      end
                  | structured_type =>
                      match FindDieAttribute sel_name type_die with
                      | None => ret None
                      | Some name =>
                          match FindDieAttribute sel_size type_die with
                          | None => ret (Some (StructuredType name 0 None))
                          | Some size =>
                              match FindDieAttribute sel_members type_die with
                              | None => ret (Some (StructuredType name size None))
                              | Some members =>
                                  members_vec <-
                                    transform
                                      (λ m,
                                         type_info <-
                                           ReconstructTypeInformation fuel'
                                             (member_type_id m) ;;
                                         ret (MakeStructuredMember
                                                (member_name m) type_info
                                                (member_offset m)))
                                      members ;;
                                  let result :=
                                    StructuredType name size (Some members_vec) in
                                  modify (cache_type id result) ;;
                                  ret (Some result)
                              end
                          end
                      end
                  | pointer_type =>
                      match FindDieAttribute sel_type type_die with
                      | None => ret None
                      | Some pointing_to =>
                          match FindDieAttribute sel_size type_die,
                                FindDIEById top pointing_to with
                          | Some size, Some pointed_die =>
                              match FindDieAttribute sel_name pointed_die with
                              | None => ret None
                              | Some name =>
                                  let ptr := PointerType pointing_to name size in
                                  modify (cache_type id ptr) ;;
                                  ret (Some ptr)
                              end
                          | _, _ => ret None
                          end
                      end
                  | _ => throw UNREACHABLE
                  end
              end
          end
      end
  end.

End Reconstruct.

(** *** Functions and variables of the debug information *)

Definition sel_begin_addr (a : DIE_ATTR) : option N :=
  match a with ATTR_begin_addr x => Some x | _ => None end.
Definition sel_end_addr (a : DIE_ATTR) : option N :=
  match a with ATTR_end_addr x => Some x | _ => None end.

(** The loop of [GetFunctionNameByAddress] over the children of the top
    DIE.  NOTE: we assume that nested functions aren't possible. *)
Fixpoint GetFunctionNameByAddress_loop (address : N) (dies : list DIE)
    : option string :=
  match dies with
  | [] => None
  | die :: rest =>
      if bool_decide (get_tag die = function) then
        match FindDieAttribute sel_begin_addr die,
              FindDieAttribute sel_end_addr die with
        | Some begin_addr, Some end_addr =>
            if (begin_addr <=? address)%N && (address <? end_addr)%N then
              match FindDieAttribute sel_name die with
              | Some n => Some n
              | None => GetFunctionNameByAddress_loop address rest
              end
            else GetFunctionNameByAddress_loop address rest
        | _, _ => GetFunctionNameByAddress_loop address rest
        end
      else GetFunctionNameByAddress_loop address rest
  end.

Definition GetFunctionNameByAddress (s : Source) (address : N) : option string :=
  match top_die s with
  | None => None
  | Some top => GetFunctionNameByAddress_loop address (children top)
  end.

(** The loop of [GetFunctionAddrByName]: the first function DIE of that
    name decides. *)
Fixpoint GetFunctionAddrByName_loop (name : string) (dies : list DIE)
    : option (N * N) :=
  match dies with
  | [] => None
  | die :: rest =>
      if bool_decide (get_tag die = function) then
        match FindDieAttribute sel_name die with
        | Some n =>
            if bool_decide (n ≠ name) then GetFunctionAddrByName_loop name rest
            else
              match FindDieAttribute sel_begin_addr die with
              | None => None
              | Some begin_addr =>
                  match FindDieAttribute sel_end_addr die with
                  | None => None
                  | Some end_addr => Some (begin_addr, end_addr)
                  end
              end
        | None => GetFunctionAddrByName_loop name rest
        end
      else GetFunctionAddrByName_loop name rest
  end.

Definition GetFunctionAddrByName (s : Source) (name : string) : option (N * N) :=
  match top_die s with
  | None => None
  | Some top => GetFunctionAddrByName_loop name (children top)
  end.

(** [FindVariables]: the variables in scope at [address], by name; the
    result maps a name to its DIE, a later DIE of the same name replacing
    an earlier one ([insert_or_assign]). *)
Fixpoint FindVariables (address : N) (die : DIE) (result : gmap string DIE)
    {struct die} : gmap string DIE :=
  let in_children :=
    match die with
    | MakeDIE _ _ cs =>
        (fix go (cs : list DIE) (result : gmap string DIE) : gmap string DIE :=
           match cs with
           | d :: rest => go rest (FindVariables address d result)
           | [] => result
           end) cs result
    end in
  let scoped :=
    if bool_decide (get_tag die = scope) || bool_decide (get_tag die = function) then
      match FindDieAttribute sel_begin_addr die,
            FindDieAttribute sel_end_addr die with
      | Some begin_addr, Some end_addr =>
          if negb ((begin_addr <=? address)%N && (address <? end_addr)%N)
          then result
          else in_children
      | _, _ => result
      end
    else in_children in
  if bool_decide (get_tag die = variable) then
    match FindDieAttribute sel_name die with
    | Some n => <[n := die]> result
    | None => scoped
    end
  else scoped.

Definition GetActiveVariables (s : Source) (address : N) : gmap string DIE :=
  match top_die s with
  | Some top => FindVariables address top ∅
  | None => ∅
  end.

(** [GetVariableDie]: its DIE argument is not used. *)
Definition GetVariableDie (s : Source) (address : N) (name : string)
    : option DIE :=
  GetActiveVariables s address !! name.

Definition GetScopedVariables (s : Source) (address : N) : gset string :=
  dom (GetActiveVariables s address).

(** *** Lines of the source file

    Modelled from the spec: [SourceFile.h] is not part of the sources at
    hand; a source file answers [GetLine] with the line of an index, if it
    has one. *)
Definition SourceFile : Type := N → option string.

(** The loop of [GetLines] from [i] on, with [count] turns left. *)
Fixpoint GetLines_loop (file : SourceFile) (idx i : N) (count : nat)
    : list string :=
  match count with
  | O => []
  | S count' =>
      match file (wrap64 (i + idx)) with
      | None => []
      | Some r => r :: GetLines_loop file idx (i + 1) count'
      end
  end.

Definition GetLines (source_file : option SourceFile) (idx amount : N)
    : list string :=
  match source_file with
  | None => []
  | Some file => GetLines_loop file idx 0 (N.to_nat amount)
  end.

End Source.

(** ** Notions used to state the properties of the control layer *)

Module NativeSpec.
Import Native.

(** What a successful [CreateSoftwareBreakpoint] has done: the previous word
    is in the record, the trap opcode was written and read back. *)
Definition installed {P D} {proc : Process.t P D} (address : N) (n : @Native P)
    (bp : SoftwareBreakpoint) (n' : @Native P) : Prop :=
  ∃ text0 p1 p2 text1,
    Process.ReadText address 1 (process n) = (Ok text0, p1) ∧
    text0 !! 0%nat = Some (data bp) ∧
    Process.WriteText address ["BKPT"] p1 = (Ok tt, p2) ∧
    Process.ReadText address 1 p2 = (Ok text1, process n') ∧
    text1 !! 0%nat = Some "BKPT" ∧
    enabled bp = true.

(** The value [GetIP] returns in state [n], when [regs_of] gives the integer
    registers of the debuggee. *)
Definition IP_of {P} (regs_of : P → gmap string Z) (n : @Native P) : option N :=
  u64_of_i64 <$> regs_of (process n) !! "IP".

(** The process keeps its instructions in a text memory [text_of]: the size
    is its length, reads and writes inside it succeed and act on it, reads
    and writes that leave it fail and change nothing. *)
Record TextMemory {P D} {proc : Process.t P D} (text_of : P → list string) : Prop := {
  TextSize_spec : ∀ p,
    ∃ p', Process.TextSize p = (Ok (N.of_nat (length (text_of p))), p') ∧
          text_of p' = text_of p;
  ReadText_inside : ∀ a k p ws,
    read_range (text_of p) a k = Some ws →
    ∃ p', Process.ReadText a k p = (Ok ws, p') ∧ text_of p' = text_of p;
  ReadText_outside : ∀ a k p,
    read_range (text_of p) a k = None →
    ∃ e p', Process.ReadText a k p = (Throw e, p') ∧ text_of p' = text_of p;
  WriteText_inside : ∀ a ws p x,
    write_range (text_of p) a ws = Some x →
    ∃ p', Process.WriteText a ws p = (Ok tt, p') ∧ text_of p' = x;
  WriteText_outside : ∀ a ws p,
    write_range (text_of p) a ws = None →
    ∃ e p', Process.WriteText a ws p = (Throw e, p') ∧ text_of p' = text_of p
}.

(** The operations of the control layer that touch breakpoints and text. *)
Inductive command : Type :=
| CmdSetBreakpoint (address : N)
| CmdUnsetBreakpoint (address : N)
| CmdEnable (address : N)
| CmdDisable (address : N)
| CmdReadText (address amount : N)
| CmdWriteText (address : N) (text : list string).

Definition run {P D} {proc : Process.t P D} {arch : Arch.t D} (c : command)
    : M (@Native P) unit :=
  match c with
  | CmdSetBreakpoint a => SetBreakpoint a
  | CmdUnsetBreakpoint a => UnsetBreakpoint a
  | CmdEnable a => EnableSoftwareBreakpoint a
  | CmdDisable a => DisableSoftwareBreakpoint a
  | CmdReadText a k => _ <- ReadText a k ;; ret tt
  | CmdWriteText a w => WriteText a w
  end.

(** The program as its author sees it: the text the debuggee was started
    with, changed only by the words written through [WriteText]. *)
Definition program_after (c : command) (prog : list string) : list string :=
  match c with
  | CmdWriteText a w => default prog (write_range prog a w)
  | _ => prog
  end.

(** *** The effect of a command on the text and on the table

    Under [TextMemory], what a command does to the text of the debuggee and
    to the breakpoint table is a function of the two. *)

(** The words [WriteText] sends to the process, from index [i] on. *)
Definition write_words (t : gmap N SoftwareBreakpoint) (a : N) (i : nat)
    (w : list string) : list string :=
  imap (λ j x, if bool_decide (is_Some (t !! (a + N.of_nat (i + j))%N))
               then "BKPT" else x) w.

(** The table after the loop of [WriteText] from index [i] on. *)
Definition write_table (a : N) (i : nat) (w : list string)
    (t : gmap N SoftwareBreakpoint) : gmap N SoftwareBreakpoint :=
  map_imap (λ k bp,
              Some match (if bool_decide (a + N.of_nat i ≤ k)%N
                          then w !! (N.to_nat (k - a) - i)%nat else None) with
                   | Some x => {| data := x; enabled := enabled bp |}
                   | None => bp
                   end) t.

Definition install_effect (a : N) (s : list string * gmap N SoftwareBreakpoint)
    : list string * gmap N SoftwareBreakpoint :=
  match s.1 !! N.to_nat a with
  | Some w => (<[N.to_nat a := "BKPT"]> s.1,
               <[a := {| data := w; enabled := true |}]> s.2)
  | None => s
  end.

Definition effect (c : command) (s : list string * gmap N SoftwareBreakpoint)
    : list string * gmap N SoftwareBreakpoint :=
  match c with
  | CmdSetBreakpoint a =>
      match s.2 !! a with
      | Some _ => s
      | None => install_effect a s
      end
  | CmdEnable a =>
      match s.2 !! a with
      | Some bp => if enabled bp then s else install_effect a s
      | None => s
      end
  | CmdDisable a =>
      match s.2 !! a with
      | Some bp =>
          if enabled bp then
            match s.1 !! N.to_nat a with
            | Some _ => (<[N.to_nat a := data bp]> s.1,
                         <[a := {| data := data bp; enabled := false |}]> s.2)
            | None => s
            end
          else s
      | None => s
      end
  | CmdUnsetBreakpoint a =>
      match s.2 !! a with
      | Some bp =>
          if enabled bp then
            match s.1 !! N.to_nat a with
            | Some _ => (<[N.to_nat a := data bp]> s.1, delete a s.2)
            | None => s
            end
          else (s.1, delete a s.2)
      | None => s
      end
  | CmdReadText _ _ => s
  | CmdWriteText a w =>
      match write_range s.1 a (write_words s.2 a 0 w) with
      | Some x => (x, write_table a 0 w s.2)
      | None => s
      end
  end.

(** The text of the debuggee and the breakpoint table of a state. *)
Definition view {P} (text_of : P → list string) (n : @Native P)
    : list string * gmap N SoftwareBreakpoint :=
  (text_of (process n), software_breakpoints n).

(** A write is regular when its range does not wrap around the address
    space and covers no disabled breakpoint. *)
Definition regular_table (t : gmap N SoftwareBreakpoint) (c : command) : Prop :=
  match c with
  | CmdWriteText a w =>
      (a + N.of_nat (length w) < two64)%N ∧
      ∀ (i : nat) bp, (i < length w)%nat →
        t !! (a + N.of_nat i)%N = Some bp →
        enabled bp = true
  | _ => True
  end.

Definition regular {P} (n : @Native P) (c : command) : Prop :=
  regular_table (software_breakpoints n) c.

(** The states reached from a debugger without breakpoints by regular
    operations, each with the program of that moment. *)
Inductive reachable {P D} {proc : Process.t P D} {arch : Arch.t D}
    (text_of : P → list string) : list string → @Native P → Prop :=
| reachable_start n :
    software_breakpoints n = ∅ →
    reachable text_of (text_of (process n)) n
| reachable_run prog n c :
    reachable text_of prog n →
    regular n c →
    reachable text_of (program_after c prog) (run c n).2.

(** Breakpoints are transparent: an enabled breakpoint has the trap opcode
    in the debuggee and the instruction of the program in its record, a
    disabled one has the instruction in both, and everywhere else the
    debuggee holds the program. *)
Definition transparent_view (prog : list string)
    (s : list string * gmap N SoftwareBreakpoint) : Prop :=
  ∀ k : N,
    match s.2 !! k with
    | Some bp =>
        prog !! N.to_nat k = Some (data bp) ∧
        s.1 !! N.to_nat k = Some (if enabled bp then "BKPT" else data bp)
    | None => s.1 !! N.to_nat k = prog !! N.to_nat k
    end.

Definition transparent {P} (text_of : P → list string) (prog : list string)
    (n : @Native P) : Prop :=
  transparent_view prog (view text_of n).

End NativeSpec.

(** ** Notions used to state the properties of the assembly parser *)

Module AsmSpec.
Import Asm.

Definition new_line : string := String "010" "".

(** A decimal literal: the minus sign if any, the first digit, the digits
    that follow. *)
Record decimal : Type := {
  minus : bool;
  digit0 : ascii;
  digits : list ascii
}.

(** Its characters and its text. *)
Definition literal_chars (x : decimal) : list ascii :=
  ((if minus x then ["-"%char] else []) ++ digit0 x :: digits x)%list.

Definition literal (x : decimal) : string :=
  String.string_of_list_ascii (literal_chars x).

(** Its magnitude and its value. *)
Definition magnitude (x : decimal) : Z := digits_value 0 (digit0 x :: digits x).

Definition literal_value (x : decimal) : Z :=
  if minus x then (- magnitude x)%Z else magnitude x.

(** The literal is made of digits and its magnitude is an [int]. *)
Definition within_int (x : decimal) : Prop :=
  isdigit (digit0 x) = true ∧
  forallb isdigit (digits x) = true ∧
  (magnitude x ≤ INT_MAX)%Z.

(** The characters of a data section of literals, each after one space. *)
Fixpoint data_chars (xs : list decimal) : list ascii :=
  match xs with
  | [] => []
  | x :: rest => (" "%char :: literal_chars x ++ data_chars rest)%list
  end.

Definition data_text (xs : list decimal) : string :=
  String.string_of_list_ascii (data_chars xs).

(** The lexer after the characters of a token have been read: only the
    position in the stream has moved. *)
Definition moved (l l' : Lexer.t) : Prop :=
  Lexer.tok_begin_row l' = Lexer.tok_begin_row l ∧
  Lexer.tok_begin_col l' = Lexer.tok_begin_col l ∧
  Lexer.number l' = Lexer.number l ∧
  Lexer.float_number l' = Lexer.float_number l ∧
  Lexer.id l' = Lexer.id l ∧
  Lexer.str l' = Lexer.str l.

(** The lexer stands at the beginning of the characters [rest]: the first
    of them is the lookahead, the others are still in the stream. *)
Definition positioned (rest : list ascii) (l : Lexer.t) : Prop :=
  Lexer.lookahead l = (Lexer.stream_get rest).1 ∧
  Lexer.input l = (Lexer.stream_get rest).2.

(** What follows a literal ends it: the end of the stream, or a character
    that is neither a digit nor a dot. *)
Definition stops (rest : list ascii) : Prop :=
  match rest with
  | [] => True
  | r :: _ => isdigit r = false ∧ is_char r "." = false
  end.

End AsmSpec.

(** ** Calls that end *)

(** A call ends: it returns or it throws. *)
Definition ends {A} (o : outcome A) : Prop :=
  match o with
  | OutOfFuel => False
  | _ => True
  end.

(** ** Notions used to state further properties of the control layer *)

Module NativeLaws.
Import Native.

(** The process keeps its integer registers in a register file [regs_of]:
    [FetchRegisters] reports it without changing it, [SetRegisters]
    replaces it. *)
Record RegisterFile {P D} {proc : Process.t P D} (regs_of : P → gmap string Z)
    : Prop := {
  FetchRegisters_law : ∀ p,
    ∃ p', Process.FetchRegisters p = (Ok (regs_of p), p') ∧ regs_of p' = regs_of p;
  SetRegisters_law : ∀ r p,
    ∃ p', Process.SetRegisters r p = (Ok tt, p') ∧ regs_of p' = r
}.

(** The process keeps its debug registers in [dbg_of], likewise. *)
Record DebugRegisterFile {P D} {proc : Process.t P D} (dbg_of : P → D)
    : Prop := {
  FetchDebugRegisters_law : ∀ p,
    ∃ p', Process.FetchDebugRegisters p = (Ok (dbg_of p), p') ∧ dbg_of p' = dbg_of p;
  SetDebugRegisters_law : ∀ d p,
    ∃ p', Process.SetDebugRegisters d p = (Ok tt, p') ∧ dbg_of p' = d
}.

(** Some watchpoint of the table uses debug register [i]. *)
Definition uses_register (wps : gmap N Watchpoint) (i : N) : Prop :=
  ∃ a wp, wps !! a = Some wp ∧ hw_reg wp = i.

(** Every watchpoint of the table has a debug register of its own, and one
    the architecture has. *)
Definition registers_distinct {D} {arch : Arch.t D} (wps : gmap N Watchpoint)
    : Prop :=
  (∀ a wp, wps !! a = Some wp → (hw_reg wp < Arch.DebugRegistersCount)%N) ∧
  (∀ a b wa wb, wps !! a = Some wa → wps !! b = Some wb →
     hw_reg wa = hw_reg wb → a = b).

(** The number of enabled breakpoints of a table. *)
Definition enabled_count (bps : gmap N SoftwareBreakpoint) : nat :=
  size (filter (λ kv, enabled kv.2 = true) bps).

(** The calls a single step makes on the process and on the architecture
    all end. *)
Record ProcessEnds {P D} {proc : Process.t P D} {arch : Arch.t D} : Prop := {
  ReadText_ends : ∀ a k p, ends (Process.ReadText a k p).1;
  WriteText_ends : ∀ a w p, ends (Process.WriteText a w p).1;
  FetchRegisters_ends : ∀ p, ends (Process.FetchRegisters p).1;
  SetRegisters_ends : ∀ r p, ends (Process.SetRegisters r p).1;
  FetchDebugRegisters_ends : ∀ p, ends (Process.FetchDebugRegisters p).1;
  Singlestep_ends : ∀ p, ends (Process.Singlestep p).1;
  Wait_ends : ∀ p, ends (Process.Wait p).1;
  GetReason_ends : ∀ p, ends (Process.GetReason p).1;
  GetResponsibleRegister_ends : ∀ d, ends (Arch.GetResponsibleRegister d)
}.

(** Running the debuggee and asking for its registers leaves its text
    alone. *)
Record ExecutionLeavesText {P D} {proc : Process.t P D}
    (text_of : P → list string) : Prop := {
  Singlestep_text : ∀ p, text_of (Process.Singlestep p).2 = text_of p;
  Wait_text : ∀ p, text_of (Process.Wait p).2 = text_of p;
  GetReason_text : ∀ p, text_of (Process.GetReason p).2 = text_of p;
  FetchRegisters_text : ∀ p, text_of (Process.FetchRegisters p).2 = text_of p;
  SetRegisters_text : ∀ r p, text_of (Process.SetRegisters r p).2 = text_of p;
  FetchDebugRegisters_text :
    ∀ p, text_of (Process.FetchDebugRegisters p).2 = text_of p
}.

(** Every enabled breakpoint has its trap in the debuggee. *)
Definition armed {P} (text_of : P → list string) (n : @Native P) : Prop :=
  ∀ a bp, software_breakpoints n !! a = Some bp → enabled bp = true →
          text_of (process n) !! N.to_nat a = Some "BKPT".

(** A call that leaves the text of the debuggee and the breakpoint table
    alone, however it ends. *)
Definition keeps {P A} (text_of : P → list string) (m : M (@Native P) A) : Prop :=
  ∀ n, text_of (process (m n).2) = text_of (process n) ∧
       software_breakpoints (m n).2 = software_breakpoints n.

End NativeLaws.

(** ** Notions used to state further properties of the source layer *)

Module SourceSpec.
Import Source.

(** The DIEs of a tree, each before its children. *)
Fixpoint preorder (die : DIE) : list DIE :=
  die ::
  match die with
  | MakeDIE _ _ cs =>
      (fix go (cs : list DIE) : list DIE :=
         match cs with
         | c :: rest => (preorder c ++ go rest)%list
         | [] => []
         end) cs
  end.

(** A function DIE with a name whose range holds the address. *)
Definition covers (address : N) (die : DIE) (name : string) : Prop :=
  get_tag die = function ∧
  FindDieAttribute sel_name die = Some name ∧
  ∃ begin_addr end_addr,
    FindDieAttribute sel_begin_addr die = Some begin_addr ∧
    FindDieAttribute sel_end_addr die = Some end_addr ∧
    (begin_addr ≤ address < end_addr)%N.

(** The DIE carries the id. *)
Definition has_id (id : N) (die : DIE) : Prop :=
  FindDieAttribute sel_id die = Some id.

#[global] Instance has_id_dec (id : N) (die : DIE) : Decision (has_id id die).
Proof. unfold has_id. apply _. Defined.

(** The loop of [FindDIEById] over the children, as a function of its own. *)
Fixpoint find_in_children (id : N) (cs : list DIE) : option DIE :=
  match cs with
  | c :: rest =>
      match FindDIEById c id with
      | Some found => Some found
      | None => find_in_children id rest
      end
  | [] => None
  end.

(** What a call may do to the [Source]: the DIE tree stays, the cache
    keeps every entry it has. *)
Definition grows (s s' : Source) : Prop :=
  top_die s' = top_die s ∧ cached_types s ⊆ cached_types s'.

(** An entry of the result is an entry the result had, or a variable DIE of
    the tree under its own name. *)
Definition named_variable (die : DIE) (n : string) (d : DIE) : Prop :=
  d ∈ preorder die ∧ get_tag d = variable ∧ FindDieAttribute sel_name d = Some n.

End SourceSpec.

(** ** Measures of what the assembly parser has still to read *)

Module AsmMeasure.
Import Asm.

(** The characters the lexer has not consumed: those in the stream and the
    lookahead, unless it is the end of the input. *)
Definition unread (l : Lexer.t) : nat :=
  length (Lexer.input l) +
  (if is_char (Lexer.lookahead l) EOF then 0 else 1)%nat.

(** The same for the parser, counting the current token unless it is the
    end token. *)
Definition pending (p : Parser.t) : nat :=
  unread (Parser.lex p) +
  (if bool_decide (kind (Parser.curtok p) = END) then 0 else 1)%nat.

(** The result of a call of the lexer: the call has ended, with at most
    [bound] characters left to read. *)
Definition within {A} (bound : nat) (r : outcome A * Lexer.t) : Prop :=
  ends r.1 ∧ (unread r.2 ≤ bound)%nat.

(** The same for a call that returns a token: fewer than [bound] characters
    are left unless the token is the end token. *)
Definition lexed (bound : nat) (r : outcome Token * Lexer.t) : Prop :=
  within bound r ∧
  ∀ tok, r.1 = Ok tok → kind tok ≠ END → (unread r.2 < bound)%nat.

(** The result of a call of the parser: the call has ended, with at most
    [bound] pending. *)
Definition advances {A} (bound : nat) (r : outcome A * Parser.t) : Prop :=
  ends r.1 ∧ (pending r.2 ≤ bound)%nat.

(** The same, with less than [bound] pending when the call has returned. *)
Definition consumes {A} (bound : nat) (r : outcome A * Parser.t) : Prop :=
  advances bound r ∧ ∀ a, r.1 = Ok a → (pending r.2 < bound)%nat.

(** A parsing function that ends in every state and never leaves more
    pending than it found. *)
Definition steady {A} (m : M Parser.t A) : Prop :=
  ∀ p, advances (pending p) (m p).

End AsmMeasure.

(** ** String literals of the data section, as written *)

Module AsmText.
Import Asm.

(** One character of a string literal: a plain character, or one of the
    four escapes. *)
Inductive piece : Type :=
| Plain (c : ascii)
| EscNewline
| EscTab
| EscBackslash
| EscQuote.

(** How it is written. *)
Definition piece_chars (x : piece) : list ascii :=
  match x with
  | Plain c => [c]
  | EscNewline => ["\"; "n"]%char
  | EscTab => ["\"; "t"]%char
  | EscBackslash => ["\"; "\"]%char
  | EscQuote => ["\"; "034"]%char
  end.

(** The character it stands for. *)
Definition piece_value (x : piece) : ascii :=
  match x with
  | Plain c => c
  | EscNewline => "010"%char
  | EscTab => "009"%char
  | EscBackslash => "\"%char
  | EscQuote => "034"%char
  end.

(** A plain character is neither the quote, nor the backslash, nor the
    character the end of the input reads as. *)
Definition well_written (x : piece) : Prop :=
  match x with
  | Plain c => c ≠ "034"%char ∧ c ≠ "\"%char ∧ c ≠ EOF
  | _ => True
  end.

Definition body_chars (xs : list piece) : list ascii :=
  concat (piece_chars <$> xs).

(** The literal between its quotes. *)
Definition quoted_chars (xs : list piece) : list ascii :=
  ("034"%char :: body_chars xs ++ ["034"%char])%list.

Definition quoted (xs : list piece) : string :=
  String.string_of_list_ascii (quoted_chars xs).

(** The string it denotes. *)
Definition denoted (xs : list piece) : list ascii := piece_value <$> xs.

End AsmText.

(** * Properties *)

(** ** Native control layer *)

Module NativeProps.
Import Native NativeSpec.

(** Stepping through a computation of the monad. *)
Ltac unfold_monad :=
  unfold bind, ret, throw, out_of_fuel, get, gets, modify, call, lift_outcome,
    vector_at in *.

Ltac invc H := inversion H; subst; clear H.

Lemma bind_Ok_inv {S A B} (m : M S A) (k : A → M S B) s b s' :
  bind m k s = (Ok b, s') →
  ∃ a s1, m s = (Ok a, s1) ∧ k a s1 = (Ok b, s').
Proof.
  unfold bind. destruct (m s) as [[a|e|] s1]; intros H; try discriminate.
  eauto.
Qed.

Lemma bind_Ok {S A B} (m : M S A) (k : A → M S B) s a s1 :
  m s = (Ok a, s1) → bind m k s = k a s1.
Proof. unfold bind. by intros ->. Qed.

Lemma call_Ok {P A} (f : M P A) (n : @Native P) a p' :
  f (process n) = (Ok a, p') → call f n = (Ok a, set_process p' n).
Proof. unfold call. by intros ->. Qed.

Lemma call_inv {P A} (f : M P A) (n n' : @Native P) r :
  call f n = (r, n') →
  ∃ p', f (process n) = (r, p') ∧ n' = set_process p' n.
Proof.
  unfold call. destruct (f (process n)) as [r0 p'].
  intros H; invc H. eauto.
Qed.

(** Case analysis on the call at the head of the computation in [H]. *)
Ltac step_in H :=
  match type of H with
  | (match ?f with _ => _ end) = _ =>
      let r := fresh "r" in let s := fresh "s" in let E := fresh "E" in
      destruct f as [[r| |] s] eqn:E; simpl in H;
      try (let p := fresh "p" in
           apply call_inv in E as (p & E & ->); simpl in * )
  end.

Section Breakpoints.
Context {P D : Type} {proc : Process.t P D} {arch : Arch.t D}.

Lemma GetSoftwareBreakpointOpcode_T86 (n : @Native P) :
  Arch.GetMachine = Arch.T86 →
  GetSoftwareBreakpointOpcode n = (Ok "BKPT", n).
Proof.
  intros HM. unfold GetSoftwareBreakpointOpcode, opcode_map. simpl.
  rewrite HM. reflexivity.
Qed.

Lemma GetSoftwareBreakpointOpcode_inv (n n' : @Native P) r :
  GetSoftwareBreakpointOpcode n = (r, n') →
  n' = n ∧ (r = Ok "BKPT" ∧ Arch.GetMachine = Arch.T86 ∨ r = Throw out_of_range).
Proof.
  unfold GetSoftwareBreakpointOpcode, opcode_map. simpl.
  destruct (decide (Arch.T86 = Arch.GetMachine)) as [e|e]; simpl; unfold_monad;
    intros H; invc H; auto.
Qed.

Lemma CreateSoftwareBreakpoint_inv address (n n' : @Native P) r :
  CreateSoftwareBreakpoint address n = (r, n') →
  software_breakpoints n' = software_breakpoints n ∧
  watchpoints n' = watchpoints n ∧
  cached_event n' = cached_event n ∧
  match r with
  | Ok bp => installed address n bp n'
  | _ => True
  end.
Proof.
  unfold CreateSoftwareBreakpoint. unfold bind at 1.
  destruct (GetSoftwareBreakpointOpcode n) as [r0 n0] eqn:E0.
  apply GetSoftwareBreakpointOpcode_inv in E0 as [-> [[-> HM]| ->]];
    [|intros H; invc H; auto].
  unfold bind, vector_at. intros H.
  step_in H; [|invc H; auto..].
  destruct (r0 !! 0%nat) as [backup|] eqn:Eb; [|invc H; auto].
  simpl in H. step_in H; [|invc H; auto..].
  step_in H; [|invc H; auto..].
  destruct (r2 !! 0%nat) as [new_opcode|] eqn:En; [|invc H; auto].
  simpl in H.
  destruct (bool_decide (new_opcode ≠ "BKPT")) eqn:Ev; invc H; simpl; auto.
  repeat split; auto.
  apply bool_decide_eq_false in Ev. apply dec_stable in Ev. subst.
  destruct r1. exists r0, p, p0, r2. simpl. repeat split; assumption.
Qed.

(** C9. [SetBreakpoint] is atomic with respect to the breakpoint table.
    Whatever the process does, the call either returns, and then the address
    was free, the trap opcode has been written to the debuggee and read back,
    and the table is the old one with the new enabled record, which keeps the
    word read before the write; or it does not return, and then the table is
    exactly the one before the call.  In particular, when the word read back
    after the write is not the trap opcode, the call throws a
    [DebuggerError] and leaves the table as it was. *)
Theorem SetBreakpoint_atomic (address : N) (n : @Native P) :
  (∀ r n', SetBreakpoint address n = (r, n') →
     match r with
     | Ok _ =>
         software_breakpoints n !! address = None ∧
         ∃ bp, installed address n bp n' ∧
               software_breakpoints n' = <[address := bp]> (software_breakpoints n)
     | _ => software_breakpoints n' = software_breakpoints n
     end) ∧
  (∀ text0 backup p1 p2 text1 got p3,
     Arch.GetMachine = Arch.T86 →
     software_breakpoints n !! address = None →
     Process.ReadText address 1 (process n) = (Ok text0, p1) →
     text0 !! 0%nat = Some backup →
     Process.WriteText address ["BKPT"] p1 = (Ok tt, p2) →
     Process.ReadText address 1 p2 = (Ok text1, p3) →
     text1 !! 0%nat = Some got →
     got ≠ "BKPT" →
     ∃ msg n', SetBreakpoint address n = (Throw (DebuggerError msg), n') ∧
               software_breakpoints n' = software_breakpoints n).
Proof.
  split.
  - intros r n'. unfold SetBreakpoint. unfold bind at 1, gets at 1.
    destruct (bool_decide (is_Some (software_breakpoints n !! address))) eqn:Eb.
    { intros H; invc H. reflexivity. }
    apply bool_decide_eq_false in Eb.
    assert (Hfree : software_breakpoints n !! address = None).
    { destruct (software_breakpoints n !! address); [exfalso; eauto | done]. }
    unfold bind. intros H. 
    destruct (CreateSoftwareBreakpoint address n) as [[bp|e|] n1] eqn:Ec;
      apply CreateSoftwareBreakpoint_inv in Ec as (Ht & _ & _ & Hi);
      invc H; simpl; auto.
    split; [done|]. exists bp. split.
    + destruct Hi as (t0 & p1 & p2 & t1 & ?). exists t0, p1, p2, t1. simpl. done.
    + rewrite Ht. unfold emplace. by rewrite Hfree.
  - intros text0 backup p1 p2 text1 got p3 HM Hfree E1 Eb E2 E3 Eg Hne.
    unfold SetBreakpoint, CreateSoftwareBreakpoint.
    unfold bind at 1, gets at 1. rewrite Hfree. simpl.
    unfold bind at 1. unfold bind at 1.
    rewrite (GetSoftwareBreakpointOpcode_T86 n HM).
    unfold bind, call, vector_at. rewrite E1, Eb. simpl. rewrite E2. simpl.
    rewrite E3, Eg. simpl. rewrite bool_decide_eq_true_2 by done.
    eexists _, _. split; [reflexivity|]. reflexivity.
Qed.

End Breakpoints.

Section Watchpoints.
Context {P D : Type} {proc : Process.t P D} {arch : Arch.t D}.

(** The debug registers of the debuggee, as [FetchDebugRegisters] reports
    them; fetching does not change them. *)
Variable debug_registers_of : P → D.
Hypothesis FetchDebugRegisters_spec : ∀ p,
  ∃ p', Process.FetchDebugRegisters p = (Ok (debug_registers_of p), p') ∧
        debug_registers_of p' = debug_registers_of p.

(** C10. [RemoveWatchpoint] on a watched address erases the entry from the
    table; the only call it makes on the process is the fetch of the debug
    registers, the deactivated copy is dropped, and the debug registers of
    the debuggee are the ones before the call. *)
Theorem RemoveWatchpoint_leaves_debug_registers
    (address : N) (wp : Watchpoint) (n : @Native P) (d' : D) :
  watchpoints n !! address = Some wp →
  Arch.DeactivateDebugRegister (hw_reg wp) (debug_registers_of (process n)) = Ok d' →
  ∃ p',
    Process.FetchDebugRegisters (process n) = (Ok (debug_registers_of (process n)), p') ∧
    RemoveWatchpoint address n =
      (Ok tt, set_watchpoints (delete address (watchpoints n)) (set_process p' n)) ∧
    debug_registers_of p' = debug_registers_of (process n).
Proof.
  intros Hwp Hd.
  destruct (FetchDebugRegisters_spec (process n)) as (p' & Hf & Hsame).
  exists p'. split; [done|]. split; [|done].
  unfold RemoveWatchpoint. unfold bind at 1, gets at 1. rewrite Hwp.
  unfold bind, call, lift_outcome, modify. rewrite Hf. simpl. rewrite Hd.
  reflexivity.
Qed.

End Watchpoints.

Section Registers.
Context {P D : Type} {proc : Process.t P D} {arch : Arch.t D}.

(** The integer registers of the debuggee: [FetchRegisters] reports them
    without changing them, [SetRegisters] replaces them. *)
Variable regs_of : P → gmap string Z.
Hypothesis FetchRegisters_spec : ∀ p,
  ∃ p', Process.FetchRegisters p = (Ok (regs_of p), p') ∧ regs_of p' = regs_of p.
Hypothesis SetRegisters_spec : ∀ r p,
  ∃ p', Process.SetRegisters r p = (Ok tt, p') ∧ regs_of p' = r.

Lemma u64_of_i64_pred (ip : Z) :
  u64_of_i64 (i64 (ip - 1)) = wrap64 (u64_of_i64 ip + two64 - 1).
Proof.
  unfold u64_of_i64, i64, wrap64, two64.
  apply N2Z.inj. rewrite N2Z.inj_mod, N2Z.inj_sub, N2Z.inj_add by lia.
  rewrite !Z2N.id by (apply Z.mod_pos_bound; lia).
  change (Z.of_N (2 ^ 64)) with (2 ^ 64)%Z. change (Z.of_N 1) with 1%Z.
  rewrite <- (Zminus_mod_idemp_l ((ip - 1 + 2 ^ 63) mod 2 ^ 64)).
  rewrite Z.mod_mod by lia.
  rewrite Zminus_mod_idemp_l.
  replace (ip mod 2 ^ 64 + 2 ^ 64 - 1)%Z with ((ip mod 2 ^ 64 - 1) + 1 * 2 ^ 64)%Z by lia.
  rewrite Z.mod_add by lia. rewrite Zminus_mod_idemp_l. f_equal. lia.
Qed.

(** The path of [WaitForDebugEvent] that waits on the process does what the
    specification asks: a reported [BreakpointHit] carries the address [IP]
    holds when the call returns. *)
Theorem WaitForDebugEvent_waiting_aligned (n n' : @Native P) ty address :
  cached_event n = None →
  WaitForDebugEvent n = (Ok (BreakpointHit ty address), n') →
  IP_of regs_of n' = Some address.
Proof.
  intros Hc H. unfold WaitForDebugEvent in H.
  apply bind_Ok_inv in H as (cached & s0 & Hg & H). invc Hg. rewrite Hc in H.
  apply bind_Ok_inv in H as (reason & s1 & Hreason & H).
  apply bind_Ok_inv in H as ([] & s2 & Hfix & H). invc H. simpl in Hfix.
  apply bind_Ok_inv in Hreason as ([] & sa & Hw & Hreason).
  apply call_inv in Hw as (pa & Hw & ->).
  apply bind_Ok_inv in Hreason as (sr & sb & Hr & Hreason).
  apply call_inv in Hr as (pb & Hr & ->).
  destruct sr; simpl in Hreason; try discriminate.
  - (* SoftwareBreakpointHit *)
    apply bind_Ok_inv in Hreason as (ip & sc & Hip & Hreason). invc Hreason.
    unfold GetIP in Hip.
    apply bind_Ok_inv in Hip as (v & sd & Hv & Hip). invc Hip.
    unfold GetRegister in Hv.
    apply bind_Ok_inv in Hv as (regs & se & Hf & Hv).
    apply call_inv in Hf as (pc & Hf & ->). simpl in Hf.
    destruct (FetchRegisters_spec pb) as (p1 & Hf1 & Hr1).
    rewrite Hf1 in Hf. invc Hf.
    destruct (regs_of pb !! "IP") as [ip|] eqn:Eip; [|discriminate]. invc Hv.
    apply bind_Ok_inv in Hfix as (regs & sf & Hf & Hfix).
    apply call_inv in Hf as (pd & Hf & ->). simpl in Hf.
    destruct (FetchRegisters_spec pc) as (p2 & Hf2 & Hr2).
    rewrite Hf2 in Hf. invc Hf. rewrite Hr1, Eip in Hfix.
    apply call_inv in Hfix as (pe & Hs & ->). simpl in Hs.
    destruct (SetRegisters_spec (<["IP" := i64 (v - 1)]> (regs_of pb)) pd)
      as (p3 & Hs' & Hr3).
    rewrite Hs' in Hs. invc Hs.
    unfold IP_of. simpl. rewrite Hr3, lookup_insert_eq. simpl.
    f_equal. apply u64_of_i64_pred.
  - (* HardwareBreak: never a BreakpointHit *)
    apply bind_Ok_inv in Hreason as (d & sc & _ & Hreason).
    apply bind_Ok_inv in Hreason as (idx & sd & _ & Hreason).
    apply bind_Ok_inv in Hreason as (wps & se & _ & Hreason).
    destruct (find_if_hw_reg idx wps); discriminate.
Qed.

(** The path that returns a cached event does not: the event was aligned
    when [ContinueExecution] cached it, and [IP] is moved back once more. *)
Theorem WaitForDebugEvent_cached_decrements (n : @Native P) ty address ip :
  cached_event n = Some (BreakpointHit ty address) →
  regs_of (process n) !! "IP" = Some ip →
  ∃ n',
    WaitForDebugEvent n = (Ok (BreakpointHit ty address), n') ∧
    cached_event n' = None ∧
    IP_of regs_of n' = Some (wrap64 (u64_of_i64 ip + two64 - 1)).
Proof.
  intros Hc Hip. unfold WaitForDebugEvent.
  unfold bind at 1, gets at 1. rewrite Hc.
  unfold bind at 1. unfold bind at 1, modify at 1, ret at 1.
  cbn [holds_BreakpointHit].
  destruct (FetchRegisters_spec (process n)) as (p1 & Hf & Hr1).
  destruct (SetRegisters_spec (<["IP" := i64 (ip - 1)]> (regs_of (process n))) p1)
    as (p2 & Hs & Hr2).
  unfold bind at 1. unfold bind at 1, GetRegisters, call at 1.
  cbn [process set_cached_event]. rewrite Hf. rewrite Hip.
  unfold SetRegisters, call. cbn [process set_process]. rewrite Hs.
  unfold ret. eexists. split; [reflexivity|]. split; [reflexivity|].
  unfold IP_of. cbn [process set_process]. rewrite Hr2, lookup_insert_eq.
  simpl. f_equal. apply u64_of_i64_pred.
Qed.

End Registers.




Lemma read_range_length {A} (l ws : list A) a k :
  read_range l a k = Some ws → length ws = N.to_nat k.
Proof.
  unfold read_range. case_bool_decide; [|done]. intros [= <-].
  rewrite length_take, length_drop. lia.
Qed.

Lemma read_range_lookup {A} (l ws : list A) a k (j : nat) :
  read_range l a k = Some ws → (j < N.to_nat k)%nat →
  ws !! j = l !! (N.to_nat a + j)%nat.
Proof.
  unfold read_range. case_bool_decide; [|done]. intros [= <-] Hj.
  rewrite lookup_take_lt by done. by rewrite lookup_drop.
Qed.

Lemma read_range_one {A} (l : list A) a :
  read_range l a 1 = (λ w, [w]) <$> l !! N.to_nat a.
Proof.
  unfold read_range. case_bool_decide as Hb.
  - destruct (lookup_lt_is_Some_2 l (N.to_nat a)) as [w Hw]; [lia|].
    rewrite Hw. simpl. f_equal.
    change (N.to_nat 1) with 1%nat.
    apply (take_drop_middle) in Hw as Hl.
    rewrite <- Hl at 1. rewrite drop_app_length'.
    2:{ rewrite length_take. apply lookup_lt_Some in Hw. lia. }
    simpl. by rewrite take_0.
  - rewrite lookup_ge_None_2; [done|lia].
Qed.

Lemma write_range_length {A} (l ws x : list A) a :
  write_range l a ws = Some x → length x = length l.
Proof.
  unfold write_range. case_bool_decide; [|done]. intros [= <-].
  rewrite !length_app, length_take, length_drop. lia.
Qed.

Lemma write_range_lookup {A} (l ws x : list A) a (j : nat) :
  write_range l a ws = Some x →
  x !! j = if bool_decide (N.to_nat a ≤ j < N.to_nat a + length ws)%nat
           then ws !! (j - N.to_nat a)%nat else l !! j.
Proof.
  unfold write_range. case_bool_decide as Hb; [|done]. intros [= <-].
  case_bool_decide as Hj.
  - rewrite lookup_app_r by (rewrite length_take; lia).
    rewrite length_take. rewrite lookup_app_l by lia. f_equal. lia.
  - destruct (decide (j < N.to_nat a)%nat).
    + rewrite lookup_app_l by (rewrite length_take; lia).
      by rewrite lookup_take_lt.
    + rewrite lookup_app_r by (rewrite length_take; lia).
      rewrite length_take. rewrite lookup_app_r by lia.
      rewrite lookup_drop. f_equal. lia.
Qed.

Lemma write_range_one {A} (l : list A) a w :
  write_range l a [w] =
  if bool_decide (N.to_nat a < length l)%nat then Some (<[N.to_nat a := w]> l) else None.
Proof.
  destruct (write_range l a [w]) as [x|] eqn:E.
  - assert (N.to_nat a < length l)%nat.
    { unfold write_range in E. case_bool_decide; [|done]. simpl in *. lia. }
    rewrite bool_decide_eq_true_2 by done. f_equal.
    apply list_eq. intros j. rewrite (write_range_lookup _ _ _ _ _ E).
    simpl. case_bool_decide.
    + assert (j = N.to_nat a) as -> by lia. rewrite Nat.sub_diag. simpl.
      by rewrite list_lookup_insert_eq.
    + rewrite list_lookup_insert_ne by lia. done.
  - unfold write_range in E. case_bool_decide; [done|]. simpl in *.
    rewrite bool_decide_eq_false_2; [done|lia].
Qed.

Section TextEffects.
Context {P D : Type} {proc : Process.t P D} {arch : Arch.t D}.
Variable text_of : P → list string.
Hypothesis HT : TextMemory text_of.
Hypothesis HM : Arch.GetMachine = Arch.T86.

Lemma CreateSoftwareBreakpoint_effect a (n : @Native P) :
  ∃ r n',
    CreateSoftwareBreakpoint a n = (r, n') ∧
    software_breakpoints n' = software_breakpoints n ∧
    match text_of (process n) !! N.to_nat a with
    | Some w =>
        r = Ok {| data := w; enabled := true |} ∧
        text_of (process n') = <[N.to_nat a := "BKPT"]> (text_of (process n))
    | None =>
        (∃ e, r = Throw e) ∧ text_of (process n') = text_of (process n)
    end.
Proof.
  unfold CreateSoftwareBreakpoint.
  rewrite (bind_Ok _ _ _ _ _ (GetSoftwareBreakpointOpcode_T86 n HM)).
  pose proof (read_range_one (text_of (process n)) a) as Hr.
  destruct (text_of (process n) !! N.to_nat a) as [w|] eqn:Ew; simpl in Hr.
  - destruct (ReadText_inside _ HT _ _ _ _ Hr) as (p1 & E1 & T1).
    rewrite (bind_Ok _ _ _ _ _ (call_Ok _ _ _ _ E1)).
    unfold vector_at at 1. simpl. unfold bind at 1, ret at 1.
    assert (Hw : write_range (text_of p1) a ["BKPT"] =
                 Some (<[N.to_nat a := "BKPT"]> (text_of (process n)))).
    { rewrite write_range_one, T1.
      rewrite bool_decide_eq_true_2; [done|]. by apply lookup_lt_Some in Ew. }
    destruct (WriteText_inside _ HT _ _ _ _ Hw) as (p2 & E2 & T2).
    erewrite bind_Ok by (apply call_Ok; simpl; exact E2).
    assert (Hr2 : read_range (text_of p2) a 1 = Some ["BKPT"]).
    { rewrite read_range_one, T2, list_lookup_insert_eq; [done|].
      by apply lookup_lt_Some in Ew. }
    destruct (ReadText_inside _ HT _ _ _ _ Hr2) as (p3 & E3 & T3).
    erewrite bind_Ok by (apply call_Ok; simpl; exact E3).
    unfold vector_at. simpl. unfold bind, ret. simpl.
    eexists _, _. split; [reflexivity|]. simpl. split; [done|].
    split; [done|]. by rewrite T3, T2.
  - destruct (ReadText_outside _ HT _ _ _ Hr) as (e & p1 & E1 & T1).
    unfold bind, call. rewrite E1. simpl.
    eexists _, _. split; [reflexivity|]. simpl. eauto.
Qed.


Lemma set_software_breakpoints_id (n : @Native P) :
  set_software_breakpoints (software_breakpoints n) n = n.
Proof. by destruct n. Qed.

Lemma write_table_nil a i (t : gmap N SoftwareBreakpoint) :
  write_table a i [] t = t.
Proof.
  apply map_eq. intros k. unfold write_table. rewrite map_lookup_imap.
  destruct (t !! k) as [bp|]; simpl; [|done].
  case_bool_decide; by rewrite ?lookup_nil.
Qed.

Lemma write_table_cons a i x w (t : gmap N SoftwareBreakpoint) :
  write_table a i (x :: w) t =
  write_table a (S i) w
    match t !! (a + N.of_nat i)%N with
    | Some bp => <[(a + N.of_nat i)%N := {| data := x; enabled := enabled bp |}]> t
    | None => t
    end.
Proof.
  apply map_eq. intros k. unfold write_table. rewrite !map_lookup_imap.
  destruct (decide (k = a + N.of_nat i)%N) as [->|Hk].
  - destruct (t !! (a + N.of_nat i)%N) as [bp|] eqn:Eb.
    + rewrite lookup_insert_eq. simpl.
      rewrite bool_decide_eq_true_2 by lia.
      rewrite bool_decide_eq_false_2 by lia.
      replace (N.to_nat (a + N.of_nat i - a) - i)%nat with 0%nat by lia. done.
    + rewrite Eb. done.
  - assert (Ht : (match t !! (a + N.of_nat i)%N with
                  | Some bp => <[(a + N.of_nat i)%N := {| data := x; enabled := enabled bp |}]> t
                  | None => t
                  end) !! k = t !! k).
    { destruct (t !! (a + N.of_nat i)%N); [by rewrite lookup_insert_ne|done]. }
    rewrite Ht. destruct (t !! k) as [bp|]; simpl; [|done].
    f_equal. case_bool_decide as H1; case_bool_decide as H2; try lia; try done.
    replace (N.to_nat (k - a) - i)%nat with (S (N.to_nat (k - a) - S i))%nat by lia.
    done.
Qed.

Lemma WriteText_loop_effect a w : ∀ i (n : @Native P),
  (a + N.of_nat i + N.of_nat (length w) ≤ two64)%N →
  WriteText_loop a i w n =
    (Ok (write_words (software_breakpoints n) a i w),
     set_software_breakpoints (write_table a i w (software_breakpoints n)) n).
Proof.
  induction w as [|x w IH]; intros i n Hb.
  - simpl. unfold ret. by rewrite write_table_nil, set_software_breakpoints_id.
  - simpl in Hb. cbn [WriteText_loop].
    assert (Hw : wrap64 (N.of_nat i + a) = (a + N.of_nat i)%N).
    { unfold wrap64. rewrite N.mod_small; lia. }
    rewrite Hw. unfold bind at 1, gets at 1.
    rewrite write_table_cons. unfold write_words. cbn [imap].
    replace (i + 0)%nat with i by lia.
    destruct (software_breakpoints n !! (a + N.of_nat i)%N) as [bp|] eqn:Eb.
    + unfold bind at 1. unfold bind at 1, modify at 1.
      rewrite GetSoftwareBreakpointOpcode_T86 by done.
      unfold bind at 1. rewrite IH by (simpl; lia). simpl. unfold ret.
      f_equal. f_equal. f_equal.
      apply imap_ext. intros j y _. simpl.
      replace (i + S j)%nat with (S i + j)%nat by lia.
      rewrite lookup_insert_ne by lia. done.
    + unfold bind at 1, ret at 1. unfold bind at 1.
      rewrite IH by lia. unfold ret. simpl.
      f_equal. f_equal. f_equal. apply imap_ext. intros j y _. simpl.
      by replace (i + S j)%nat with (S i + j)%nat by lia.
Qed.

Lemma TextSize_effect (n : @Native P) :
  ∃ p', TextSize n = (Ok (N.of_nat (length (text_of (process n)))), set_process p' n) ∧
        text_of p' = text_of (process n).
Proof.
  destruct (TextSize_spec _ HT (process n)) as (p' & E & T).
  exists p'. split; [|done]. unfold TextSize. by apply call_Ok.
Qed.

Lemma SetBreakpoint_effect a (n : @Native P) :
  ∃ r n',
    SetBreakpoint a n = (r, n') ∧
    view text_of n' = effect (CmdSetBreakpoint a) (view text_of n) ∧
    (software_breakpoints n !! a = None →
     is_Some (text_of (process n) !! N.to_nat a) → r = Ok tt).
Proof.
  unfold SetBreakpoint, view, effect, install_effect. simpl.
  unfold bind at 1, gets at 1.
  destruct (software_breakpoints n !! a) as [bp|] eqn:Eb.
  - rewrite bool_decide_eq_true_2 by eauto. unfold throw.
    eexists _, _. split; [reflexivity|]. split; [done|]. done.
  - rewrite bool_decide_eq_false_2 by (intros [? ?]; congruence).
    destruct (CreateSoftwareBreakpoint_effect a n) as (r & n1 & Ec & Ht & Hc).
    unfold bind. rewrite Ec.
    destruct (text_of (process n) !! N.to_nat a) as [w|] eqn:Ew.
    + destruct Hc as [-> Hx]. unfold modify.
      eexists _, _. split; [reflexivity|]. simpl. rewrite Hx, Ht.
      unfold emplace. rewrite Eb. done.
    + destruct Hc as [[e ->] Hx].
      eexists _, _. split; [reflexivity|]. rewrite Hx, Ht.
      split; [done|]. intros _ [? ?]. congruence.
Qed.

Lemma EnableSoftwareBreakpoint_effect a (n : @Native P) :
  ∃ r n',
    EnableSoftwareBreakpoint a n = (r, n') ∧
    view text_of n' = effect (CmdEnable a) (view text_of n).
Proof.
  unfold EnableSoftwareBreakpoint, view, effect, install_effect. simpl.
  unfold bind at 1, gets at 1.
  destruct (software_breakpoints n !! a) as [bp|] eqn:Eb.
  - destruct (enabled bp); simpl.
    + unfold ret. eexists _, _. split; [reflexivity|]. done.
    + destruct (CreateSoftwareBreakpoint_effect a n) as (r & n1 & Ec & Ht & Hc).
      unfold bind. rewrite Ec.
      destruct (text_of (process n) !! N.to_nat a) as [w|] eqn:Ew.
      * destruct Hc as [-> Hx]. unfold modify.
        eexists _, _. split; [reflexivity|]. simpl. by rewrite Hx, Ht.
      * destruct Hc as [[e ->] Hx].
        eexists _, _. split; [reflexivity|]. by rewrite Hx, Ht.
  - unfold throw. eexists _, _. split; [reflexivity|]. done.
Qed.

Lemma DisableSoftwareBreakpoint_effect a (n : @Native P) :
  ∃ r n',
    DisableSoftwareBreakpoint a n = (r, n') ∧
    view text_of n' = effect (CmdDisable a) (view text_of n) ∧
    match software_breakpoints n !! a with
    | None => ∃ e, r = Throw e
    | Some bp =>
        if enabled bp then
          match text_of (process n) !! N.to_nat a with
          | Some _ => r = Ok tt
          | None => ∃ e, r = Throw e
          end
        else r = Ok tt
    end.
Proof.
  unfold DisableSoftwareBreakpoint, view, effect. simpl.
  unfold bind at 1, gets at 1.
  destruct (software_breakpoints n !! a) as [bp|] eqn:Eb.
  - destruct (enabled bp); simpl.
    + pose proof (write_range_one (text_of (process n)) a (data bp)) as Hw.
      destruct (text_of (process n) !! N.to_nat a) as [w|] eqn:Ew.
      * rewrite bool_decide_eq_true_2 in Hw by (by apply lookup_lt_Some in Ew).
        destruct (WriteText_inside _ HT _ _ _ _ Hw) as (p1 & E1 & T1).
        erewrite bind_Ok by (apply call_Ok; exact E1).
        unfold modify. eexists _, _. split; [reflexivity|]. simpl.
        by rewrite T1.
      * rewrite bool_decide_eq_false_2 in Hw by (apply lookup_ge_None in Ew; lia).
        destruct (WriteText_outside _ HT _ _ _ Hw) as (e & p1 & E1 & T1).
        unfold bind, call. rewrite E1. simpl.
        eexists _, _. split; [reflexivity|]. simpl. rewrite T1. eauto.
    + unfold ret. eexists _, _. split; [reflexivity|]. done.
  - unfold throw. eexists _, _. split; [reflexivity|]. eauto.
Qed.

Lemma UnsetBreakpoint_effect a (n : @Native P) :
  ∃ r n',
    UnsetBreakpoint a n = (r, n') ∧
    view text_of n' = effect (CmdUnsetBreakpoint a) (view text_of n) ∧
    (∀ bp, software_breakpoints n !! a = Some bp →
           is_Some (text_of (process n) !! N.to_nat a) → r = Ok tt).
Proof.
  destruct (DisableSoftwareBreakpoint_effect a n) as (r & n1 & Ed & Hv & Hr).
  unfold UnsetBreakpoint, bind. rewrite Ed.
  unfold view, effect in *. simpl in *.
  destruct (software_breakpoints n !! a) as [bp|] eqn:Eb.
  - destruct (enabled bp).
    + destruct (text_of (process n) !! N.to_nat a) as [w|] eqn:Ew.
      * subst r. unfold modify. eexists _, _. split; [reflexivity|]. simpl.
        invc Hv. rewrite H1. split; [|done]. f_equal.
        apply map_eq. intros k. destruct (decide (k = a)) as [->|].
        { by rewrite !lookup_delete_eq. }
        { rewrite !lookup_delete_ne by done. by rewrite lookup_insert_ne. }
      * destruct Hr as [e ->]. eexists _, _. split; [reflexivity|].
        split; [done|]. intros ? _ [? ?]. congruence.
    + subst r. unfold modify. eexists _, _. split; [reflexivity|]. simpl.
      invc Hv. rewrite H0, H1. done.
  - destruct Hr as [e ->]. eexists _, _. split; [reflexivity|].
    split; [done|]. intros ? ?. congruence.
Qed.

Lemma read_range_Some_bound {A} (l ws : list A) a k :
  read_range l a k = Some ws → (a + k ≤ N.of_nat (length l))%N.
Proof. unfold read_range. by case_bool_decide. Qed.

Lemma ReadText_effect a k (n : @Native P) :
  ∃ r n',
    ReadText a k n = (r, n') ∧
    view text_of n' = view text_of n ∧
    (∀ ws, (N.of_nat (length (text_of (process n))) < two64)%N →
           read_range (text_of (process n)) a k = Some ws →
           r = Ok (ReadText_subst (software_breakpoints n) a ws)).
Proof.
  destruct (TextSize_effect n) as (p1 & Es & T1).
  unfold ReadText. erewrite bind_Ok by exact Es.
  case_bool_decide as Hc.
  - unfold throw, view. simpl. eexists _, _. split; [reflexivity|]. simpl.
    rewrite T1. split; [done|]. intros ws Hbound Hws.
    apply read_range_Some_bound in Hws.
    unfold wrap64 in Hc. rewrite N.mod_small in Hc by lia. lia.
  - destruct (read_range (text_of p1) a k) as [ws|] eqn:Er.
    + destruct (ReadText_inside _ HT _ _ _ _ Er) as (p2 & E2 & T2).
      erewrite bind_Ok by (apply call_Ok; simpl; exact E2).
      unfold bind, gets, ret, view. simpl.
      eexists _, _. split; [reflexivity|]. simpl. rewrite T2, T1. split; [done|].
      intros ws' _ Hws'. rewrite T1 in Er. congruence.
    + destruct (ReadText_outside _ HT _ _ _ Er) as (e & p2 & E2 & T2).
      unfold bind, call. simpl. rewrite E2. simpl. unfold view. simpl.
      eexists _, _. split; [reflexivity|]. simpl. rewrite T2, T1. split; [done|].
      intros ws' _ Hws'. rewrite T1 in Er. congruence.
Qed.

Lemma write_words_length t a i w : length (write_words t a i w) = length w.
Proof. unfold write_words. by rewrite length_imap. Qed.

Lemma WriteText_effect a w (n : @Native P) :
  (a + N.of_nat (length w) < two64)%N →
  ∃ r n',
    WriteText a w n = (r, n') ∧
    view text_of n' = effect (CmdWriteText a w) (view text_of n) ∧
    ((a + N.of_nat (length w) ≤ N.of_nat (length (text_of (process n))))%N →
     r = Ok tt).
Proof.
  intros Hb.
  destruct (TextSize_effect n) as (p1 & Es & T1).
  unfold WriteText. erewrite bind_Ok by exact Es.
  unfold wrap64. rewrite N.mod_small by done.
  unfold view, effect. simpl.
  case_bool_decide as Hc.
  - unfold throw. simpl. eexists _, _. split; [reflexivity|]. simpl.
    unfold write_range. rewrite write_words_length.
    rewrite bool_decide_eq_false_2 by lia. rewrite T1. split; [done|]. lia.
  - rewrite (bind_Ok _ _ _ _ _ (WriteText_loop_effect a w 0 _ ltac:(simpl; lia))).
    simpl.
    destruct (write_range (text_of (process n)) a
                (write_words (software_breakpoints n) a 0 w)) as [x|] eqn:Ew.
    + rewrite <- T1 in Ew.
      destruct (WriteText_inside _ HT _ _ _ _ Ew) as (p2 & E2 & T2).
      unfold call. simpl. rewrite E2. simpl.
      eexists _, _. split; [reflexivity|]. simpl. by rewrite T2.
    + exfalso. unfold write_range in Ew. rewrite write_words_length in Ew.
      rewrite bool_decide_eq_true_2 in Ew by lia. done.
Qed.

Lemma run_effect c (n : @Native P) :
  regular n c →
  view text_of (run c n).2 = effect c (view text_of n).
Proof.
  intros Hreg. destruct c as [a|a|a|a|a k|a w]; cbn [run].
  - destruct (SetBreakpoint_effect a n) as (r & n' & -> & Hv & _). done.
  - destruct (UnsetBreakpoint_effect a n) as (r & n' & -> & Hv & _). done.
  - destruct (EnableSoftwareBreakpoint_effect a n) as (r & n' & -> & Hv). done.
  - destruct (DisableSoftwareBreakpoint_effect a n) as (r & n' & -> & Hv & _). done.
  - destruct (ReadText_effect a k n) as (r & n' & E & Hv & _).
    unfold bind. rewrite E. by destruct r.
  - destruct Hreg as [Hb _].
    destruct (WriteText_effect a w n Hb) as (r & n' & -> & Hv & _). done.
Qed.

End TextEffects.


Section Transparency.

Implicit Types (prog text : list string) (t : gmap N SoftwareBreakpoint).

Lemma transparent_view_length prog text t :
  transparent_view prog (text, t) → length prog = length text.
Proof.
  intros Hv.
  assert (Hs : ∀ j : nat, is_Some (prog !! j) ↔ is_Some (text !! j)).
  { intros j. specialize (Hv (N.of_nat j)). simpl in Hv.
    rewrite Nat2N.id in Hv. destruct (t !! N.of_nat j) as [bp|].
    - destruct Hv as [-> ->]. split; eauto.
    - by rewrite Hv. }
  destruct (Nat.lt_trichotomy (length prog) (length text)) as [Hl|[Hl|Hl]];
    [|done|].
  - apply lookup_lt_is_Some_2, Hs, lookup_lt_is_Some_1 in Hl. lia.
  - apply lookup_lt_is_Some_2, Hs, lookup_lt_is_Some_1 in Hl. lia.
Qed.

Lemma install_effect_transparent prog text t a :
  transparent_view prog (text, t) →
  (∀ bp, t !! a = Some bp → enabled bp = false) →
  transparent_view prog (install_effect a (text, t)).
Proof.
  intros Hv Hdis. unfold install_effect. simpl.
  destruct (text !! N.to_nat a) as [w|] eqn:Ew; [|done].
  intros k. simpl. destruct (decide (k = a)) as [->|Hk].
  - rewrite lookup_insert_eq. simpl.
    rewrite list_lookup_insert_eq by (by apply lookup_lt_Some in Ew).
    split; [|done]. specialize (Hv a). simpl in Hv.
    destruct (t !! a) as [bp|] eqn:Eb.
    + rewrite (Hdis bp eq_refl) in Hv. destruct Hv as [Hp Ht]. congruence.
    + congruence.
  - rewrite lookup_insert_ne by done.
    rewrite list_lookup_insert_ne by lia. apply Hv.
Qed.

Lemma write_table_lookup a w t k :
  write_table a 0 w t !! k =
  (λ bp, if bool_decide (a ≤ k < a + N.of_nat (length w))%N
         then {| data := default "" (w !! N.to_nat (k - a));
                 enabled := enabled bp |}
         else bp) <$> t !! k.
Proof.
  unfold write_table. rewrite map_lookup_imap.
  destruct (t !! k) as [bp|]; simpl; [|done]. f_equal.
  rewrite N.add_0_r, Nat.sub_0_r.
  case_bool_decide as H1; case_bool_decide as H2; try lia.
  - destruct (lookup_lt_is_Some_2 w (N.to_nat (k - a))) as [x ->]; [lia|]. done.
  - rewrite lookup_ge_None_2 by lia. done.
  - done.
Qed.

Lemma write_words_lookup a w t (i : nat) :
  write_words t a 0 w !! i =
  (λ x, if bool_decide (is_Some (t !! (a + N.of_nat i)%N)) then "BKPT" else x)
    <$> w !! i.
Proof. unfold write_words. by rewrite list_lookup_imap. Qed.

Lemma effect_transparent prog s c :
  transparent_view prog s →
  regular_table s.2 c →
  transparent_view (program_after c prog) (effect c s).
Proof.
  destruct s as [text t]. intros Hv Hreg.
  destruct c as [a|a|a|a|a k|a w]; cbn [effect program_after fst snd].
  - (* set *)
    destruct (t !! a) as [bp|] eqn:Eb; [done|].
    apply install_effect_transparent; [done|]. intros ?; congruence.
  - (* unset *)
    destruct (t !! a) as [bp|] eqn:Eb; [|done].
    pose proof (Hv a) as Ha. simpl in Ha. rewrite Eb in Ha.
    destruct Ha as [Hp Ht].
    destruct (enabled bp) eqn:Een.
    + rewrite Ht. intros k. simpl. destruct (decide (k = a)) as [->|Hk].
      * rewrite lookup_delete_eq.
        rewrite list_lookup_insert_eq by (by apply lookup_lt_Some in Ht).
        done.
      * rewrite lookup_delete_ne by done.
        rewrite list_lookup_insert_ne by lia. apply Hv.
    + intros k. simpl. destruct (decide (k = a)) as [->|Hk].
      * rewrite lookup_delete_eq. congruence.
      * rewrite lookup_delete_ne by done. apply Hv.
  - (* enable *)
    destruct (t !! a) as [bp|] eqn:Eb; [|done].
    destruct (enabled bp) eqn:Een; [done|].
    apply install_effect_transparent; [done|]. intros ?; congruence.
  - (* disable *)
    destruct (t !! a) as [bp|] eqn:Eb; [|done].
    pose proof (Hv a) as Ha. simpl in Ha. rewrite Eb in Ha.
    destruct Ha as [Hp Ht].
    destruct (enabled bp) eqn:Een; [|done].
    rewrite Ht. intros k. simpl. destruct (decide (k = a)) as [->|Hk].
    + rewrite lookup_insert_eq. simpl.
      rewrite list_lookup_insert_eq by (by apply lookup_lt_Some in Ht). done.
    + rewrite lookup_insert_ne by done.
      rewrite list_lookup_insert_ne by lia. apply Hv.
  - (* read *) done.
  - (* write *)
    destruct Hreg as [Hb Hen]. simpl in Hen.
    pose proof (transparent_view_length _ _ _ Hv) as Hlen.
    destruct (write_range text a (write_words t a 0 w)) as [x|] eqn:Ex.
    + assert (Hin : (a + N.of_nat (length w) ≤ N.of_nat (length text))%N).
      { unfold write_range in Ex. rewrite write_words_length in Ex.
        by case_bool_decide. }
      destruct (write_range prog a w) as [prog'|] eqn:Ep.
      2:{ unfold write_range in Ep. rewrite bool_decide_eq_true_2 in Ep by lia.
          done. }
      simpl. intros k. simpl.
      rewrite write_table_lookup.
      rewrite (write_range_lookup _ _ _ _ _ Ex), (write_range_lookup _ _ _ _ _ Ep).
      rewrite write_words_length.
      specialize (Hv k). simpl in Hv.
      case_bool_decide as Hr.
      * rewrite bool_decide_eq_true_2 by lia.
        rewrite write_words_lookup.
        replace (a + N.of_nat (N.to_nat k - N.to_nat a))%N with k by lia.
        replace (N.to_nat k - N.to_nat a)%nat with (N.to_nat (k - a)) by lia.
        destruct (lookup_lt_is_Some_2 w (N.to_nat (k - a))) as [y Hy]; [lia|].
        rewrite Hy. simpl.
        destruct (t !! k) as [bp|] eqn:Eb; simpl.
        -- rewrite (Hen (N.to_nat (k - a)) bp) by
             (try lia; by replace (a + N.of_nat (N.to_nat (k - a)))%N with k by lia).
           done.
        -- done.
      * rewrite bool_decide_eq_false_2 by lia.
        destruct (t !! k) as [bp|]; simpl; done.
    + destruct (write_range prog a w) as [prog'|] eqn:Ep; [|done].
      exfalso. unfold write_range in Ex, Ep. rewrite write_words_length in Ex.
      case_bool_decide; [|done]. rewrite bool_decide_eq_true_2 in Ex by lia.
      done.
Qed.

End Transparency.


Section TransparencyTheorems.
Context {P D : Type} {proc : Process.t P D} {arch : Arch.t D}.
Variable text_of : P → list string.
Hypothesis HT : TextMemory text_of.
Hypothesis HM : Arch.GetMachine = Arch.T86.

Lemma reachable_transparent prog (n : @Native P) :
  reachable text_of prog n → transparent text_of prog n.
Proof.
  induction 1 as [n Hempty|prog n c Hreach IH Hreg].
  - intros k. unfold view. simpl. by rewrite Hempty, lookup_empty.
  - unfold transparent. rewrite (run_effect text_of HT HM c n Hreg).
    by apply effect_transparent.
Qed.

(** C2, as the code has it.  After every sequence of set, unset, enable,
    disable, [ReadText] and [WriteText] in which no write covers a disabled
    breakpoint or wraps around the address space, every enabled record
    has the trap opcode at its address in the debuggee, and its saved
    opcode is the instruction of the program at that address: the word the
    debuggee was started with, or the word most recently written there
    through [WriteText].  Nothing keeps the saved opcode from being the trap
    opcode itself. *)
Theorem enabled_breakpoint_invariant prog (n : @Native P) a bp :
  reachable text_of prog n →
  software_breakpoints n !! a = Some bp →
  enabled bp = true →
  text_of (process n) !! N.to_nat a = Some "BKPT" ∧
  prog !! N.to_nat a = Some (data bp).
Proof.
  intros Hreach Hbp Hen.
  pose proof (reachable_transparent prog n Hreach a) as Hv.
  unfold view in Hv. simpl in Hv. rewrite Hbp, Hen in Hv. tauto.
Qed.

End TransparencyTheorems.


Lemma read_range_intro {A} (l ws : list A) a :
  (a + N.of_nat (length ws) ≤ N.of_nat (length l))%N →
  (∀ j : nat, (j < length ws)%nat → l !! (N.to_nat a + j)%nat = ws !! j) →
  read_range l a (N.of_nat (length ws)) = Some ws.
Proof.
  intros Hb Hl. unfold read_range. rewrite bool_decide_eq_true_2 by done.
  f_equal. apply list_eq. intros j. rewrite Nat2N.id.
  destruct (decide (j < length ws)%nat).
  - rewrite lookup_take_lt by done. rewrite lookup_drop. by apply Hl.
  - rewrite lookup_take_ge by lia. by rewrite lookup_ge_None_2 by lia.
Qed.

Lemma ReadText_subst_lookup t a ws (j : nat) :
  ReadText_subst t a ws !! j =
  (λ w, match t !! wrap64 (N.of_nat j + a) with
        | Some bp => data bp
        | None => w
        end) <$> ws !! j.
Proof. unfold ReadText_subst. by rewrite list_lookup_imap. Qed.

Section Roundtrip.
Context {P D : Type} {proc : Process.t P D} {arch : Arch.t D}.
Variable text_of : P → list string.
Hypothesis HT : TextMemory text_of.
Hypothesis HM : Arch.GetMachine = Arch.T86.

(** C3. Breakpoint transparency.  Let [A] be an address inside the text,
    free in the breakpoint table, and [W] a sequence of words that fits in
    the text from [A] on.  Then [SetBreakpoint A], [WriteText A W],
    [ReadText A |W|] and [UnsetBreakpoint A] all return, and the read
    returns exactly [W], whatever other breakpoints the table holds.  After
    the unset the text of the debuggee from [A] on is exactly [W], when no
    other breakpoint sits on the addresses that [W] covers (as in a session
    that has only the breakpoint set at [A]); an address with another
    breakpoint keeps its trap. *)
Theorem breakpoint_transparency (n : @Native P) (A : N) (W : list string) :
  (N.of_nat (length (text_of (process n))) < two64)%N →
  (A < N.of_nat (length (text_of (process n))))%N →
  (A + N.of_nat (length W) ≤ N.of_nat (length (text_of (process n))))%N →
  software_breakpoints n !! A = None →
  ∃ n1 n2 n3 n4,
    SetBreakpoint A n = (Ok tt, n1) ∧
    WriteText A W n1 = (Ok tt, n2) ∧
    ReadText A (N.of_nat (length W)) n2 = (Ok W, n3) ∧
    UnsetBreakpoint A n3 = (Ok tt, n4) ∧
    ((∀ i : nat, (0 < i < length W)%nat →
        software_breakpoints n !! (A + N.of_nat i)%N = None) →
     read_range (text_of (process n4)) A (N.of_nat (length W)) = Some W).
Proof.
  intros Hsize HA HW Hfree.
  set (text := text_of (process n)) in *.
  set (t := software_breakpoints n) in *.
  destruct (lookup_lt_is_Some_2 text (N.to_nat A)) as [w0 Hw0]; [lia|].
  (* set *)
  destruct (SetBreakpoint_effect text_of HT HM A n) as (r1 & n1 & E1 & V1 & R1).
  rewrite (R1 Hfree (ex_intro _ w0 Hw0)) in E1. clear R1.
  unfold view, effect, install_effect in V1. simpl in V1.
  fold t text in V1. rewrite Hfree in V1. simpl in V1. rewrite Hw0 in V1.
  injection V1 as T1 B1.
  set (t1 := <[A:={| data := w0; enabled := true |}]> t) in *.
  (* write *)
  assert (Hb : (A + N.of_nat (length W) < two64)%N) by lia.
  destruct (WriteText_effect text_of HT HM A W n1 Hb) as (r2 & n2 & E2 & V2 & R2).
  rewrite R2 in E2 by (rewrite T1, length_insert; fold text; lia). clear R2.
  unfold view, effect in V2. simpl in V2. rewrite T1, B1 in V2.
  destruct (write_range (<[N.to_nat A:="BKPT"]> text) A (write_words t1 A 0 W))
    as [x|] eqn:Ex.
  2:{ exfalso. unfold write_range in Ex.
      rewrite write_words_length, length_insert in Ex.
      rewrite bool_decide_eq_true_2 in Ex by (fold text; lia). done. }
  injection V2 as T2 B2.
  assert (Hx : ∀ j : nat, (j < length W)%nat →
            x !! (N.to_nat A + j)%nat =
            if bool_decide (is_Some (t1 !! (A + N.of_nat j)%N))
            then Some "BKPT" else W !! j).
  { intros j Hj. rewrite (write_range_lookup _ _ _ _ _ Ex).
    rewrite write_words_length. rewrite bool_decide_eq_true_2 by lia.
    replace (N.to_nat A + j - N.to_nat A)%nat with j by lia.
    rewrite write_words_lookup.
    destruct (lookup_lt_is_Some_2 W j Hj) as [y Hy]. rewrite Hy. simpl.
    by case_bool_decide. }
  assert (Hlen : length x = length text).
  { rewrite (write_range_length _ _ _ _ Ex). by rewrite length_insert. }
  (* read *)
  destruct (ReadText_effect text_of HT A (N.of_nat (length W)) n2)
    as (r3 & n3 & E3 & V3 & R3).
  destruct (read_range (text_of (process n2)) A (N.of_nat (length W)))
    as [ws|] eqn:Ews.
  2:{ exfalso. unfold read_range in Ews. rewrite T2, Hlen in Ews.
      rewrite bool_decide_eq_true_2 in Ews by lia. done. }
  rewrite (R3 ws) in E3 by (rewrite ?T2, ?Hlen; done). clear R3.
  assert (Hsubst : ReadText_subst (software_breakpoints n2) A ws = W).
  { apply list_eq. intros j. rewrite ReadText_subst_lookup.
    pose proof (read_range_length _ _ _ _ Ews) as Hl. rewrite Nat2N.id in Hl.
    destruct (decide (j < length W)%nat) as [Hj|Hj].
    2:{ rewrite !lookup_ge_None_2 by lia. done. }
    rewrite (read_range_lookup _ _ _ _ j Ews) by lia.
    rewrite T2, (Hx j Hj), B2, write_table_lookup.
    unfold wrap64. rewrite N.mod_small by lia.
    replace (N.of_nat j + A)%N with (A + N.of_nat j)%N by lia.
    destruct (lookup_lt_is_Some_2 W j Hj) as [y Hy].
    destruct (t1 !! (A + N.of_nat j)%N) as [bp|] eqn:Eb; simpl.
    - rewrite bool_decide_eq_true_2 by lia. simpl.
      replace (N.to_nat (A + N.of_nat j - A)) with j by lia. by rewrite Hy.
    - by rewrite Hy. }
  rewrite Hsubst in E3.
  injection V3 as T3 B3.
  (* unset *)
  destruct (UnsetBreakpoint_effect text_of HT A n3) as (r4 & n4 & E4 & V4 & R4).
  assert (Hbp : software_breakpoints n3 !! A =
                Some {| data := default w0 (W !! 0%nat); enabled := true |}).
  { rewrite B3, B2, write_table_lookup. unfold t1. rewrite lookup_insert_eq.
    simpl. rewrite N.sub_diag. change (N.to_nat 0) with 0%nat.
    case_bool_decide as Hc.
    - destruct (lookup_lt_is_Some_2 W 0%nat) as [y Hy]; [lia|]. by rewrite Hy.
    - rewrite lookup_ge_None_2 by lia. done. }
  assert (HA3 : is_Some (text_of (process n3) !! N.to_nat A)).
  { apply lookup_lt_is_Some_2. rewrite T3, T2, Hlen. lia. }
  rewrite (R4 _ Hbp HA3) in E4. clear R4.
  unfold view, effect in V4. simpl in V4. rewrite Hbp in V4. simpl in V4.
  destruct HA3 as [w3 Hw3]. rewrite Hw3 in V4. injection V4 as T4 B4.
  exists n1, n2, n3, n4. repeat split; try done.
  intros Hfree'.
  apply read_range_intro.
  { rewrite T4, length_insert, T3, T2, Hlen. done. }
  intros j Hj. rewrite T4, T3, T2.
  destruct (decide (j = 0%nat)) as [->|Hne].
  - rewrite Nat.add_0_r, list_lookup_insert_eq by (rewrite Hlen; lia).
    destruct (lookup_lt_is_Some_2 W 0%nat Hj) as [y Hy]. by rewrite Hy.
  - rewrite list_lookup_insert_ne by lia. rewrite (Hx j Hj).
    unfold t1. rewrite lookup_insert_ne by lia.
    rewrite (Hfree' j) by lia.
    rewrite bool_decide_eq_false_2 by (intros [? ?]; congruence). done.
Qed.

End Roundtrip.


(** *** The scenarios, run on the in-memory debuggee *)

Section Scenarios.
#[local] Existing Instance Debuggee.process.
#[local] Existing Instance Debuggee.arch.

Lemma Debuggee_TextMemory : @TextMemory _ _ Debuggee.process Debuggee.text.
Proof.
  split; simpl.
  - intros p. eexists. split; [reflexivity|done].
  - intros a k p ws Hr. unfold Debuggee.ReadText. rewrite Hr.
    eexists. split; [reflexivity|done].
  - intros a k p Hr. unfold Debuggee.ReadText. rewrite Hr.
    eexists _, _. split; [reflexivity|done].
  - intros a ws p x Hw. unfold Debuggee.WriteText. rewrite Hw.
    eexists. split; [reflexivity|done].
  - intros a ws p Hw. unfold Debuggee.WriteText. rewrite Hw.
    eexists _, _. split; [reflexivity|done].
Qed.

Lemma Debuggee_debug_registers (p : Debuggee.t) :
  ∃ p', Process.FetchDebugRegisters (t := Debuggee.process) p = (Ok (Debuggee.dbg p), p') ∧
        Debuggee.dbg p' = Debuggee.dbg p.
Proof. eexists. split; [reflexivity|done]. Qed.

(** On a debuggee that drops writes to its text, [SetBreakpoint] throws the
    [DebuggerError] of the failed verification and the table stays empty. *)
Lemma SetBreakpoint_atomic_witness :
  ∃ msg n',
    SetBreakpoint (proc := Debuggee.rom_process) 0
      (Debuggee.attach (Debuggee.start ["NOP"; "HALT"]))
    = (Throw (DebuggerError msg), n') ∧
    software_breakpoints n' = ∅.
Proof.
  refine (proj2 (SetBreakpoint_atomic (proc := Debuggee.rom_process) 0
                   (Debuggee.attach (Debuggee.start ["NOP"; "HALT"])))
            ["NOP"] "NOP" _ _ ["NOP"] "NOP" _ _ _ _ _ _ _ _ _);
    try reflexivity.
  discriminate.
Defined.

(** A watchpoint is set on data address 8 and removed again: the removal
    only fetches the debug registers, and register 0 still watches 8. *)
Lemma RemoveWatchpoint_leaves_debug_registers_witness :
  let n := (SetWatchpointWrite (proc := Debuggee.process) 8
              (Debuggee.attach (Debuggee.start ["NOP"; "HALT"]))).2 in
  ∃ p',
    Process.FetchDebugRegisters (t := Debuggee.process) (process n)
      = (Ok (Debuggee.dbg (process n)), p') ∧
    RemoveWatchpoint (proc := Debuggee.process) 8 n =
      (Ok tt, set_watchpoints (delete 8%N (watchpoints n)) (set_process p' n)) ∧
    Debuggee.dbg p' = Debuggee.dbg (process n).
Proof.
  intros n.
  refine (RemoveWatchpoint_leaves_debug_registers (proc := Debuggee.process)
            Debuggee.dbg Debuggee_debug_registers 8
            {| type := Write; hw_reg := 0 |} n _ _ _).
  - vm_compute. reflexivity.
  - vm_compute. reflexivity.
Defined.

(** After the removal the table is empty, yet debug register 0 of the
    debuggee is still active on address 8; the calls received are the fetch
    and the set of [SetWatchpointWrite] and one more fetch. *)
Example RemoveWatchpoint_still_armed :
  let n := (SetWatchpointWrite (proc := Debuggee.process) 8 ;;
            RemoveWatchpoint 8)
             (Debuggee.attach (Debuggee.start ["NOP"; "HALT"])) in
  n.1 = Ok tt ∧
  watchpoints n.2 = ∅ ∧
  Debuggee.dr_slots (Debuggee.dbg (process n.2)) !! 0%nat = Some (8%N, true) ∧
  Debuggee.calls (process n.2) =
    ["FetchDebugRegisters"; "SetDebugRegisters"; "FetchDebugRegisters"].
Proof. vm_compute. repeat split; reflexivity. Qed.

(** C1, the failing scenario.  The program has its own [BKPT] at address 1.
    The debuggee is stepped to address 1, a breakpoint is set there and
    execution is continued: the step over the breakpoint executes the
    program's [BKPT], [ContinueExecution] caches the [BreakpointHit] for
    address 1 (with [IP] already moved back to 1), and the
    [WaitForDebugEvent] that returns the cached event moves [IP] back once
    more: the event says 1, [IP] is 0. *)
Theorem WaitForDebugEvent_cached_hit_misaligned :
  fst ((PerformSingleStep (proc := Debuggee.process) 2 ;;
        SetBreakpoint 1 ;;
        ContinueExecution 2 ;;
        cached <- gets cached_event ;;
        event <- WaitForDebugEvent ;;
        ip <- GetIP ;;
        ret (cached, event, ip))
         (Debuggee.attach (Debuggee.start ["NOP"; "BKPT"; "HALT"])))
  = Ok (Some (BreakpointHit Software 1), BreakpointHit Software 1, 0%N).
Proof. vm_compute. reflexivity. Qed.

(** The same breakpoint on an ordinary instruction, reached by running into
    it: the event is obtained by waiting, and [IP] agrees with it. *)
Example WaitForDebugEvent_waiting_hit_aligned :
  fst ((SetBreakpoint (proc := Debuggee.process) 1 ;;
        ContinueExecution 2 ;;
        cached <- gets cached_event ;;
        event <- WaitForDebugEvent ;;
        ip <- GetIP ;;
        ret (cached, event, ip))
         (Debuggee.attach (Debuggee.start ["NOP"; "NOP"; "HALT"])))
  = Ok (None, BreakpointHit Software 1, 1%N).
Proof. vm_compute. reflexivity. Qed.

(** C2, refuted as stated: a breakpoint set on an address where the program
    has its own [BKPT] saves the trap opcode. *)
Lemma saved_opcode_can_be_trap :
  ¬ (∀ prog (n : @Native Debuggee.t) a bp,
       reachable (proc := Debuggee.process) Debuggee.text prog n →
       software_breakpoints n !! a = Some bp →
       enabled bp = true →
       data bp ≠ "BKPT").
Proof.
  intros Hclaim.
  apply (Hclaim _ _ 0%N {| data := "BKPT"; enabled := true |}
           (reachable_run (proc := Debuggee.process) Debuggee.text _ _
              (CmdSetBreakpoint 0)
              (reachable_start _ (Debuggee.attach (Debuggee.start ["BKPT"; "HALT"]))
                 eq_refl)
              I));
    reflexivity.
Qed.

(** The write that covers a disabled breakpoint, left out of the invariant:
    the word goes into the record, the trap opcode into the debuggee although
    the breakpoint is disabled, and enabling the breakpoint again saves the
    trap opcode in place of the word written. *)
Example WriteText_over_disabled_breakpoint :
  let n1 := (SetBreakpoint (proc := Debuggee.process) 0 ;;
             DisableSoftwareBreakpoint 0 ;;
             WriteText 0 ["NOP"])
              (Debuggee.attach (Debuggee.start ["MOV R0, 1"; "HALT"])) in
  let n2 := EnableSoftwareBreakpoint (proc := Debuggee.process) 0 n1.2 in
  software_breakpoints n1.2 !! 0%N = Some {| data := "NOP"; enabled := false |} ∧
  Debuggee.text (process n1.2) = ["BKPT"; "HALT"] ∧
  software_breakpoints n2.2 !! 0%N = Some {| data := "BKPT"; enabled := true |}.
Proof. vm_compute. repeat split; reflexivity. Qed.

(** A breakpoint at address 1, then two words written over addresses 0
    and 1: the record is enabled, the debuggee has the trap opcode at 1 and
    the record has the word written. *)
Lemma enabled_breakpoint_invariant_witness :
  let n := (run (proc := Debuggee.process) (CmdWriteText 0 ["NOP"; "INC R0"])
              (run (proc := Debuggee.process) (CmdSetBreakpoint 1)
                 (Debuggee.attach
                    (Debuggee.start ["MOV R0, 1"; "MOV R1, 2"; "HALT"]))).2).2 in
  Debuggee.text (process n) !! N.to_nat 1 = Some "BKPT" ∧
  ["NOP"; "INC R0"; "HALT"] !! N.to_nat 1 = Some "INC R0".
Proof.
  intros n.
  refine (enabled_breakpoint_invariant (proc := Debuggee.process)
            Debuggee.text Debuggee_TextMemory eq_refl
            ["NOP"; "INC R0"; "HALT"] n 1
            {| data := "INC R0"; enabled := true |} _ _ _).
  - refine (reachable_run (proc := Debuggee.process) Debuggee.text _ _
              (CmdWriteText 0 ["NOP"; "INC R0"])
              (reachable_run (proc := Debuggee.process) Debuggee.text _ _
                 (CmdSetBreakpoint 1)
                 (reachable_start _
                    (Debuggee.attach
                       (Debuggee.start ["MOV R0, 1"; "MOV R1, 2"; "HALT"]))
                    eq_refl) I) _).
    split; [vm_compute; reflexivity|].
    intros [|[|i]] bp Hi; [| |simpl in Hi; lia].
    + vm_compute. discriminate.
    + vm_compute. intros [= <-]. reflexivity.
  - vm_compute. reflexivity.
  - reflexivity.
Defined.

(** Address 1 of a four-word text, two words written. *)
Lemma breakpoint_transparency_witness :
  ∃ n1 n2 n3 n4,
    SetBreakpoint (proc := Debuggee.process) 1
      (Debuggee.attach (Debuggee.start ["MOV R0, 1"; "MOV R1, 2"; "NOP"; "HALT"]))
      = (Ok tt, n1) ∧
    WriteText 1 ["INC R0"; "DEC R1"] n1 = (Ok tt, n2) ∧
    ReadText 1 (N.of_nat 2) n2 = (Ok ["INC R0"; "DEC R1"], n3) ∧
    UnsetBreakpoint 1 n3 = (Ok tt, n4) ∧
    read_range (Debuggee.text (process n4)) 1 (N.of_nat 2) =
      Some ["INC R0"; "DEC R1"].
Proof.
  destruct (breakpoint_transparency (proc := Debuggee.process)
              (arch := Debuggee.arch) Debuggee.text Debuggee_TextMemory eq_refl
              (Debuggee.attach
                 (Debuggee.start ["MOV R0, 1"; "MOV R1, 2"; "NOP"; "HALT"]))
              1 ["INC R0"; "DEC R1"])
    as (n1 & n2 & n3 & n4 & H1 & H2 & H3 & H4 & H5).
  - vm_compute. reflexivity.
  - vm_compute. reflexivity.
  - vm_compute. discriminate.
  - reflexivity.
  - exists n1, n2, n3, n4. repeat split; try assumption.
    apply H5. intros i _. apply lookup_empty.
Defined.

(** With another breakpoint inside the range, the words read are still the
    words written, and after the unset that address keeps its trap. *)
Example breakpoint_transparency_second_breakpoint :
  let r := (SetBreakpoint (proc := Debuggee.process) 2 ;;
            SetBreakpoint 1 ;;
            WriteText 1 ["INC R0"; "DEC R1"] ;;
            w <- ReadText 1 2 ;;
            UnsetBreakpoint 1 ;;
            ret w)
             (Debuggee.attach
                (Debuggee.start ["MOV R0, 1"; "MOV R1, 2"; "NOP"; "HALT"])) in
  r.1 = Ok ["INC R0"; "DEC R1"] ∧
  Debuggee.text (process r.2) = ["MOV R0, 1"; "INC R0"; "BKPT"; "HALT"].
Proof. vm_compute. split; reflexivity. Qed.

End Scenarios.

End NativeProps.

(** ** Assembly parser *)

Module AsmProps.
Import Asm AsmSpec.

(** C4, the failing input.  The same three instructions, once without and
    once with a semicolon after each: the text section ends at the first
    semicolon, [Parse] returns without an error, and the program holds the
    first instruction only. *)
Theorem semicolon_ends_text_section :
  parse (".text" +:+ new_line +:+
         "MOV R0, 1" +:+ new_line +:+
         "MOV R1, 2" +:+ new_line +:+
         "HALT" +:+ new_line)
  = Ok {| t86.instructions :=
            [t86.MOV (t86.OpReg (t86.Reg 0)) (t86.OpImm 1);
             t86.MOV (t86.OpReg (t86.Reg 1)) (t86.OpImm 2);
             t86.Nullary "HALT"];
          t86.data := [] |} ∧
  parse (".text" +:+ new_line +:+
         "MOV R0, 1;" +:+ new_line +:+
         "MOV R1, 2;" +:+ new_line +:+
         "HALT;" +:+ new_line)
  = Ok {| t86.instructions :=
            [t86.MOV (t86.OpReg (t86.Reg 0)) (t86.OpImm 1)];
          t86.data := [] |}.
Proof. split; vm_compute; reflexivity. Qed.

(** C5, the failing input.  [SimpleMemory] returns from its [R + i] form
    without consuming the closing bracket; the text section ends there and
    the instructions that follow are dropped.  The form [R], next to it,
    consumes the bracket. *)
Theorem SimpleMemory_reg_plus_imm_leaves_bracket :
  parse (".text" +:+ new_line +:+
         "ADD R0, [R1 + 4]" +:+ new_line +:+
         "HALT" +:+ new_line)
  = Ok {| t86.instructions :=
            [t86.Binary "ADD" (t86.Reg 0) (t86.MemRegImm (t86.Reg 1) 4)];
          t86.data := [] |} ∧
  parse (".text" +:+ new_line +:+
         "ADD R0, [R1]" +:+ new_line +:+
         "HALT" +:+ new_line)
  = Ok {| t86.instructions :=
            [t86.Binary "ADD" (t86.Reg 0) (t86.MemReg (t86.Reg 1));
             t86.Nullary "HALT"];
          t86.data := [] |}.
Proof. split; vm_compute; reflexivity. Qed.

(** C6, the failing inputs.  A [MOV] without operands runs into the
    [UNREACHABLE] at the end of [Operand]; a [-] that no digit follows makes
    [std::stoi] throw [std::invalid_argument]; the operand [[5 + 1]] is
    refused by a [ParserError] that carries no location; and a stray
    bracket after the last instruction is not refused at all. *)
Theorem malformed_input_escapes_ParserError :
  parse ".text MOV ;" = Throw UNREACHABLE ∧
  parse ".text MOV R0, -" = Throw invalid_argument ∧
  parse ".data -" = Throw invalid_argument ∧
  parse ".text MOV R0, [" = Throw NOT_IMPLEMENTED ∧
  parse ".text MOV R0, [5 + 1]" = Throw (ParserError "Expected register name") ∧
  parse ".text NOP ]"
  = Ok {| t86.instructions := [t86.Nullary "NOP"]; t86.data := [] |}.
Proof. repeat split; vm_compute; reflexivity. Qed.

(** C7, refuted as stated: 2^31 is a 64-bit signed integer, and the literal
    is refused by [std::stoi]. *)
Lemma data_literal_above_int_refused :
  parse ".data 2147483648" = Throw out_of_range.
Proof. vm_compute. reflexivity. Qed.

Lemma isdigit_cases (c : ascii) :
  isdigit c = true →
  c ∈ ["0"; "1"; "2"; "3"; "4"; "5"; "6"; "7"; "8"; "9"]%char.
Proof.
  destruct c as [[] [] [] [] [] [] [] []]; vm_compute; intros H;
    try discriminate; set_solver.
Qed.

Lemma i32_small (z : Z) : (INT_MIN ≤ z ≤ INT_MAX)%Z → i32 z = z.
Proof.
  unfold INT_MIN, INT_MAX, i32. intros H.
  rewrite Z.mod_small by lia. lia.
Qed.

Lemma digit_value_bounds c : isdigit c = true → (0 ≤ digit_value c ≤ 9)%Z.
Proof.
  intros H. apply isdigit_cases in H.
  repeat (apply elem_of_cons in H as [->|H]; [vm_compute; split; discriminate|]).
  by apply elem_of_nil in H.
Qed.

Lemma digits_value_mono ds : ∀ acc,
  forallb isdigit ds = true → (0 ≤ acc)%Z → (acc ≤ digits_value acc ds)%Z.
Proof.
  induction ds as [|d ds IH]; intros acc Hd Hacc; simpl; [lia|].
  simpl in Hd. apply andb_prop in Hd as [Hd Hds]. rewrite Hd.
  pose proof (digit_value_bounds d Hd).
  etransitivity; [|apply IH; [done|lia]]. lia.
Qed.

Lemma digit_is_ordinary c :
  isdigit c = true →
  isspace c = false ∧
  (∀ d, isdigit d = false → is_char c d = false).
Proof.
  intros H. split.
  - apply isdigit_cases in H.
    repeat (apply elem_of_cons in H as [->|H]; [reflexivity|]).
    by apply elem_of_nil in H.
  - intros d Hd. unfold is_char. apply bool_decide_eq_false. intros ->.
    congruence.
Qed.

Lemma append_cons c (s t : string) : String c s +:+ t = String c (s +:+ t).
Proof. reflexivity. Qed.

Lemma append_nil (t : string) : "" +:+ t = t.
Proof. reflexivity. Qed.

Lemma list_ascii_of_string_app s1 s2 :
  String.list_ascii_of_string (s1 +:+ s2) =
  (String.list_ascii_of_string s1 ++ String.list_ascii_of_string s2)%list.
Proof.
  induction s1 as [|c s1 IH]; [done|].
  rewrite append_cons. simpl. by rewrite IH.
Qed.

Lemma stoi_digits c ds :
  isdigit c = true →
  forallb isdigit ds = true →
  (digits_value 0 (c :: ds) ≤ INT_MAX)%Z →
  stoi (String c (String.string_of_list_ascii ds)) = Ok (digits_value 0 (c :: ds)).
Proof.
  intros Hc Hds Hmax.
  destruct (digit_is_ordinary c Hc) as [Hsp Hne].
  unfold stoi. cbn [String.list_ascii_of_string skip_spaces]. rewrite Hsp.
  unfold split_sign. rewrite !Hne by reflexivity.
  rewrite String.list_ascii_of_string_of_list_ascii. rewrite Hc.
  rewrite Z.mul_1_l.
  assert (0 ≤ digits_value 0 (c :: ds))%Z.
  { apply digits_value_mono; [|lia]. simpl. by rewrite Hc, Hds. }
  assert (Hr : ((INT_MIN <=? digits_value 0 (c :: ds))%Z &&
          (digits_value 0 (c :: ds) <=? INT_MAX)%Z) = true).
  { apply andb_true_intro. split; [apply Z.leb_le|apply Z.leb_le];
      unfold INT_MIN in *; lia. }
  by rewrite Hr.
Qed.

Lemma GetChar_spec (l : Lexer.t) :
  ∃ l', Lexer.GetChar l = (Ok (Lexer.stream_get (Lexer.input l)).1, l') ∧
        Lexer.lookahead l' = (Lexer.stream_get (Lexer.input l)).1 ∧
        Lexer.input l' = (Lexer.stream_get (Lexer.input l)).2 ∧
        moved l l'.
Proof.
  unfold Lexer.GetChar.
  destruct (if is_char (Lexer.lookahead l) "010"
            then (wrap64 (Lexer.row l + 1), 0%N)
            else (Lexer.row l, wrap64 (Lexer.col l + 1))) as [r c].
  destruct (Lexer.stream_get (Lexer.input l)) as [la s'].
  eexists. split; [reflexivity|]. simpl. unfold moved. simpl. tauto.
Qed.

Lemma moved_trans l1 l2 l3 : moved l1 l2 → moved l2 l3 → moved l1 l3.
Proof. unfold moved. intros (?&?&?&?&?&?) (?&?&?&?&?&?). repeat split; congruence. Qed.

Lemma push_back_digits num d ds :
  push_back num d +:+ String.string_of_list_ascii ds =
  num +:+ String d (String.string_of_list_ascii ds).
Proof.
  unfold push_back. induction num as [|c num IH]; [done|].
  rewrite !append_cons. by rewrite IH.
Qed.

Lemma append_empty_r (s : string) : s +:+ "" = s.
Proof. induction s as [|c s IH]; [done|]. rewrite append_cons. by rewrite IH. Qed.

Lemma ParseNumber_loop_digits ds rest : ∀ fuel num (l : Lexer.t),
  forallb isdigit ds = true →
  stops rest →
  (length ds < fuel)%nat →
  Lexer.input l = (ds ++ rest)%list →
  ∃ l',
    Lexer.ParseNumber_loop fuel num false l =
      (Ok (num +:+ String.string_of_list_ascii ds, false), l') ∧
    positioned rest l' ∧
    moved l l'.
Proof.
  induction ds as [|d ds IH]; intros fuel num l Hds Hstop Hfuel Hin.
  - destruct fuel as [|fuel]; [simpl in Hfuel; lia|].
    destruct (GetChar_spec l) as (l' & Hg & Hla & Hi & Hm).
    rewrite Hin in *. cbn [app] in *.
    exists l'. cbn [Lexer.ParseNumber_loop]. unfold bind. rewrite Hg.
    assert (Hr : is_char (Lexer.stream_get rest).1 "." = false ∧
                 isdigit (Lexer.stream_get rest).1 = false).
    { destruct rest as [|r rest]; [done|]. simpl in *. tauto. }
    destruct Hr as [-> ->]. simpl. unfold ret.
    rewrite append_empty_r. done.
  - destruct fuel as [|fuel]; [simpl in Hfuel; lia|].
    simpl in Hds. apply andb_prop in Hds as [Hd Hds].
    destruct (digit_is_ordinary d Hd) as [_ Hne].
    destruct (GetChar_spec l) as (l1 & Hg & Hla & Hi & Hm).
    rewrite Hin in *. simpl in Hg, Hla, Hi.
    destruct (IH fuel (push_back num d) l1 Hds Hstop
                ltac:(simpl in Hfuel; lia) Hi)
      as (l' & Hloop & Hpos & Hm').
    exists l'. cbn [Lexer.ParseNumber_loop]. unfold bind at 1. rewrite Hg.
    rewrite (Hne "."%char eq_refl), Hd. simpl.
    rewrite Hloop, push_back_digits. simpl.
    split; [done|]. split; [done|]. by eapply moved_trans.
Qed.

(** The lexer is about to read the literal [x], which [rest] follows. *)
Lemma ParseNumber_literal x rest (l : Lexer.t) fuel :
  within_int x →
  stops rest →
  (length (digits x) < fuel)%nat →
  positioned (literal_chars x ++ rest) l →
  ∃ l',
    Lexer.ParseNumber fuel l = (Ok NUM, l') ∧
    Lexer.number l' = literal_value x ∧
    positioned rest l' ∧
    Lexer.tok_begin_row l' = Lexer.tok_begin_row l ∧
    Lexer.tok_begin_col l' = Lexer.tok_begin_col l.
Proof.
  intros (Hc & Hds & Hmax) Hstop Hfuel [Hla Hin].
  destruct x as [neg c ds]. unfold literal_chars, magnitude in *.
  cbn [minus digit0 digits] in *.
  assert (Hpos : (0 ≤ digits_value 0 (c :: ds))%Z).
  { apply digits_value_mono; [|lia]. simpl. by rewrite Hc, Hds. }
  destruct (digit_is_ordinary c Hc) as [_ Hne].
  unfold literal_value, magnitude. cbn [minus digit0 digits].
  set (v := digits_value 0 (c :: ds)) in *.
  unfold Lexer.ParseNumber. unfold bind at 1, get at 1.
  destruct neg; simpl in Hla, Hin.
  - rewrite Hla. change (is_char "-" "-") with true. cbn [Z.eqb Pos.eqb].
    destruct (GetChar_spec l) as (l1 & Hg & Hla1 & Hin1 & Hm1).
    rewrite Hin in Hg, Hla1, Hin1. simpl in Hg, Hla1, Hin1.
    unfold bind at 1. unfold bind at 1. rewrite Hg. unfold ret at 1.
    unfold bind at 1, get at 1. rewrite Hla1.
    destruct (ParseNumber_loop_digits ds rest fuel (String c "") l1
                Hds Hstop Hfuel Hin1)
      as (l2 & Hloop & Hpos2 & Hm2).
    unfold bind at 1. rewrite Hloop.
    change (String c "" +:+ String.string_of_list_ascii ds)
      with (String c (String.string_of_list_ascii ds)).
    rewrite (stoi_digits c ds Hc Hds Hmax). fold v.
    unfold bind, lift_outcome, modify, ret. simpl.
    eexists. split; [reflexivity|]. simpl.
    destruct Hm1 as (?&?&?), Hm2 as (?&?&?).
    split; [|split; [exact Hpos2|split; congruence]].
    apply i32_small. unfold INT_MIN, INT_MAX in *. lia.
  - rewrite Hla. rewrite (Hne "-"%char eq_refl). cbn [Z.eqb].
    unfold bind at 1, ret at 1. unfold bind at 1, get at 1. rewrite Hla.
    destruct (ParseNumber_loop_digits ds rest fuel (String c "") l
                Hds Hstop Hfuel Hin)
      as (l2 & Hloop & Hpos2 & Hm2).
    unfold bind at 1. rewrite Hloop.
    change (String c "" +:+ String.string_of_list_ascii ds)
      with (String c (String.string_of_list_ascii ds)).
    rewrite (stoi_digits c ds Hc Hds Hmax). fold v.
    unfold bind, lift_outcome, modify, ret. simpl.
    eexists. split; [reflexivity|]. simpl.
    destruct Hm2 as (?&?&?).
    split; [|split; [exact Hpos2|split; congruence]].
    replace (1 * v)%Z with v by lia. apply i32_small.
    unfold INT_MIN, INT_MAX in *. lia.
Qed.

Lemma literal_start_ordinary c :
  isdigit c || is_char c "-" = true →
  isspace c = false ∧
  (∀ d, d ∈ ["#"; EOF; ";"; ","; "["; "]"; "+"; "*"; "."; "034"]%char →
        is_char c d = false).
Proof.
  intros H. apply orb_prop in H as [H|H].
  - destruct (digit_is_ordinary c H) as [Hsp Hne]. split; [done|].
    intros d Hd. apply Hne.
    repeat (apply elem_of_cons in Hd as [->|Hd]; [reflexivity|]).
    by apply elem_of_nil in Hd.
  - apply bool_decide_eq_true in H as ->. split; [reflexivity|].
    intros d Hd.
    repeat (apply elem_of_cons in Hd as [->|Hd]; [reflexivity|]).
    by apply elem_of_nil in Hd.
Qed.

Lemma getNext_literal x rest (l : Lexer.t) fuel :
  within_int x →
  stops rest →
  (length (digits x) < fuel)%nat →
  positioned (literal_chars x ++ rest) l →
  ∃ l',
    Lexer.getNext (S fuel) l =
      (Ok {| kind := NUM; row := Lexer.row l; col := Lexer.col l |}, l') ∧
    Lexer.number l' = literal_value x ∧
    positioned rest l'.
Proof.
  intros Hx Hstop Hfuel Hat.
  assert (Hstart : isdigit (Lexer.lookahead l) || is_char (Lexer.lookahead l) "-" = true).
  { destruct Hat as [-> _], Hx as [Hc _]. unfold literal_chars.
    destruct (minus x); simpl; [reflexivity|]. by rewrite Hc. }
  destruct (literal_start_ordinary _ Hstart) as [Hsp Hne].
  cbn [Lexer.getNext]. unfold bind at 1, get at 1.
  rewrite (Hne "#"%char), Hsp by set_solver.
  unfold Lexer.RecordTokLoc. unfold bind at 1, modify at 1.
  rewrite (Hne EOF), (Hne ";"%char), (Hne ","%char), (Hne "["%char),
    (Hne "]"%char), (Hne "+"%char), (Hne "*"%char), (Hne "."%char),
    (Hne "034"%char), Hstart by set_solver.
  set (l0 := {| Lexer.input := Lexer.input l; Lexer.lookahead := Lexer.lookahead l;
                Lexer.row := Lexer.row l; Lexer.col := Lexer.col l;
                Lexer.tok_begin_row := Lexer.row l;
                Lexer.tok_begin_col := Lexer.col l;
                Lexer.number := Lexer.number l;
                Lexer.float_number := Lexer.float_number l;
                Lexer.id := Lexer.id l; Lexer.str := Lexer.str l |}).
  assert (Hat0 : positioned (literal_chars x ++ rest) l0) by exact Hat.
  destruct (ParseNumber_literal x rest l0 fuel Hx Hstop Hfuel Hat0)
    as (l' & Hp & Hn & Hpos & Hr & Hcl).
  unfold bind at 1. rewrite Hp.
  unfold Lexer.MakeToken, bind, get, ret. rewrite Hr, Hcl. simpl.
  eexists. split; [reflexivity|]. done.
Qed.

(** One space, then the literal. *)
Lemma getNext_spaced_literal x rest (l : Lexer.t) :
  within_int x →
  stops rest →
  positioned (" "%char :: literal_chars x ++ rest) l →
  ∃ tok l',
    Lexer.getNext (3 + length (Lexer.input l)) l = (Ok tok, l') ∧
    kind tok = NUM ∧
    Lexer.number l' = literal_value x ∧
    positioned rest l'.
Proof.
  intros Hx Hstop [Hla Hin]. simpl in Hla, Hin.
  cbn [Nat.add]. cbn [Lexer.getNext]. unfold bind at 1, get at 1. rewrite Hla.
  change (is_char " " "#") with false. change (isspace " ") with true.
  cbv iota.
  destruct (GetChar_spec l) as (l1 & Hg & Hla1 & Hin1 & _).
  unfold bind at 1. rewrite Hg.
  assert (Hat : positioned (literal_chars x ++ rest) l1).
  { split; [by rewrite Hla1, Hin|by rewrite Hin1, Hin]. }
  assert (Hlen : (length (digits x) < S (length (Lexer.input l)))%nat).
  { rewrite Hin, length_app. unfold literal_chars. rewrite length_app.
    simpl. lia. }
  destruct (getNext_literal x rest l1 (S (length (Lexer.input l)))
              Hx Hstop Hlen Hat)
    as (l' & Hn & Hv & Hpos).
  eexists _, l'. split; [exact Hn|]. done.
Qed.

Lemma getNext_end (l : Lexer.t) fuel :
  positioned [] l →
  ∃ l',
    Lexer.getNext (S fuel) l =
      (Ok {| kind := END; row := Lexer.row l; col := Lexer.col l |}, l') ∧
    positioned [] l'.
Proof.
  intros [Hla Hin]. simpl in Hla, Hin.
  cbn [Lexer.getNext]. unfold bind at 1, get at 1. rewrite Hla.
  change (is_char EOF "#") with false. change (isspace EOF) with false.
  change (is_char EOF EOF) with true. cbv iota.
  unfold Lexer.RecordTokLoc, Lexer.MakeToken, bind, modify, get, ret. simpl.
  eexists. split; [reflexivity|]. done.
Qed.

(** The parser right after the name of the data section: the lexer has
    read [.data] and stands on the space that follows. *)
Lemma data_section_prefix (tl : list ascii) :
  ∃ p,
    Parser.make ("." :: "d" :: "a" :: "t" :: "a" :: " " :: tl)%char
      = (Ok p, p) ∧
    kind (Parser.curtok p) = DOT ∧
    ∃ p1,
      Parser.GetNextPrev p = (Ok DOT, p1) ∧
      kind (Parser.curtok p1) = ID ∧
      Lexer.id (Parser.lex p1) = "data" ∧
      positioned (" "%char :: tl) (Parser.lex p1) ∧
      Parser.program p1 = [] ∧
      Parser.data p1 = [].
Proof.
  eexists. split; [vm_compute; reflexivity|]. split; [reflexivity|].
  eexists. split; [vm_compute; reflexivity|]. repeat split; reflexivity.
Qed.

Lemma Parser_GetNext_lex (p : Parser.t) tok l' :
  Lexer.getNext (Parser.lexer_fuel p) (Parser.lex p) = (Ok tok, l') →
  Parser.GetNext p = (Ok (kind tok), Parser.set_curtok tok (Parser.set_lex l' p)).
Proof.
  intros H. unfold Parser.GetNext, Parser.lex_getNext, Parser.lexer.
  unfold bind, get, modify, ret. by rewrite H.
Qed.

Lemma Parser_GetNextPrev_lex (p : Parser.t) tok l' :
  Lexer.getNext (Parser.lexer_fuel p) (Parser.lex p) = (Ok tok, l') →
  Parser.GetNextPrev p =
    (Ok (kind (Parser.curtok p)), Parser.set_curtok tok (Parser.set_lex l' p)).
Proof.
  intros H. unfold Parser.GetNextPrev, Parser.lex_getNext, Parser.lexer.
  unfold bind, get, gets, modify, ret. by rewrite H.
Qed.

Lemma data_chars_stops xs : stops (data_chars xs).
Proof. destruct xs as [|x xs]; simpl; [done|]. split; reflexivity. Qed.

Lemma data_chars_length xs : (length xs ≤ length (data_chars xs))%nat.
Proof.
  induction xs as [|x xs IH]; simpl; [lia|]. rewrite length_app. lia.
Qed.

(** The loop of [Data] on a parser whose current token is a number [v] and
    whose lexer stands before the literals [xs]: [v] and the values of [xs]
    are appended. *)
Lemma Data_literals xs : ∀ (p : Parser.t) fuel,
  Forall within_int xs →
  kind (Parser.curtok p) = NUM →
  positioned (data_chars xs) (Parser.lex p) →
  (S (length xs) < fuel)%nat →
  ∃ p',
    Parser.Data fuel p = (Ok tt, p') ∧
    Parser.data p' =
      (Parser.data p ++ Lexer.number (Parser.lex p) :: (literal_value <$> xs))%list ∧
    Parser.program p' = Parser.program p ∧
    kind (Parser.curtok p') = END ∧
    positioned [] (Parser.lex p').
Proof.
  induction xs as [|x xs IH]; intros p fuel Hxs Hk Hpos Hfuel.
  - destruct fuel as [|[|fuel]]; [simpl in Hfuel; lia..|].
    cbn [Parser.Data]. unfold bind at 1, Parser.curkind at 1, gets at 1.
    rewrite Hk. rewrite bool_decide_eq_false_2 by discriminate.
    rewrite bool_decide_eq_true_2 by done.
    unfold bind at 1, Parser.getNumber at 1, gets at 1.
    unfold bind at 1, modify at 1.
    set (p2 := Parser.push_data _ p).
    destruct (getNext_end (Parser.lex p2)
                (2 + length (Lexer.input (Parser.lex p2))) Hpos)
      as (l3 & Hget3 & Hpos3).
    unfold bind at 1. rewrite (Parser_GetNext_lex p2 _ l3 Hget3).
    unfold bind at 1, Parser.curkind at 1, gets at 1.
    cbn [Parser.curtok Parser.set_curtok kind].
    rewrite !bool_decide_eq_false_2 by discriminate.
    unfold ret. eexists. split; [reflexivity|].
    cbn [Parser.data Parser.program Parser.curtok Parser.lex
         Parser.set_curtok Parser.set_lex Parser.push_data p2 kind].
    done.
  - destruct fuel as [|fuel]; [simpl in Hfuel; lia|].
    apply Forall_cons in Hxs as [Hx Hxs].
    cbn [Parser.Data]. unfold bind at 1, Parser.curkind at 1, gets at 1.
    rewrite Hk. rewrite bool_decide_eq_false_2 by discriminate.
    rewrite bool_decide_eq_true_2 by done.
    unfold bind at 1, Parser.getNumber at 1, gets at 1.
    unfold bind at 1, modify at 1.
    set (p2 := Parser.push_data _ p).
    destruct (getNext_spaced_literal x (data_chars xs) (Parser.lex p2)
                Hx (data_chars_stops xs) Hpos)
      as (tok & l3 & Hget3 & Hkt & Hnum & Hpos3).
    unfold bind at 1. rewrite (Parser_GetNext_lex p2 tok l3 Hget3).
    set (p3 := Parser.set_curtok tok (Parser.set_lex l3 p2)).
    destruct (IH p3 fuel Hxs Hkt Hpos3 ltac:(simpl in Hfuel; lia))
      as (p' & HD & Hdata & Hprog & Hend & Hpos').
    rewrite HD. exists p'. split; [done|].
    rewrite Hdata, Hprog.
    cbn [Parser.data Parser.program Parser.lex Parser.set_curtok
         Parser.set_lex Parser.push_data p3 p2].
    rewrite Hnum, <- app_assoc. done.
Qed.

(** C7, as the code has it.  In a data section of decimal literals, each
    with or without a minus sign and with a magnitude of at most 2^31 - 1,
    every literal is accepted, and the values are appended to the data
    section in order, as 64-bit signed words. *)
Theorem data_literals_within_int (xs : list decimal) :
  Forall within_int xs →
  parse (".data" +:+ data_text xs) =
    Ok {| t86.instructions := []; t86.data := literal_value <$> xs |}.
Proof.
  intros Hxs. destruct xs as [|x xs]; [vm_compute; reflexivity|].
  apply Forall_cons in Hxs as [Hx Hxs].
  unfold parse. rewrite list_ascii_of_string_app. unfold data_text.
  rewrite String.list_ascii_of_string_of_list_ascii.
  change (String.list_ascii_of_string ".data")
    with ["."; "d"; "a"; "t"; "a"]%char.
  cbn [data_chars app].
  set (tl := (literal_chars x ++ data_chars xs)%list).
  destruct (data_section_prefix tl)
    as (p & Hmake & Hk & p1 & Hprev & Hk1 & Hid & Hpos1 & Hprog & Hdata).
  rewrite Hmake. cbn [length Nat.add].
  (* Parse: the dot, then the section *)
  unfold Parser.Parse. unfold bind at 1, Parser.curkind at 1, gets at 1.
  rewrite Hk. rewrite bool_decide_eq_false_2 by (intros H; by apply H).
  unfold bind at 1. cbn [Parser.Parse_loop]. unfold bind at 1.
  rewrite Hprev. rewrite bool_decide_eq_true_2 by done.
  unfold bind at 1.
  (* Section: the name, then the token of the first literal *)
  unfold Parser.Section. unfold bind at 1, Parser.curkind at 1, gets at 1.
  rewrite Hk1. unfold Parser.ExpectTok.
  rewrite bool_decide_eq_false_2 by (intros H; by apply H).
  unfold bind at 1, ret at 1.
  unfold bind at 1, Parser.getId at 1, gets at 1. rewrite Hid.
  destruct (getNext_spaced_literal x (data_chars xs) (Parser.lex p1)
              Hx (data_chars_stops xs) Hpos1)
    as (tok & l2 & Hget & Hkt & Hnum & Hpos2).
  unfold bind at 1. rewrite (Parser_GetNext_lex p1 tok l2 Hget).
  change (bool_decide ("data" = "text")) with false.
  change (bool_decide ("data" = "data")) with true. cbv iota.
  (* Data: the literals *)
  set (p2 := Parser.set_curtok tok (Parser.set_lex l2 p1)).
  assert (Hlen : (length xs ≤ length tl)%nat).
  { pose proof (data_chars_length xs). unfold tl. rewrite length_app. lia. }
  match goal with
  | |- context [Parser.Data ?f p2] =>
      destruct (Data_literals xs p2 f Hxs Hkt Hpos2 ltac:(lia))
        as (p3 & HD & Hdata3 & Hprog3 & Hend3 & Hpos3)
  end.
  rewrite HD.
  (* Parse: no further section *)
  destruct (getNext_end (Parser.lex p3)
              (2 + length (Lexer.input (Parser.lex p3))) Hpos3)
    as (l4 & Hget4 & _).
  cbn [Parser.Parse_loop]. unfold bind at 1.
  rewrite (Parser_GetNextPrev_lex p3 _ l4 Hget4). rewrite Hend3.
  rewrite bool_decide_eq_false_2 by discriminate.
  unfold ret at 1. unfold bind, get, ret. cbn [fst].
  cbn [Parser.program Parser.data Parser.set_curtok Parser.set_lex].
  rewrite Hprog3, Hdata3.
  cbn [Parser.program Parser.data Parser.lex Parser.set_curtok Parser.set_lex p2].
  rewrite Hprog, Hdata, Hnum. reflexivity.
Qed.

(** The largest literal accepted, with and without a minus sign. *)
Lemma data_literals_within_int_witness :
  let max := {| minus := false; digit0 := "2";
                digits := ["1"; "4"; "7"; "4"; "8"; "3"; "6"; "4"; "7"]%char |} in
  let min := {| minus := true; digit0 := "2";
                digits := ["1"; "4"; "7"; "4"; "8"; "3"; "6"; "4"; "7"]%char |} in
  Forall within_int [max; min] ∧
  parse ".data 2147483647 -2147483647" =
    Ok {| t86.instructions := [];
          t86.data := [2147483647; -2147483647]%Z |}.
Proof.
  intros max min.
  assert (H : Forall within_int [max; min]).
  { repeat constructor; vm_compute; discriminate. }
  split; [exact H|].
  exact (data_literals_within_int [max; min] H).
Defined.

End AsmProps.

(** ** Type reconstruction *)

Module SourceProps.
Import Source.

Section Cycle.
Variable ToPrimitiveType : string → option PrimitiveKind.

(** C8. Type reconstruction with a cycle.  In a DIE tree where the DIE of
    id [sid] is a structured type with a name, a size and one member whose
    type is [pid], and the DIE of id [pid] is a pointer type with a size
    whose target is [sid], [ReconstructTypeInformation sid] on a [Source]
    that has neither id in its cache returns, for every fuel from 2 on, the
    [StructuredType] with that one member, of [PointerType] with type index
    [sid]. *)
Theorem ReconstructTypeInformation_linked_list
    (s : Source) (top sdie pdie : DIE) (sid pid : N)
    (sname mname : string) (ssize psize : N) (moffset : Z) (fuel : nat) :
  top_die s = Some top →
  cached_types s !! sid = None →
  cached_types s !! pid = None →
  FindDIEById top sid = Some sdie →
  get_tag sdie = structured_type →
  FindDieAttribute sel_name sdie = Some sname →
  FindDieAttribute sel_size sdie = Some ssize →
  FindDieAttribute sel_members sdie =
    Some [{| member_name := mname; member_type_id := pid;
             member_offset := moffset |}] →
  FindDIEById top pid = Some pdie →
  get_tag pdie = pointer_type →
  FindDieAttribute sel_type pdie = Some sid →
  FindDieAttribute sel_size pdie = Some psize →
  (ReconstructTypeInformation ToPrimitiveType (S (S fuel)) sid s).1 =
    Ok (Some (StructuredType sname ssize
                (Some [MakeStructuredMember mname
                         (Some (PointerType sid sname psize)) moffset]))).
Proof.
  intros Htop Hcs Hcp Hs Hst Hsn Hss Hsm Hp Hpt Hpty Hps.
  cbn [ReconstructTypeInformation].
  unfold bind at 1, gets at 1. rewrite Hcs.
  unfold bind at 1, gets at 1. rewrite Htop, Hs, Hst, Hsn, Hss, Hsm.
  cbn [transform member_type_id member_name member_offset].
  unfold bind at 1. unfold bind at 1. unfold bind at 1.
  unfold bind at 1, gets at 1. rewrite Hcp.
  unfold bind at 1, gets at 1. rewrite Htop, Hp, Hpt, Hpty, Hps, Hs, Hsn.
  reflexivity.
Qed.

End Cycle.

(** A list node: [struct node { node* next; }]. *)
Lemma ReconstructTypeInformation_linked_list_witness :
  let node :=
    MakeDIE structured_type
      [ATTR_id 1; ATTR_name "node"; ATTR_size 1;
       ATTR_members [{| member_name := "next"; member_type_id := 2;
                        member_offset := 0 |}]] [] in
  let node_ptr :=
    MakeDIE pointer_type [ATTR_id 2; ATTR_type 1; ATTR_size 1] [] in
  let s := {| top_die := Some (MakeDIE compile_unit [] [node; node_ptr]);
              cached_types := ∅ |} in
  (ReconstructTypeInformation (λ _, Some SIGNED) 2 1 s).1 =
    Ok (Some (StructuredType "node" 1
                (Some [MakeStructuredMember "next"
                         (Some (PointerType 1 "node" 1)) 0]))).
Proof.
  intros node node_ptr s.
  apply (ReconstructTypeInformation_linked_list (λ _, Some SIGNED) s
           (MakeDIE compile_unit [] [node; node_ptr]) node node_ptr 1 2
           "node" "next" 1 1 0 0); reflexivity.
Defined.


(** A structure that contains itself by value, not through a pointer: the
    recursion on the member never ends, whatever the fuel. *)
Example ReconstructTypeInformation_by_value_diverges (fuel : nat) :
  let node :=
    MakeDIE structured_type
      [ATTR_id 1; ATTR_name "node"; ATTR_size 1;
       ATTR_members [{| member_name := "self"; member_type_id := 1;
                        member_offset := 0 |}]] [] in
  let s := {| top_die := Some (MakeDIE compile_unit [] [node]);
              cached_types := ∅ |} in
  ReconstructTypeInformation (λ _, None) fuel 1 s = (OutOfFuel, s).
Proof.
  intros node s. induction fuel as [|fuel IH]; [reflexivity|].
  cbn [ReconstructTypeInformation]. unfold bind at 1, gets at 1.
  change (cached_types s !! 1%N) with (@None Type_).
  unfold bind at 1, gets at 1. cbn [top_die s].
  change (FindDIEById (MakeDIE compile_unit [] [node]) 1) with (Some node).
  cbn [get_tag node FindDieAttribute attributes find_attribute sel_name
       sel_size sel_members transform member_type_id].
  unfold bind. rewrite IH. reflexivity.
Qed.

End SourceProps.

(** ** Further properties of the control layer *)

Module NativeMore.
Import Native NativeSpec NativeLaws NativeProps.

Section Breakpoints.
Context {P D : Type} {proc : Process.t P D} {arch : Arch.t D}.
Variable text_of : P → list string.
Hypothesis HT : TextMemory text_of.
Hypothesis HM : Arch.GetMachine = Arch.T86.

(** X1. Setting a breakpoint on an address inside the text that has none and
    unsetting it again both succeed and leave the text of the debuggee and
    the breakpoint table as they were. *)
Theorem SetBreakpoint_UnsetBreakpoint_restores (n : @Native P) (A : N) :
  (A < N.of_nat (length (text_of (process n))))%N →
  software_breakpoints n !! A = None →
  ∃ n1 n2,
    SetBreakpoint A n = (Ok tt, n1) ∧
    UnsetBreakpoint A n1 = (Ok tt, n2) ∧
    text_of (process n2) = text_of (process n) ∧
    software_breakpoints n2 = software_breakpoints n.
Proof.
  intros HA Hnone.
  destruct (lookup_lt_is_Some_2 (text_of (process n)) (N.to_nat A)) as [w Hw];
    [lia|].
  destruct (SetBreakpoint_effect text_of HT HM A n) as (r1 & n1 & E1 & V1 & Ok1).
  rewrite Ok1 in E1 by (rewrite ?Hw; eauto).
  unfold view in V1. simpl in V1. rewrite Hnone in V1.
  unfold install_effect in V1. simpl in V1. rewrite Hw in V1.
  injection V1 as T1 B1.
  destruct (UnsetBreakpoint_effect text_of HT A n1) as (r2 & n2 & E2 & V2 & Ok2).
  assert (Hin : is_Some (text_of (process n1) !! N.to_nat A)).
  { rewrite T1. apply lookup_lt_is_Some. rewrite length_insert. lia. }
  rewrite (Ok2 {| data := w; enabled := true |}) in E2
    by (rewrite ?B1, ?lookup_insert_eq; auto).
  unfold view in V2. simpl in V2. rewrite B1, lookup_insert_eq in V2. simpl in V2.
  destruct Hin as [x Hx]. rewrite Hx in V2. injection V2 as T2 B2.
  exists n1, n2. repeat split; auto.
  - rewrite T2, T1, list_insert_insert_eq. apply list_insert_id. exact Hw.
  - rewrite B2, delete_insert_eq. apply delete_id. exact Hnone.
Qed.

(** X2. An enabled breakpoint whose trap is in the debuggee can be disabled and
    enabled again: both calls succeed, in between the debuggee holds the
    saved instruction at the address, and afterwards the text and the table
    are as they were. *)
Theorem Disable_Enable_restores (n : @Native P) (A : N) (bp : SoftwareBreakpoint) :
  software_breakpoints n !! A = Some bp →
  enabled bp = true →
  text_of (process n) !! N.to_nat A = Some "BKPT" →
  ∃ n1 n2,
    DisableSoftwareBreakpoint A n = (Ok tt, n1) ∧
    text_of (process n1) !! N.to_nat A = Some (data bp) ∧
    EnableSoftwareBreakpoint A n1 = (Ok tt, n2) ∧
    text_of (process n2) = text_of (process n) ∧
    software_breakpoints n2 = software_breakpoints n.
Proof.
  intros Hbp Hen Htext.
  destruct (DisableSoftwareBreakpoint_effect text_of HT A n)
    as (r1 & n1 & E1 & V1 & Ok1).
  rewrite Hbp, Hen, Htext in Ok1. subst r1.
  unfold view in V1. simpl in V1. rewrite Hbp, Hen, Htext in V1.
  injection V1 as T1 B1.
  assert (Hin : text_of (process n1) !! N.to_nat A = Some (data bp)).
  { rewrite T1. apply list_lookup_insert_eq. eapply lookup_lt_Some; eauto. }
  destruct (CreateSoftwareBreakpoint_effect text_of HT HM A n1)
    as (r & n2 & E2 & B2 & H2).
  rewrite Hin in H2. destruct H2 as [-> T2].
  exists n1. eexists. split; [exact E1|]. split; [exact Hin|].
  split.
  { unfold EnableSoftwareBreakpoint.
    unfold bind at 1, gets at 1. rewrite B1, lookup_insert_eq. cbn [enabled negb].
    unfold bind at 1. rewrite E2. unfold modify. reflexivity. }
  cbn [process software_breakpoints set_software_breakpoints]. split.
  - rewrite T2, T1, list_insert_insert_eq. apply list_insert_id. exact Htext.
  - rewrite B2, B1, insert_insert_eq. apply insert_id.
    rewrite Hbp. f_equal. destruct bp. simpl in *. congruence.
Qed.

(** X3. In a state reached by regular operations [ReadText] shows the program:
    whatever breakpoints are set or enabled, reading a window inside the
    text returns the words of the program, and changes neither the text of
    the debuggee nor the table. *)
Theorem ReadText_shows_program (prog : list string) (n : @Native P)
    (a k : N) (ws : list string) :
  reachable text_of prog n →
  (N.of_nat (length prog) < two64)%N →
  read_range prog a k = Some ws →
  ∃ n', ReadText a k n = (Ok ws, n') ∧ view text_of n' = view text_of n.
Proof.
  intros Hr Hlt Hws.
  pose proof (reachable_transparent text_of HT HM prog n Hr) as Ht.
  unfold transparent, view in Ht.
  pose proof (transparent_view_length _ _ _ Ht) as Hlen.
  pose proof (read_range_Some_bound _ _ _ _ Hws) as Hb.
  pose proof (read_range_length _ _ _ _ Hws) as Hl.
  set (text := text_of (process n)) in *.
  assert (Hws0 : read_range text a k = Some (take (N.to_nat k) (drop (N.to_nat a) text))).
  { unfold read_range. rewrite bool_decide_eq_true_2 by lia. reflexivity. }
  destruct (ReadText_effect text_of HT a k n) as (r & n' & E & V & Hok).
  specialize (Hok _ ltac:(fold text; lia) Hws0). subst r.
  exists n'. split; [|exact V]. rewrite E. f_equal. f_equal.
  apply list_eq. intros j. rewrite ReadText_subst_lookup.
  destruct (decide (j < N.to_nat k)%nat) as [Hj|Hj].
  - rewrite (read_range_lookup _ _ _ _ j Hws0 Hj).
    rewrite (read_range_lookup _ _ _ _ j Hws Hj).
    replace (wrap64 (N.of_nat j + a)) with (a + N.of_nat j)%N.
    2:{ unfold wrap64. rewrite N.mod_small by lia. lia. }
    specialize (Ht (a + N.of_nat j)%N). simpl in Ht.
    replace (N.to_nat (a + N.of_nat j)) with (N.to_nat a + j)%nat in Ht by lia.
    destruct (software_breakpoints n !! (a + N.of_nat j)%N) as [bp|].
    + destruct Ht as [Hp Hx]. fold text in Hx. rewrite Hx, Hp. reflexivity.
    + fold text in Ht. rewrite Ht. destruct (prog !! (N.to_nat a + j)%nat); reflexivity.
  - rewrite (lookup_ge_None_2 ws) by lia.
    rewrite lookup_ge_None_2; [reflexivity|].
    rewrite length_take. lia.
Qed.

End Breakpoints.

Section Watchpoints.
Context {P D : Type} {proc : Process.t P D} {arch : Arch.t D}.

Lemma existsb_uses_register (wps : gmap N Watchpoint) (i : N) :
  existsb (λ kv, (hw_reg kv.2 =? i)%N) (map_to_list wps) = true ↔
  uses_register wps i.
Proof.
  rewrite existsb_exists. split.
  - intros ([a wp] & Hin & Heq). apply list_elem_of_In, elem_of_map_to_list in Hin.
    exists a, wp. split; [exact Hin|]. apply N.eqb_eq. exact Heq.
  - intros (a & wp & Hl & Heq). exists (a, wp). split.
    + apply list_elem_of_In, elem_of_map_to_list. exact Hl.
    + apply N.eqb_eq. exact Heq.
Qed.

(** [find] on a run of consecutive indices returns the first one that
    passes the test. *)
Lemma find_first_index (f : N → bool) (c : nat) : ∀ s : nat,
  match find f (N.of_nat <$> seq s c) with
  | Some i => (N.of_nat s ≤ i < N.of_nat (s + c))%N ∧ f i = true ∧
              ∀ j, (N.of_nat s ≤ j < i)%N → f j = false
  | None => ∀ j, (N.of_nat s ≤ j < N.of_nat (s + c))%N → f j = false
  end.
Proof.
  induction c as [|c IH]; intros s; simpl.
  - intros j Hj. lia.
  - destruct (f (N.of_nat s)) eqn:Ef.
    + split; [lia|]. split; [exact Ef|]. intros j Hj. lia.
    + specialize (IH (S s)). simpl in IH.
      destruct (find f _) as [i|].
      * destruct IH as (Hi & Hfi & Hbefore). split; [lia|]. split; [exact Hfi|].
        intros j Hj. destruct (decide (j = N.of_nat s)) as [->|Hne]; [exact Ef|].
        apply Hbefore. lia.
      * intros j Hj. destruct (decide (j = N.of_nat s)) as [->|Hne]; [exact Ef|].
        apply IH. lia.
Qed.

Lemma GetFreeDebugRegister_spec (wps : gmap N Watchpoint) :
  match GetFreeDebugRegister wps with
  | Some i => (i < Arch.DebugRegistersCount)%N ∧ ¬ uses_register wps i ∧
              ∀ j, (j < i)%N → uses_register wps j
  | None => ∀ j, (j < Arch.DebugRegistersCount)%N → uses_register wps j
  end.
Proof.
  unfold GetFreeDebugRegister.
  pose proof (find_first_index
    (λ i, negb (existsb (λ kv, (hw_reg kv.2 =? i)%N) (map_to_list wps)))
    (N.to_nat Arch.DebugRegistersCount) 0) as H.
  destruct (find _ _) as [i|].
  - destruct H as (Hi & Hfi & Hbefore). split; [lia|]. split.
    + intros Hu. apply existsb_uses_register in Hu. rewrite Hu in Hfi. discriminate.
    + intros j Hj. apply existsb_uses_register.
      specialize (Hbefore j ltac:(lia)). apply negb_false_iff in Hbefore. exact Hbefore.
  - intros j Hj. apply existsb_uses_register.
    specialize (H j ltac:(lia)). apply negb_false_iff in H. exact H.
Qed.

Lemma GetFreeDebugRegister_free (wps : gmap N Watchpoint) (i : N) :
  GetFreeDebugRegister wps = Some i →
  (i < Arch.DebugRegistersCount)%N ∧ ¬ uses_register wps i.
Proof.
  intros H. pose proof (GetFreeDebugRegister_spec wps) as G.
  rewrite H in G. tauto.
Qed.

(** X4. [GetFreeDebugRegister] returns the lowest debug register that no
    watchpoint of the table uses, and nothing exactly when every debug
    register of the architecture is in use. *)
Theorem GetFreeDebugRegister_lowest_free (wps : gmap N Watchpoint) :
  match GetFreeDebugRegister wps with
  | Some i => (i < Arch.DebugRegistersCount)%N ∧ ¬ uses_register wps i ∧
              ∀ j, (j < i)%N → uses_register wps j
  | None => ∀ j, (j < Arch.DebugRegistersCount)%N → uses_register wps j
  end.
Proof. exact (GetFreeDebugRegister_spec wps). Qed.

Lemma SetWatchpointWrite_inv (address : N) (n : @Native P) :
  let '(r, n') := SetWatchpointWrite address n in
  software_breakpoints n' = software_breakpoints n ∧
  match r with
  | Ok _ =>
      watchpoints n !! address = None ∧
      ∃ idx, GetFreeDebugRegister (watchpoints n) = Some idx ∧
             watchpoints n' =
               <[address := {| type := Write; hw_reg := u8 idx |}]> (watchpoints n)
  | _ => watchpoints n' = watchpoints n
  end.
Proof.
  unfold SetWatchpointWrite.
  destruct Arch.SupportsHardwareWatchpoints; simpl; [|auto].
  unfold bind at 1, gets at 1.
  case_bool_decide as Hw; [simpl; auto|].
  assert (Hnone : watchpoints n !! address = None).
  { destruct (watchpoints n !! address) eqn:E; [|reflexivity].
    exfalso. apply Hw. eauto. }
  destruct (GetFreeDebugRegister (watchpoints n)) as [idx|] eqn:Efree; [|simpl; auto].
  unfold bind at 1, call at 1.
  destruct (Process.FetchDebugRegisters (process n)) as [[d| |] p1]; simpl; auto.
  unfold bind at 1, lift_outcome at 1.
  destruct (Arch.SetDebugRegister idx address d) as [d1| |]; simpl; auto.
  unfold bind at 1, lift_outcome at 1.
  destruct (Arch.ActivateDebugRegister idx d1) as [d2| |]; simpl; auto.
  unfold bind at 1, call at 1. simpl.
  destruct (Process.SetDebugRegisters d2 p1) as [[[]| |] p2]; simpl; auto.
  split; [reflexivity|]. split; [exact Hnone|]. exists idx. split; [reflexivity|].
  unfold emplace. rewrite Hnone. reflexivity.
Qed.

(** X5. What [SetWatchpointWrite] does to the tables: it succeeds only on an
    address without a watchpoint and then adds one entry for it, on the
    lowest free debug register; when it throws, the table of watchpoints is
    as before.  The breakpoints are never touched. *)
Theorem SetWatchpointWrite_table (address : N) (n : @Native P) :
  let '(r, n') := SetWatchpointWrite address n in
  software_breakpoints n' = software_breakpoints n ∧
  match r with
  | Ok _ =>
      watchpoints n !! address = None ∧
      ∃ idx, GetFreeDebugRegister (watchpoints n) = Some idx ∧
             watchpoints n' =
               <[address := {| type := Write; hw_reg := u8 idx |}]> (watchpoints n)
  | _ => watchpoints n' = watchpoints n
  end.
Proof. exact (SetWatchpointWrite_inv address n). Qed.

Lemma RemoveWatchpoint_inv (address : N) (n : @Native P) :
  let '(r, n') := RemoveWatchpoint address n in
  match r with
  | Ok _ => watchpoints n' = delete address (watchpoints n)
  | _ => watchpoints n' = watchpoints n
  end.
Proof.
  unfold RemoveWatchpoint. unfold bind at 1, gets at 1.
  destruct (watchpoints n !! address) as [wp|]; [|simpl; auto].
  unfold bind at 1, call at 1.
  destruct (Process.FetchDebugRegisters (process n)) as [[d| |] p1]; simpl; auto.
  unfold bind at 1, lift_outcome at 1.
  destruct (Arch.DeactivateDebugRegister (hw_reg wp) d) as [d1| |]; simpl; auto.
Qed.

Lemma registers_distinct_delete (wps : gmap N Watchpoint) (a : N) :
  registers_distinct wps → registers_distinct (delete a wps).
Proof.
  intros [Hlt Hinj]. split.
  - intros b wp Hb. apply lookup_delete_Some in Hb as [_ Hb]. eauto.
  - intros b c wb wc Hb Hc. apply lookup_delete_Some in Hb as [_ Hb].
    apply lookup_delete_Some in Hc as [_ Hc]. eauto.
Qed.

Lemma registers_distinct_insert (wps : gmap N Watchpoint) (a idx : N) :
  registers_distinct wps →
  (idx < Arch.DebugRegistersCount)%N →
  ¬ uses_register wps idx →
  registers_distinct (<[a := {| type := Write; hw_reg := idx |}]> wps).
Proof.
  intros [Hlt Hinj] Hidx Hfree. split.
  - intros b wp Hb. apply lookup_insert_Some in Hb as [[_ <-]|[_ Hb]]; simpl; eauto.
  - intros b c wb wc Hb Hc Heq.
    apply lookup_insert_Some in Hb as [[<- <-]|[Hab Hb]];
      apply lookup_insert_Some in Hc as [[<- <-]|[Hac Hc]]; simpl in *; auto.
    + exfalso. apply Hfree. exists c, wc. auto.
    + exfalso. apply Hfree. exists b, wb. auto.
    + eauto.
Qed.

(** X6. Setting and removing watchpoints keeps the debug registers of the
    watchpoints apart: when no two watchpoints share a debug register and
    each register is one of the architecture, the same holds after
    [SetWatchpointWrite] and after [RemoveWatchpoint], whether they succeed
    or throw.  The index of a register is stored in eight bits, so the
    architecture may have at most 256 of them. *)
Theorem watchpoints_keep_registers_distinct (address removed : N) (n : @Native P) :
  (Arch.DebugRegistersCount ≤ 256)%N →
  registers_distinct (watchpoints n) →
  registers_distinct (watchpoints (SetWatchpointWrite address n).2) ∧
  registers_distinct (watchpoints (RemoveWatchpoint removed n).2).
Proof.
  intros Hc Hd. split.
  - pose proof (SetWatchpointWrite_inv address n) as H.
    destruct (SetWatchpointWrite address n) as [[[]| |] n']; simpl;
      destruct H as [_ H]; try (rewrite H; exact Hd).
    destruct H as (_ & idx & Hfree & ->).
    apply GetFreeDebugRegister_free in Hfree as [Hlt Hfree].
    replace (u8 idx) with idx by (unfold u8; rewrite N.mod_small; lia).
    apply registers_distinct_insert; auto.
  - pose proof (RemoveWatchpoint_inv removed n) as H.
    destruct (RemoveWatchpoint removed n) as [[[]| |] n']; simpl;
      try (rewrite H; exact Hd).
    rewrite H. apply registers_distinct_delete. exact Hd.
Qed.

(** The walk of [MapReasonToEvent] over the watchpoints: the least address
    whose watchpoint uses debug register [idx]. *)
Lemma find_if_least (idx : N) (l : list (N * Watchpoint)) :
  match foldr (λ kv acc,
                 if (hw_reg kv.2 =? idx)%N then
                   match acc with
                   | Some k => Some (N.min kv.1 k)
                   | None => Some kv.1
                   end
                 else acc) None l with
  | Some a => (∃ wp, (a, wp) ∈ l ∧ hw_reg wp = idx) ∧
              ∀ b wp, (b, wp) ∈ l → hw_reg wp = idx → (a ≤ b)%N
  | None => ∀ b wp, (b, wp) ∈ l → hw_reg wp ≠ idx
  end.
Proof.
  induction l as [|[k w] l IH]; simpl.
  - intros b wp H. inversion H.
  - destruct (hw_reg w =? idx)%N eqn:E.
    + apply N.eqb_eq in E.
      destruct (foldr _ None l) as [a|].
      * destruct IH as [(wp & Hin & Hwp) Hleast]. split.
        -- destruct (N.min_spec k a) as [[_ ->]|[_ ->]].
           ++ exists w. split; [left|exact E].
           ++ exists wp. split; [right; exact Hin|exact Hwp].
        -- intros b wb Hb Hwb. apply elem_of_cons in Hb as [Hb|Hb].
           ++ injection Hb as -> ->. lia.
           ++ specialize (Hleast b wb Hb Hwb). lia.
      * split.
        -- exists w. split; [left|exact E].
        -- intros b wb Hb Hwb. apply elem_of_cons in Hb as [Hb|Hb].
           ++ injection Hb as -> ->. lia.
           ++ exfalso. eapply IH; eauto.
    + apply N.eqb_neq in E.
      destruct (foldr _ None l) as [a|].
      * destruct IH as [(wp & Hin & Hwp) Hleast]. split.
        -- exists wp. split; [right; exact Hin|exact Hwp].
        -- intros b wb Hb Hwb. apply elem_of_cons in Hb as [Hb|Hb].
           ++ injection Hb as -> ->. contradiction.
           ++ eauto.
      * intros b wb Hb. apply elem_of_cons in Hb as [Hb|Hb].
        -- injection Hb as -> ->. exact E.
        -- eauto.
Qed.

Lemma find_if_hw_reg_spec (idx : N) (wps : gmap N Watchpoint) :
  match find_if_hw_reg idx wps with
  | Some a => (∃ wp, wps !! a = Some wp ∧ hw_reg wp = idx) ∧
              ∀ b wp, wps !! b = Some wp → hw_reg wp = idx → (a ≤ b)%N
  | None => ¬ uses_register wps idx
  end.
Proof.
  unfold find_if_hw_reg, uses_register.
  pose proof (find_if_least idx (map_to_list wps)) as H.
  destruct (foldr _ None (map_to_list wps)) as [a|].
  - destruct H as [(wp & Hin & Hwp) Hleast]. split.
    + exists wp. split; [apply elem_of_map_to_list; exact Hin|exact Hwp].
    + intros b wb Hb. apply Hleast. apply elem_of_map_to_list. exact Hb.
  - intros (b & wb & Hb & Hwb). apply (H b wb); [|exact Hwb].
    apply elem_of_map_to_list. exact Hb.
Qed.

Variable dbg_of : P → D.
Hypothesis HD : DebugRegisterFile dbg_of.

(** X7. A hardware break is reported for the watchpoint that owns the debug
    register responsible for it: the event is a [WatchpointTrigger] with the
    least address whose watchpoint uses that register, and when no
    watchpoint of the table uses it the assertion of [MapReasonToEvent]
    fails. *)
Theorem MapReasonToEvent_HardwareBreak (n : @Native P) (idx : N) :
  Arch.GetResponsibleRegister (dbg_of (process n)) = Ok idx →
  ∃ n', watchpoints n' = watchpoints n ∧
    ((∀ a wp, watchpoints n !! a = Some wp → hw_reg wp = idx →
        (∀ b wb, watchpoints n !! b = Some wb → hw_reg wb = idx → (a ≤ b)%N) →
        MapReasonToEvent StopReason.HardwareBreak n =
          (Ok (WatchpointTrigger Write a), n')) ∧
     (¬ uses_register (watchpoints n) idx →
        MapReasonToEvent StopReason.HardwareBreak n = (Throw assertion_failed, n'))).
Proof.
  intros Hidx.
  destruct (FetchDebugRegisters_law _ HD (process n)) as (p' & Hf & Hd).
  exists (set_process p' n). split; [reflexivity|].
  assert (E : MapReasonToEvent StopReason.HardwareBreak n =
              (match find_if_hw_reg idx (watchpoints n) with
               | Some a => Ok (WatchpointTrigger Write a)
               | None => Throw assertion_failed
               end, set_process p' n)).
  { unfold MapReasonToEvent. unfold bind at 1, call at 1. rewrite Hf.
    unfold bind at 1, lift_outcome at 1. rewrite Hidx.
    unfold bind at 1, gets at 1. cbn [watchpoints set_process].
    destruct (find_if_hw_reg idx (watchpoints n)); reflexivity. }
  pose proof (find_if_hw_reg_spec idx (watchpoints n)) as S.
  rewrite E. destruct (find_if_hw_reg idx (watchpoints n)) as [a'|].
  - destruct S as [(wp' & Hin' & Hwp') Hleast]. split.
    + intros a wp Hin Hwp Hmin.
      assert (a = a') as ->; [|reflexivity].
      specialize (Hleast a wp Hin Hwp). specialize (Hmin a' wp' Hin' Hwp'). lia.
    + intros Hno. exfalso. apply Hno. exists a', wp'. auto.
  - split; [|reflexivity].
    intros a wp Hin Hwp _. exfalso. apply S. exists a, wp. auto.
Qed.

End Watchpoints.

Section Registers.
Context {P D : Type} {proc : Process.t P D} {arch : Arch.t D}.
Variable regs_of : P → gmap string Z.
Hypothesis HR : RegisterFile regs_of.

(** X10. The path of [WaitForDebugEvent] that waits on the process, on a
    software breakpoint.  When no event is cached and the process stops
    with [SoftwareBreakpointHit] and [IP] = [v], the event is a
    [BreakpointHit] for the address [v - 1], [IP] is moved back to it and
    no other register changes, and the cache stays empty: the address of
    the event is what [GetIP] yields after the call. *)
Theorem WaitForDebugEvent_reports_hit (n : @Native P) (p1 p2 : P) (v : Z) :
  cached_event n = None →
  Process.Wait (process n) = (Ok tt, p1) →
  Process.GetReason p1 = (Ok StopReason.SoftwareBreakpointHit, p2) →
  regs_of p2 !! "IP" = Some v →
  let address := wrap64 (u64_of_i64 v + two64 - 1) in
  ∃ n',
    WaitForDebugEvent n = (Ok (BreakpointHit Software address), n') ∧
    regs_of (process n') = <["IP" := i64 (v - 1)]> (regs_of p2) ∧
    IP_of regs_of n' = Some address ∧
    cached_event n' = None.
Proof.
  intros Hc Hw Hr Hv address.
  destruct (FetchRegisters_law _ HR p2) as (p3 & Hf3 & Hr3).
  destruct (FetchRegisters_law _ HR p3) as (p4 & Hf4 & Hr4).
  destruct (SetRegisters_law _ HR (<["IP" := i64 (v - 1)]> (regs_of p2)) p4)
    as (p5 & Hs5 & Hr5).
  exists (set_process p5 n).
  assert (E : WaitForDebugEvent n =
              (Ok (BreakpointHit Software address), set_process p5 n)).
  { assert (Hip : GetIP (set_process p2 n) = (Ok (u64_of_i64 v), set_process p3 n)).
    { unfold GetIP, GetRegister.
      erewrite bind_Ok.
      2:{ erewrite bind_Ok by (apply call_Ok; exact Hf3).
          cbn [process set_process]. rewrite Hv. reflexivity. }
      reflexivity. }
    assert (Hreason :
      (call Process.Wait ;; r <- call Process.GetReason ;; MapReasonToEvent r) n =
      (Ok (BreakpointHit Software address), set_process p3 n)).
    { erewrite bind_Ok by (apply call_Ok; exact Hw).
      erewrite bind_Ok by (apply call_Ok; exact Hr).
      cbn [MapReasonToEvent].
      change (set_process p2 (set_process p1 n)) with (set_process p2 n).
      erewrite bind_Ok by exact Hip. reflexivity. }
    unfold WaitForDebugEvent.
    erewrite bind_Ok by reflexivity. rewrite Hc.
    erewrite bind_Ok by exact Hreason.
    cbn [holds_BreakpointHit].
    erewrite bind_Ok.
    2:{ unfold GetRegisters.
        erewrite bind_Ok by (apply call_Ok; exact Hf4).
        cbn [process set_process]. rewrite Hr3, Hv.
        unfold SetRegisters. apply call_Ok. exact Hs5. }
    reflexivity. }
  split; [exact E|]. cbn [process set_process cached_event].
  split; [exact Hr5|]. split; [|exact Hc].
  unfold IP_of. cbn [process set_process]. rewrite Hr5, lookup_insert_eq.
  simpl. f_equal. apply u64_of_i64_pred.
Qed.

(** X8. Writing one register and reading it back.  On a register the debuggee
    has, [SetRegister] succeeds, changes that register only, and
    [GetRegister] then returns the value written.  On a name the debuggee
    does not have, both throw a [DebuggerError] and the registers are left
    as they were: no register is created. *)
Theorem SetRegister_GetRegister (n : @Native P) (name : string) (v : Z) :
  match regs_of (process n) !! name with
  | Some _ =>
      ∃ n1 n2,
        SetRegister name v n = (Ok tt, n1) ∧
        regs_of (process n1) = <[name := v]> (regs_of (process n)) ∧
        GetRegister name n1 = (Ok v, n2) ∧
        regs_of (process n2) = regs_of (process n1)
  | None =>
      ∃ msg msg' n1 n2,
        SetRegister name v n = (Throw (DebuggerError msg), n1) ∧
        regs_of (process n1) = regs_of (process n) ∧
        GetRegister name n = (Throw (DebuggerError msg'), n2) ∧
        regs_of (process n2) = regs_of (process n)
  end.
Proof.
  destruct (FetchRegisters_law _ HR (process n)) as (p1 & Hf & Hr1).
  destruct (regs_of (process n) !! name) as [old|] eqn:E.
  - destruct (SetRegisters_law _ HR (<[name := v]> (regs_of (process n))) p1)
      as (p2 & Hs & Hr2).
    destruct (FetchRegisters_law _ HR p2) as (p3 & Hf3 & Hr3).
    exists (set_process p2 (set_process p1 n)), (set_process p3 (set_process p2 (set_process p1 n))).
    split.
    { unfold SetRegister, GetRegisters. unfold bind, call. rewrite Hf.
      rewrite bool_decide_eq_true_2 by (rewrite E; eauto).
      unfold SetRegisters, call. cbn [process set_process]. rewrite Hs. reflexivity. }
    split; [exact Hr2|]. split.
    { unfold GetRegister. unfold bind, call. cbn [process set_process]. rewrite Hf3.
      rewrite Hr2, lookup_insert_eq. reflexivity. }
    cbn [process set_process]. exact Hr3.
  - eexists _, _, (set_process p1 n), (set_process p1 n). split.
    { unfold SetRegister, GetRegisters. unfold bind, call. rewrite Hf.
      rewrite bool_decide_eq_false_2 by (rewrite E; intros [? ?]; discriminate).
      reflexivity. }
    split; [exact Hr1|]. split; [|exact Hr1].
    unfold GetRegister. unfold bind, call. rewrite Hf, E. reflexivity.
Qed.

End Registers.

Section SingleStep.
Context {P D : Type} {proc : Process.t P D} {arch : Arch.t D}.
Hypothesis HE : ProcessEnds.

Lemma bind_ends {S A B} (m : M S A) (k : A → M S B) (s : S) :
  ends (m s).1 →
  (∀ a s1, m s = (Ok a, s1) → ends (k a s1).1) →
  ends (bind m k s).1.
Proof.
  unfold bind. destruct (m s) as [[a| |] s1]; simpl; auto.
Qed.

Lemma call_ends {A} (f : M P A) (n : @Native P) :
  ends (f (process n)).1 → ends (call f n).1.
Proof. unfold call. destruct (f (process n)) as [r p]. auto. Qed.

Lemma GetSoftwareBreakpointOpcode_ends (n : @Native P) :
  ends (GetSoftwareBreakpointOpcode n).1.
Proof.
  unfold GetSoftwareBreakpointOpcode.
  destruct (list_find _ _) as [[? ?]|]; exact I.
Qed.

Lemma vector_at_ends {A} (v : list A) (i : nat) (n : @Native P) :
  ends (vector_at v i n).1.
Proof. unfold vector_at. destruct (v !! i); exact I. Qed.

Lemma CreateSoftwareBreakpoint_ends (a : N) (n : @Native P) :
  ends (CreateSoftwareBreakpoint a n).1.
Proof.
  unfold CreateSoftwareBreakpoint.
  apply bind_ends; [apply GetSoftwareBreakpointOpcode_ends|]. intros opcode n1 _.
  apply bind_ends; [apply call_ends, HE|]. intros text n2 _.
  apply bind_ends; [apply vector_at_ends|]. intros backup n3 _.
  apply bind_ends; [apply call_ends, HE|]. intros [] n4 _.
  apply bind_ends; [apply call_ends, HE|]. intros text' n5 _.
  apply bind_ends; [apply vector_at_ends|]. intros new_opcode n6 _.
  case_bool_decide; exact I.
Qed.

Lemma EnableSoftwareBreakpoint_ends (a : N) (n : @Native P) :
  ends (EnableSoftwareBreakpoint a n).1.
Proof.
  unfold EnableSoftwareBreakpoint.
  apply bind_ends; [exact I|]. intros bps n1 _.
  destruct (bps !! a) as [bp|]; [|exact I].
  destruct (enabled bp); simpl; [exact I|].
  apply bind_ends; [apply CreateSoftwareBreakpoint_ends|]. intros; exact I.
Qed.

Lemma DisableSoftwareBreakpoint_ends (a : N) (n : @Native P) :
  ends (DisableSoftwareBreakpoint a n).1.
Proof.
  unfold DisableSoftwareBreakpoint.
  apply bind_ends; [exact I|]. intros bps n1 _.
  destruct (bps !! a) as [bp|]; [|exact I].
  destruct (enabled bp); simpl; [|exact I].
  apply bind_ends; [apply call_ends, HE|]. intros; exact I.
Qed.

Lemma GetRegister_ends (name : string) (n : @Native P) :
  ends (GetRegister name n).1.
Proof.
  unfold GetRegister.
  apply bind_ends; [apply call_ends, HE|]. intros regs n1 _.
  destruct (regs !! name); exact I.
Qed.

Lemma GetIP_ends (n : @Native P) : ends (GetIP n).1.
Proof.
  unfold GetIP. apply bind_ends; [apply GetRegister_ends|]. intros; exact I.
Qed.

(** [GetIP] only asks the process. *)
Lemma GetIP_table (n n' : @Native P) r :
  GetIP n = (r, n') → software_breakpoints n' = software_breakpoints n.
Proof.
  unfold GetIP, GetRegister, bind, call.
  destruct (Process.FetchRegisters (process n)) as [[regs| |] p]; simpl;
    try (intros H; invc H; reflexivity).
  destruct (regs !! "IP"); simpl; intros H; invc H; reflexivity.
Qed.

Lemma MapReasonToEvent_ends (reason : StopReason.t) (n : @Native P) :
  ends (MapReasonToEvent reason n).1.
Proof.
  destruct reason; simpl; try exact I.
  - apply bind_ends; [apply GetIP_ends|]. intros; exact I.
  - apply bind_ends; [apply call_ends, HE|]. intros d n1 _.
    apply bind_ends; [apply HE|]. intros idx n2 _.
    apply bind_ends; [exact I|]. intros wps n3 _.
    destruct (find_if_hw_reg idx wps); exact I.
Qed.

Lemma WaitForDebugEvent_ends (n : @Native P) : ends (WaitForDebugEvent n).1.
Proof.
  unfold WaitForDebugEvent.
  apply bind_ends; [exact I|]. intros cached n1 _.
  apply bind_ends.
  { destruct cached.
    - apply bind_ends; [exact I|]. intros; exact I.
    - apply bind_ends; [apply call_ends, HE|]. intros [] n2 _.
      apply bind_ends; [apply call_ends, HE|]. intros r n3 _.
      apply MapReasonToEvent_ends. }
  intros reason n2 _.
  apply bind_ends; [|intros; exact I].
  destruct (holds_BreakpointHit reason); [|exact I].
  apply bind_ends; [apply call_ends, HE|]. intros regs n3 _.
  destruct (regs !! "IP"); [|exact I].
  apply call_ends, HE.
Qed.

Lemma DoRawSingleStep_ends (n : @Native P) : ends (DoRawSingleStep n).1.
Proof.
  unfold DoRawSingleStep.
  apply bind_ends; [apply call_ends, HE|]. intros. apply WaitForDebugEvent_ends.
Qed.

(** A breakpoint that was enabled and is disabled is one enabled breakpoint
    less. *)
Lemma enabled_count_disable (bps : gmap N SoftwareBreakpoint) (ip : N)
    (bp : SoftwareBreakpoint) (d : string) :
  bps !! ip = Some bp → enabled bp = true →
  (enabled_count (<[ip := {| data := d; enabled := false |}]> bps)
     < enabled_count bps)%nat.
Proof.
  intros Hbp Hen. unfold enabled_count.
  rewrite map_filter_insert_False by (simpl; discriminate).
  rewrite map_filter_delete.
  assert (Hin : filter (λ kv : N * SoftwareBreakpoint, enabled kv.2 = true) bps !! ip
                = Some bp).
  { apply map_lookup_filter_Some. auto. }
  rewrite map_size_delete, Hin.
  assert (size (filter (λ kv : N * SoftwareBreakpoint, enabled kv.2 = true) bps) ≠ 0)%nat.
  { apply map_size_ne_0_lookup. eauto. }
  simpl. lia.
Qed.

Lemma DisableSoftwareBreakpoint_enabled (ip : N) (n n' : @Native P)
    (bp : SoftwareBreakpoint) :
  software_breakpoints n !! ip = Some bp → enabled bp = true →
  DisableSoftwareBreakpoint ip n = (Ok tt, n') →
  software_breakpoints n' =
    <[ip := {| data := data bp; enabled := false |}]> (software_breakpoints n).
Proof.
  intros Hbp Hen. unfold DisableSoftwareBreakpoint.
  unfold bind at 1, gets at 1. rewrite Hbp, Hen.
  unfold bind, call, modify.
  destruct (Process.WriteText ip [data bp] (process n)) as [[[]| |] p]; simpl;
    intros H; invc H. reflexivity.
Qed.

(** X9. [PerformSingleStep] and [StepOverBreakpoint] call each other, and the
    recursion ends.  Each level disables the enabled breakpoint it finds
    under [IP] before it steps again, so when the calls on the process end,
    [PerformSingleStep] returns or throws within a depth of one more than
    the number of enabled breakpoints. *)
Theorem PerformSingleStep_ends (fuel : nat) (n : @Native P) :
  (enabled_count (software_breakpoints n) < fuel)%nat →
  ends (PerformSingleStep fuel n).1.
Proof.
  revert n. induction fuel as [|fuel IH]; intros n Hn; [lia|].
  cbn [PerformSingleStep].
  destruct Arch.SupportHardwareLevelSingleStep; simpl; [|exact I].
  apply bind_ends; [apply GetIP_ends|]. intros ip n1 Hip.
  apply GetIP_table in Hip.
  apply bind_ends; [exact I|]. intros bps n2 Hg. invc Hg.
  destruct (software_breakpoints n2 !! ip) as [bp|] eqn:Hbp;
    [|apply DoRawSingleStep_ends].
  destruct (enabled bp) eqn:Hen; [|apply DoRawSingleStep_ends].
  unfold StepOverBreakpoint_with.
  apply bind_ends; [apply DisableSoftwareBreakpoint_ends|]. intros [] n3 Hd.
  apply (DisableSoftwareBreakpoint_enabled _ _ _ _ Hbp Hen) in Hd.
  apply bind_ends.
  { apply IH. rewrite Hd. rewrite <- Hip in Hn.
    pose proof (enabled_count_disable _ _ _ (data bp) Hbp Hen). lia. }
  intros event n4 _.
  apply bind_ends; [apply EnableSoftwareBreakpoint_ends|]. intros; exact I.
Qed.

End SingleStep.

Section StepOver.
Context {P D : Type} {proc : Process.t P D} {arch : Arch.t D}.
Variable text_of : P → list string.
Hypothesis HT : TextMemory text_of.
Hypothesis HM : Arch.GetMachine = Arch.T86.
Hypothesis HX : ExecutionLeavesText text_of.

Lemma keeps_bind {A B} (m : M (@Native P) A) (k : A → M (@Native P) B) :
  keeps text_of m → (∀ a, keeps text_of (k a)) → keeps text_of (bind m k).
Proof.
  intros Hm Hk n. unfold bind. specialize (Hm n).
  destruct (m n) as [[a| |] n1]; simpl in *; try exact Hm.
  destruct (Hk a n1) as [H1 H2]. destruct Hm as [H3 H4].
  split; congruence.
Qed.

Lemma keeps_ret {A} (a : A) : keeps text_of (ret a).
Proof. intros n. split; reflexivity. Qed.

Lemma keeps_throw {A} (e : exn) : keeps text_of (@throw (@Native P) A e).
Proof. intros n. split; reflexivity. Qed.

Lemma keeps_gets {A} (f : @Native P → A) : keeps text_of (gets f).
Proof. intros n. split; reflexivity. Qed.

Lemma keeps_lift_outcome {A} (o : outcome A) : keeps text_of (lift_outcome o).
Proof. intros n. split; reflexivity. Qed.

Lemma keeps_set_cached_event (e : option DebugEvent) :
  keeps text_of (modify (set_cached_event e)).
Proof. intros n. split; reflexivity. Qed.

Lemma keeps_call {A} (f : M P A) :
  (∀ p, text_of (f p).2 = text_of p) → keeps text_of (call f).
Proof.
  intros Hf n. unfold call. specialize (Hf (process n)).
  destruct (f (process n)) as [r p]. split; [exact Hf|reflexivity].
Qed.

Create HintDb keeps.

#[local] Hint Resolve keeps_ret keeps_throw keeps_gets keeps_lift_outcome
  keeps_set_cached_event : keeps.

Ltac keeps_step :=
  first
    [ solve [auto 1 with keeps nocore]
    | apply keeps_call; solve [apply HX]
    | apply keeps_bind; [|intros ?]
    | match goal with
      | |- keeps _ (if ?b then _ else _) => destruct b
      | |- keeps _ (match ?x with _ => _ end) => destruct x
      end ].

Ltac keeps_tac := repeat keeps_step.

Lemma keeps_GetIP : keeps text_of GetIP.
Proof. unfold GetIP, GetRegister. keeps_tac. Qed.

#[local] Hint Resolve keeps_GetIP : keeps.

Lemma keeps_MapReasonToEvent (reason : StopReason.t) :
  keeps text_of (MapReasonToEvent reason).
Proof. destruct reason; simpl; keeps_tac. Qed.

#[local] Hint Resolve keeps_MapReasonToEvent : keeps.

Lemma keeps_WaitForDebugEvent : keeps text_of WaitForDebugEvent.
Proof. unfold WaitForDebugEvent, GetRegisters, SetRegisters. keeps_tac. Qed.

#[local] Hint Resolve keeps_WaitForDebugEvent : keeps.

Lemma keeps_DoRawSingleStep : keeps text_of DoRawSingleStep.
Proof. unfold DoRawSingleStep. keeps_tac. Qed.

(** X20. A single step keeps the breakpoints.  When every enabled breakpoint has
    its trap in the debuggee and running the debuggee leaves its text
    alone, a [PerformSingleStep] that returns, over a breakpoint or not,
    leaves the text of the debuggee and the breakpoint table as they were:
    the breakpoint stepped over is installed again. *)
Theorem PerformSingleStep_keeps_breakpoints (fuel : nat) (n n' : @Native P)
    (event : DebugEvent) :
  armed text_of n →
  PerformSingleStep fuel n = (Ok event, n') →
  text_of (process n') = text_of (process n) ∧
  software_breakpoints n' = software_breakpoints n.
Proof.
  revert n n' event. induction fuel as [|fuel IH]; intros n n' event Ha H;
    [discriminate|].
  cbn [PerformSingleStep] in H.
  destruct Arch.SupportHardwareLevelSingleStep; simpl in H; [|discriminate].
  apply bind_Ok_inv in H as (ip & n1 & Hip & H).
  destruct (keeps_GetIP n) as [T1 B1]. rewrite Hip in T1, B1. simpl in T1, B1.
  apply bind_Ok_inv in H as (bps & n1' & Hg & H). invc Hg.
  assert (Hraw : DoRawSingleStep n1' = (Ok event, n') →
                 text_of (process n') = text_of (process n) ∧
                 software_breakpoints n' = software_breakpoints n).
  { intros E. destruct (keeps_DoRawSingleStep n1') as [T2 B2].
    rewrite E in T2, B2. simpl in T2, B2. split; congruence. }
  destruct (software_breakpoints n1' !! ip) as [bp|] eqn:Hbp; [|auto].
  destruct (enabled bp) eqn:Hen; [|auto]. clear Hraw.
  assert (Htrap : text_of (process n1') !! N.to_nat ip = Some "BKPT").
  { rewrite T1. apply (Ha ip bp); [rewrite <- B1; exact Hbp|exact Hen]. }
  unfold StepOverBreakpoint_with in H.
  apply bind_Ok_inv in H as ([] & n2 & Hd & H).
  apply bind_Ok_inv in H as (ev & n3 & Hstep & H).
  apply bind_Ok_inv in H as ([] & n4 & He & H).
  unfold ret in H. injection H as -> ->.
  destruct (DisableSoftwareBreakpoint_effect text_of HT ip n1')
    as (r2 & n2' & Hd' & V2 & _).
  rewrite Hd in Hd'. invc Hd'.
  unfold view in V2. simpl in V2. rewrite Hbp, Hen, Htrap in V2.
  injection V2 as T2 B2.
  assert (Ha2 : armed text_of n2').
  { intros a bp' Hl Hen'. rewrite B2 in Hl. rewrite T2.
    apply lookup_insert_Some in Hl as [[<- <-]|[Hne Hl]]; [discriminate|].
    rewrite list_lookup_insert_ne by lia.
    rewrite T1. apply (Ha a bp'); [rewrite <- B1; exact Hl|exact Hen']. }
  destruct (IH n2' n3 event Ha2 Hstep) as [T3 B3].
  destruct (EnableSoftwareBreakpoint_effect text_of HT HM ip n3)
    as (r4 & n4' & He' & V4).
  rewrite He in He'. invc He'.
  unfold view in V4. simpl in V4. rewrite B3, B2, lookup_insert_eq in V4.
  simpl in V4. unfold install_effect in V4. simpl in V4.
  assert (Hdata : text_of (process n3) !! N.to_nat ip = Some (data bp)).
  { rewrite T3, T2. apply list_lookup_insert_eq. eapply lookup_lt_Some; eauto. }
  rewrite Hdata in V4. injection V4 as T4 B4. split.
  - rewrite T4, T3, T2, list_insert_insert_eq, <- T1. apply list_insert_id.
    exact Htrap.
  - rewrite B4, insert_insert_eq, <- B1. apply insert_id.
    rewrite Hbp. f_equal. destruct bp. simpl in *. congruence.
Qed.

End StepOver.

Section Errors.
Context {P D : Type} {proc : Process.t P D} {arch : Arch.t D}.

(** X21. Operations on a breakpoint that is not there, and setting one that is:
    [EnableSoftwareBreakpoint], [DisableSoftwareBreakpoint] and
    [UnsetBreakpoint] on an address without a breakpoint, and
    [SetBreakpoint] on an address with one, throw their [DebuggerError]
    and leave the debugger, the state of the process included, exactly as
    it was. *)
Theorem breakpoint_presence_checked (address : N) (n : @Native P) :
  match software_breakpoints n !! address with
  | None =>
      let e := DebuggerError ("No breakpoint at address " +:+ fmt_N address +:+ "!") in
      EnableSoftwareBreakpoint address n = (Throw e, n) ∧
      DisableSoftwareBreakpoint address n = (Throw e, n) ∧
      UnsetBreakpoint address n = (Throw e, n)
  | Some _ =>
      SetBreakpoint address n =
        (Throw (DebuggerError ("Breakpoint at " +:+ fmt_N address +:+
                               " is already set!")), n)
  end.
Proof.
  destruct (software_breakpoints n !! address) as [bp|] eqn:E.
  - unfold SetBreakpoint, bind, gets. rewrite E.
    rewrite bool_decide_eq_true_2 by eauto. reflexivity.
  - cbv zeta. unfold UnsetBreakpoint, EnableSoftwareBreakpoint,
      DisableSoftwareBreakpoint, bind, gets. rewrite E. auto.
Qed.

Variable text_of : P → list string.
Hypothesis HT : TextMemory text_of.

(** X22. The range of a text access is checked against the size of the text:
    [ReadText] and [WriteText] on a range that ends beyond the text throw a
    [DebuggerError], and neither the text of the debuggee nor the
    breakpoint table changes; in particular the saved opcodes of the
    breakpoints inside the range are not overwritten. *)
Theorem text_range_checked (n : @Native P) (address amount : N)
    (text : list string) :
  let size := N.of_nat (length (text_of (process n))) in
  ((address + amount < two64)%N → (size < address + amount)%N →
   ∃ msg n', ReadText address amount n = (Throw (DebuggerError msg), n') ∧
             view text_of n' = view text_of n) ∧
  ((address + N.of_nat (length text) < two64)%N →
   (size < address + N.of_nat (length text))%N →
   ∃ msg n', WriteText address text n = (Throw (DebuggerError msg), n') ∧
             view text_of n' = view text_of n).
Proof.
  intros size.
  destruct (TextSize_effect text_of HT n) as (p' & Hs & Hp). split.
  - intros Hw Hb. unfold ReadText. unfold bind at 1. rewrite Hs.
    replace (wrap64 (address + amount)) with (address + amount)%N
      by (unfold wrap64; rewrite N.mod_small; [reflexivity|exact Hw]).
    rewrite bool_decide_eq_true_2 by exact Hb.
    eexists _, _. split; [reflexivity|]. unfold view. simpl. rewrite Hp. reflexivity.
  - intros Hw Hb. unfold WriteText. unfold bind at 1. rewrite Hs. cbv zeta.
    replace (wrap64 (address + N.of_nat (length text)))
      with (address + N.of_nat (length text))%N
      by (unfold wrap64; rewrite N.mod_small; [reflexivity|exact Hw]).
    rewrite bool_decide_eq_true_2 by exact Hb.
    eexists _, _. split; [reflexivity|]. unfold view. simpl. rewrite Hp. reflexivity.
Qed.

End Errors.

(** *** The properties on the in-memory debuggee *)

Section Scenarios.
#[local] Existing Instance Debuggee.process.
#[local] Existing Instance Debuggee.arch.

Lemma Debuggee_RegisterFile : @RegisterFile _ _ Debuggee.process Debuggee.regs.
Proof.
  split.
  - intros p. eexists. split; [reflexivity|done].
  - intros r p. eexists. split; [reflexivity|done].
Qed.

Lemma Debuggee_DebugRegisterFile :
  @DebugRegisterFile _ _ Debuggee.process Debuggee.dbg.
Proof.
  split.
  - intros p. eexists. split; [reflexivity|done].
  - intros d p. eexists. split; [reflexivity|done].
Qed.

Lemma Debuggee_ProcessEnds : @ProcessEnds _ _ Debuggee.process Debuggee.arch.
Proof.
  split; simpl; try (intros; exact I).
  - intros a k p. unfold Debuggee.ReadText. destruct (read_range _ _ _); exact I.
  - intros a w p. unfold Debuggee.WriteText. destruct (write_range _ _ _); exact I.
Qed.

Lemma Debuggee_run_text (fuel : nat) : ∀ p : Debuggee.t,
  Debuggee.text (Debuggee.run fuel p) = Debuggee.text p.
Proof.
  induction fuel as [|fuel IH]; intros p; [reflexivity|].
  simpl. unfold Debuggee.execute.
  destruct (Debuggee.text p !! Z.to_nat (Debuggee.ip p)) as [w|]; [|reflexivity].
  repeat case_bool_decide; try reflexivity.
  rewrite IH. reflexivity.
Qed.

Lemma Debuggee_ExecutionLeavesText :
  @ExecutionLeavesText _ _ Debuggee.process Debuggee.text.
Proof.
  split; try (intros; reflexivity).
  intros p. change (Process.Wait p) with (Debuggee.Wait p).
  unfold Debuggee.Wait. cbn [snd Debuggee.log Debuggee.set_pending Debuggee.text].
  destruct (Debuggee.pending p); [reflexivity| |].
  - unfold Debuggee.execute.
    destruct (Debuggee.text p !! Z.to_nat (Debuggee.ip p)) as [w|]; [|reflexivity].
    repeat case_bool_decide; reflexivity.
  - apply Debuggee_run_text.
Qed.

(** A breakpoint on the second of three instructions, set and unset. *)
Lemma SetBreakpoint_UnsetBreakpoint_restores_witness :
  let n := Debuggee.attach (Debuggee.start ["MOV R0, 1"; "INC R0"; "HALT"]) in
  ∃ n1 n2,
    SetBreakpoint (proc := Debuggee.process) 1 n = (Ok tt, n1) ∧
    UnsetBreakpoint 1 n1 = (Ok tt, n2) ∧
    Debuggee.text (process n2) = Debuggee.text (process n) ∧
    software_breakpoints n2 = software_breakpoints n.
Proof.
  intros n.
  refine (SetBreakpoint_UnsetBreakpoint_restores (proc := Debuggee.process)
            Debuggee.text Debuggee_TextMemory eq_refl n 1 _ _).
  - vm_compute. reflexivity.
  - reflexivity.
Defined.

(** The same breakpoint, disabled and enabled again. *)
Lemma Disable_Enable_restores_witness :
  let n := (SetBreakpoint (proc := Debuggee.process) 1
              (Debuggee.attach (Debuggee.start ["MOV R0, 1"; "INC R0"; "HALT"]))).2 in
  ∃ n1 n2,
    DisableSoftwareBreakpoint 1 n = (Ok tt, n1) ∧
    Debuggee.text (process n1) !! N.to_nat 1 = Some "INC R0" ∧
    EnableSoftwareBreakpoint 1 n1 = (Ok tt, n2) ∧
    Debuggee.text (process n2) = Debuggee.text (process n) ∧
    software_breakpoints n2 = software_breakpoints n.
Proof.
  intros n.
  refine (Disable_Enable_restores (proc := Debuggee.process)
            Debuggee.text Debuggee_TextMemory eq_refl n 1
            {| data := "INC R0"; enabled := true |} _ _ _).
  - vm_compute. reflexivity.
  - reflexivity.
  - vm_compute. reflexivity.
Defined.

(** With a breakpoint on the second instruction the debuggee holds the trap
    there, and [ReadText] returns the three instructions of the program. *)
Lemma ReadText_shows_program_witness :
  let prog := ["MOV R0, 1"; "INC R0"; "HALT"] in
  let n := (run (proc := Debuggee.process) (CmdSetBreakpoint 1)
              (Debuggee.attach (Debuggee.start prog))).2 in
  ∃ n', ReadText 0 3 n = (Ok prog, n') ∧
        view Debuggee.text n' = view Debuggee.text n.
Proof.
  intros prog n.
  refine (ReadText_shows_program (proc := Debuggee.process)
            Debuggee.text Debuggee_TextMemory eq_refl prog n 0 3 prog _ _ _).
  - exact (reachable_run (proc := Debuggee.process) Debuggee.text _ _
             (CmdSetBreakpoint 1)
             (reachable_start _ (Debuggee.attach (Debuggee.start prog)) eq_refl) I).
  - vm_compute. reflexivity.
  - reflexivity.
Defined.

(** One watchpoint on register 0: a second one and a removal keep the
    registers apart. *)
Lemma watchpoints_keep_registers_distinct_witness :
  let n := (SetWatchpointWrite (proc := Debuggee.process) 8
              (Debuggee.attach (Debuggee.start ["NOP"; "HALT"]))).2 in
  registers_distinct (watchpoints (SetWatchpointWrite 9 n).2) ∧
  registers_distinct (watchpoints (RemoveWatchpoint 8 n).2).
Proof.
  intros n.
  refine (watchpoints_keep_registers_distinct (proc := Debuggee.process) 9 8 n _ _).
  - vm_compute. discriminate.
  - assert (Hn : watchpoints n = {[ 8%N := {| type := Write; hw_reg := 0 |} ]}).
    { vm_compute. reflexivity. }
    rewrite Hn. split.
    + intros a wp Ha. apply lookup_singleton_Some in Ha as [_ <-].
      vm_compute. reflexivity.
    + intros a b wa wb Ha Hb _.
      apply lookup_singleton_Some in Ha as [<- _].
      apply lookup_singleton_Some in Hb as [<- _]. reflexivity.
Defined.

(** A watchpoint on address 8 owns debug register 0; when that register is
    the responsible one, the hardware break is reported for address 8. *)
Lemma MapReasonToEvent_HardwareBreak_witness :
  let n := (SetWatchpointWrite (proc := Debuggee.process) 8
              (Debuggee.attach (Debuggee.start ["NOP"; "HALT"]))).2 in
  ∃ n', watchpoints n' = watchpoints n ∧
        MapReasonToEvent StopReason.HardwareBreak n =
          (Ok (WatchpointTrigger Write 8), n').
Proof.
  intros n.
  destruct (MapReasonToEvent_HardwareBreak (proc := Debuggee.process)
              (arch := Debuggee.arch) Debuggee.dbg Debuggee_DebugRegisterFile n 0
              eq_refl)
    as (n' & Hw & Hfound & _).
  exists n'. split; [exact Hw|].
  assert (Hn : watchpoints n = {[ 8%N := {| type := Write; hw_reg := 0 |} ]}).
  { vm_compute. reflexivity. }
  apply (Hfound 8%N {| type := Write; hw_reg := 0 |}).
  - rewrite Hn. apply lookup_singleton_eq.
  - reflexivity.
  - intros b wb Hb _. rewrite Hn in Hb.
    apply lookup_singleton_Some in Hb as [<- _]. lia.
Defined.

(** Register [R0] of a fresh debuggee, set to 5 and read back. *)
Lemma SetRegister_GetRegister_witness :
  let n := Debuggee.attach (Debuggee.start ["NOP"; "HALT"]) in
  ∃ n1 n2,
    SetRegister (proc := Debuggee.process) "R0" 5 n = (Ok tt, n1) ∧
    Debuggee.regs (process n1) = <["R0" := 5%Z]> (Debuggee.regs (process n)) ∧
    GetRegister "R0" n1 = (Ok 5%Z, n2) ∧
    Debuggee.regs (process n2) = Debuggee.regs (process n1).
Proof.
  intros n.
  exact (SetRegister_GetRegister (proc := Debuggee.process)
           Debuggee.regs Debuggee_RegisterFile n "R0" 5).
Defined.

(** A single step from an address with an enabled breakpoint: one enabled
    breakpoint, depth 2. *)
Lemma PerformSingleStep_ends_witness :
  let n := (SetBreakpoint (proc := Debuggee.process) 0
              (Debuggee.attach (Debuggee.start ["NOP"; "HALT"]))).2 in
  ends (PerformSingleStep 2 n).1.
Proof.
  intros n.
  refine (PerformSingleStep_ends (proc := Debuggee.process)
            Debuggee_ProcessEnds 2 n _).
  vm_compute. lia.
Defined.

(** Running into a breakpoint at address 1: the process stops with [IP]
    at 2, the event is for address 1 and [IP] is 1. *)
Lemma WaitForDebugEvent_reports_hit_witness :
  let n := ((SetBreakpoint (proc := Debuggee.process) 1 ;; ContinueExecution 2)
              (Debuggee.attach (Debuggee.start ["NOP"; "NOP"; "HALT"]))).2 in
  ∃ n',
    WaitForDebugEvent n = (Ok (BreakpointHit Software 1), n') ∧
    Debuggee.regs (process n') =
      <["IP" := 1%Z]> (Debuggee.regs (Debuggee.GetReason (Debuggee.Wait (process n)).2).2) ∧
    IP_of Debuggee.regs n' = Some 1%N ∧
    cached_event n' = None.
Proof.
  intros n.
  refine (WaitForDebugEvent_reports_hit (proc := Debuggee.process)
            Debuggee.regs Debuggee_RegisterFile n
            (Debuggee.Wait (process n)).2
            (Debuggee.GetReason (Debuggee.Wait (process n)).2).2 2 _ _ _ _).
  - reflexivity.
  - vm_compute. reflexivity.
  - vm_compute. reflexivity.
  - vm_compute. reflexivity.
Defined.

(** A single step from address 0, where a breakpoint is enabled. *)
Lemma PerformSingleStep_keeps_breakpoints_witness :
  let n := (SetBreakpoint (proc := Debuggee.process) 0
              (Debuggee.attach (Debuggee.start ["NOP"; "HALT"]))).2 in
  let n' := (PerformSingleStep 2 n).2 in
  Debuggee.text (process n') = Debuggee.text (process n) ∧
  software_breakpoints n' = software_breakpoints n.
Proof.
  intros n n'.
  refine (PerformSingleStep_keeps_breakpoints (proc := Debuggee.process)
            Debuggee.text Debuggee_TextMemory eq_refl
            Debuggee_ExecutionLeavesText 2 n n' Singlestep _ _).
  - assert (Hn : software_breakpoints n = {[ 0%N := {| data := "NOP"; enabled := true |} ]}).
    { vm_compute. reflexivity. }
    intros a bp Ha _. rewrite Hn in Ha.
    apply lookup_singleton_Some in Ha as [<- _]. vm_compute. reflexivity.
  - vm_compute. reflexivity.
Defined.

(** A text of two words: five words read from address 1, three written. *)
Lemma text_range_checked_witness :
  let n := Debuggee.attach (Debuggee.start ["NOP"; "HALT"]) in
  (∃ msg n', ReadText (proc := Debuggee.process) 1 5 n =
               (Throw (DebuggerError msg), n') ∧
             view Debuggee.text n' = view Debuggee.text n) ∧
  (∃ msg n', WriteText (proc := Debuggee.process) 1 ["INC R0"; "INC R0"; "HALT"] n =
               (Throw (DebuggerError msg), n') ∧
             view Debuggee.text n' = view Debuggee.text n).
Proof.
  intros n.
  destruct (text_range_checked (proc := Debuggee.process) (arch := Debuggee.arch)
              Debuggee.text Debuggee_TextMemory n 1 5
              ["INC R0"; "INC R0"; "HALT"]) as [Hread Hwrite].
  split; [apply Hread|apply Hwrite]; vm_compute; reflexivity.
Defined.

End Scenarios.

End NativeMore.

(** ** Further properties of the assembly parser *)

Module AsmMore.
Import Asm AsmSpec AsmMeasure AsmText AsmProps.

(** *** The lexer consumes its input *)

Lemma GetChar_unread (l : Lexer.t) :
  ∃ c l', Lexer.GetChar l = (Ok c, l') ∧ Lexer.lookahead l' = c ∧
          (unread l' ≤ length (Lexer.input l))%nat ∧
          (length (Lexer.input l') ≤ length (Lexer.input l) - 1)%nat ∧
          (Lexer.input l = [] → c = EOF).
Proof.
  unfold Lexer.GetChar.
  destruct (if is_char (Lexer.lookahead l) "010"
            then (wrap64 (Lexer.row l + 1), 0%N)
            else (Lexer.row l, wrap64 (Lexer.col l + 1))) as [r c].
  destruct (Lexer.input l) as [|x s] eqn:E; simpl.
  - eexists _, _. split; [reflexivity|]. simpl. unfold unread. simpl.
    split; [reflexivity|]. split; [|split; [lia|reflexivity]].
    lia.
  - eexists _, _. split; [reflexivity|]. simpl. unfold unread. simpl.
    split; [reflexivity|]. split; [|split; [lia|discriminate]].
    destruct (is_char x EOF); lia.
Qed.

Lemma EOF_is_no_token_character :
  is_char EOF "." = false ∧ isdigit EOF = false ∧ isalnum EOF = false ∧
  is_char EOF "_" = false ∧ is_char EOF "034" = false ∧ is_char EOF "#" = false ∧
  isspace EOF = false ∧ is_char EOF "010" = false.
Proof. vm_compute. repeat split; reflexivity. Qed.

Lemma unread_lookahead (l : Lexer.t) :
  is_char (Lexer.lookahead l) EOF = false →
  unread l = S (length (Lexer.input l)).
Proof. intros H. unfold unread. rewrite H. lia. Qed.

Lemma unread_input (l : Lexer.t) : (length (Lexer.input l) ≤ unread l)%nat.
Proof. unfold unread. lia. Qed.

Lemma is_char_true (c d : ascii) : is_char c d = true → c = d.
Proof. unfold is_char. intros H. apply bool_decide_eq_true_1 in H. exact H. Qed.

(** A character that was read and is not the end of the input was in the
    stream. *)
Lemma GetChar_consumed (l l' : Lexer.t) (c : ascii) :
  Lexer.GetChar l = (Ok c, l') → is_char c EOF = false →
  (S (length (Lexer.input l')) ≤ length (Lexer.input l))%nat.
Proof.
  intros E Hc. destruct (GetChar_unread l) as (c' & l1 & E' & _ & _ & Hlen & Hempty).
  rewrite E in E'. injection E' as <- <-.
  destruct (Lexer.input l) as [|x s] eqn:Ei.
  - rewrite (Hempty eq_refl) in Hc. vm_compute in Hc. discriminate.
  - revert E. unfold Lexer.GetChar. rewrite Ei. simpl.
    destruct (is_char (Lexer.lookahead l) "010"); intros [= _ <-]; simpl; lia.
Qed.

Lemma str_push_back_bind {A} (c : ascii) (m : M Lexer.t A) (l : Lexer.t) :
  bind (Lexer.str_push_back c) (λ _, m) l =
  m (Lexer.set_str (push_back (Lexer.str l) c) l).
Proof. reflexivity. Qed.

Lemma within_mono {A} (b b' : nat) (r : outcome A * Lexer.t) :
  (b ≤ b')%nat → within b r → within b' r.
Proof. intros Hb [H1 H2]. split; [exact H1|lia]. Qed.

Lemma bind_within {A B} (m : M Lexer.t A) (k : A → M Lexer.t B) (l : Lexer.t)
    (b : nat) :
  within b (m l) →
  (∀ a l1, m l = (Ok a, l1) → within b (k a l1)) →
  within b (bind m k l).
Proof.
  unfold bind. intros Hm Hk. destruct (m l) as [[a| |] l1]; auto.
Qed.

Lemma ParseString_loop_reads : ∀ (fuel : nat) (l : Lexer.t),
  (length (Lexer.input l) < fuel)%nat →
  within (length (Lexer.input l)) (Lexer.ParseString_loop fuel l).
Proof.
  induction fuel as [|fuel IH]; intros l Hf; [lia|].
  cbn [Lexer.ParseString_loop].
  destruct (GetChar_unread l) as (c & l1 & E & Hc & Hu & Hlen & _).
  unfold bind at 1. rewrite E.
  destruct (is_char c "034"); [split; [exact I|exact Hu]|].
  destruct (is_char c EOF) eqn:Heof; [split; [exact I|exact Hu]|].
  pose proof (GetChar_consumed _ _ _ E Heof) as Hin.
  destruct (is_char c "\").
  - destruct (GetChar_unread l1) as (e & l2 & E2 & _ & Hu2 & Hlen2 & _).
    unfold bind at 1. rewrite E2.
    assert (Hgo : ∀ x,
      within (length (Lexer.input l))
        (Lexer.ParseString_loop fuel
           (Lexer.set_str (push_back (Lexer.str l2) x) l2))).
    { intros x. eapply within_mono; [|apply IH]; simpl; lia. }
    destruct (is_char e "n"); [rewrite str_push_back_bind; apply Hgo|].
    destruct (is_char e "t"); [rewrite str_push_back_bind; apply Hgo|].
    destruct (is_char e "\"); [rewrite str_push_back_bind; apply Hgo|].
    destruct (is_char e "034"); [rewrite str_push_back_bind; apply Hgo|].
    split; [exact I|]. simpl. pose proof (unread_input l1). lia.
  - rewrite str_push_back_bind.
    eapply within_mono; [|apply IH]; simpl; lia.
Qed.

Lemma ParseNumber_loop_reads : ∀ (fuel : nat) (num : string) (is_float : bool)
    (l : Lexer.t),
  (length (Lexer.input l) < fuel)%nat →
  within (length (Lexer.input l)) (Lexer.ParseNumber_loop fuel num is_float l).
Proof.
  induction fuel as [|fuel IH]; intros num is_float l Hf; [lia|].
  cbn [Lexer.ParseNumber_loop].
  destruct (GetChar_unread l) as (c & l1 & E & Hc & Hu & Hlen & Hempty).
  unfold bind at 1. rewrite E.
  assert (Hne : is_char c "." = true ∨ isdigit c = true →
                (S (length (Lexer.input l1)) ≤ length (Lexer.input l))%nat).
  { intros Hd. apply (GetChar_consumed _ _ _ E).
    destruct (is_char c EOF) eqn:Heof; [|reflexivity].
    apply is_char_true in Heof. rewrite Heof in Hd.
    destruct EOF_is_no_token_character as (H1 & H2 & _).
    rewrite H1, H2 in Hd. destruct Hd; discriminate. }
  destruct (is_char c ".") eqn:Hdot.
  - specialize (Hne ltac:(auto)). eapply within_mono; [|apply IH]; lia.
  - destruct (isdigit c) eqn:Hdig; simpl.
    + specialize (Hne ltac:(auto)). eapply within_mono; [|apply IH]; lia.
    + split; [exact I|exact Hu].
Qed.

Lemma ParseIdentifier_loop_reads : ∀ (fuel : nat) (s : string) (l : Lexer.t),
  (length (Lexer.input l) < fuel)%nat →
  within (length (Lexer.input l)) (Lexer.ParseIdentifier_loop fuel s l).
Proof.
  induction fuel as [|fuel IH]; intros s l Hf; [lia|].
  cbn [Lexer.ParseIdentifier_loop].
  destruct (GetChar_unread l) as (c & l1 & E & Hc & Hu & Hlen & Hempty).
  unfold bind at 1. rewrite E.
  destruct (negb (isalnum c) && negb (is_char c "_")) eqn:Hstop; simpl.
  - split; [exact I|exact Hu].
  - assert (Hin : (S (length (Lexer.input l1)) ≤ length (Lexer.input l))%nat).
    { apply (GetChar_consumed _ _ _ E).
      destruct (is_char c EOF) eqn:Heof; [|reflexivity].
      apply is_char_true in Heof. rewrite Heof in Hstop.
      destruct EOF_is_no_token_character as (_ & _ & H3 & H4 & _).
      rewrite H3, H4 in Hstop. discriminate. }
    eapply within_mono; [|apply IH]; lia.
Qed.

(** Skipping a comment that has at least one character left reads it. *)
Lemma skip_comment_reads : ∀ (fuel : nat) (l : Lexer.t),
  (unread l < fuel)%nat →
  within (unread l -
          (if negb (is_char (Lexer.lookahead l) EOF) &&
              negb (is_char (Lexer.lookahead l) "010") then 1 else 0))
         (Lexer.skip_comment fuel l).
Proof.
  induction fuel as [|fuel IH]; intros l Hf; [lia|].
  cbn [Lexer.skip_comment]. unfold bind at 1, get at 1.
  destruct (negb (is_char (Lexer.lookahead l) EOF) &&
            negb (is_char (Lexer.lookahead l) "010")) eqn:Hgo.
  2:{ split; [exact I|]. simpl. lia. }
  apply andb_true_iff in Hgo as [Heof _]. apply negb_true_iff in Heof.
  destruct (GetChar_unread l) as (c & l1 & E & Hc & Hu & Hlen & Hempty).
  unfold bind at 1. rewrite E.
  pose proof (unread_lookahead l Heof) as Hl.
  eapply within_mono; [|apply IH]; [|lia].
  destruct (negb _ && negb _); lia.
Qed.

Lemma lexed_mono (b b' : nat) (r : outcome Token * Lexer.t) :
  (b ≤ b')%nat → lexed b r → lexed b' r.
Proof.
  intros Hb [[H1 H2] H3]. split; [split; [exact H1|lia]|].
  intros tok Ht Hk. specialize (H3 tok Ht Hk). lia.
Qed.

Lemma lexed_below (b b' : nat) (r : outcome Token * Lexer.t) :
  (b < b')%nat → within b r → lexed b' r.
Proof.
  intros Hb [H1 H2]. split; [split; [exact H1|lia]|]. intros tok _ _. lia.
Qed.

(** A token whose characters are read by [m]. *)
Lemma token_lexed {A} (m : M Lexer.t A) (f : A → TokenKind) (l : Lexer.t) :
  is_char (Lexer.lookahead l) EOF = false →
  within (length (Lexer.input l)) (m l) →
  lexed (unread l) (bind m (λ a, Lexer.MakeToken (f a)) l).
Proof.
  intros Heof Hm. apply lexed_below with (b := length (Lexer.input l)).
  { rewrite (unread_lookahead l Heof). lia. }
  apply bind_within; [exact Hm|]. intros a l1 E. rewrite E in Hm.
  destruct Hm as [_ Hu]. split; [exact I|exact Hu].
Qed.

Lemma GetChar_within (l : Lexer.t) :
  within (length (Lexer.input l)) (Lexer.GetChar l).
Proof.
  destruct (GetChar_unread l) as (c & l1 & E & _ & Hu & _). rewrite E.
  split; [exact I|exact Hu].
Qed.

Lemma ParseString_reads (fuel : nat) (l : Lexer.t) :
  (length (Lexer.input l) < fuel)%nat →
  within (length (Lexer.input l)) (Lexer.ParseString fuel l).
Proof.
  intros Hf. unfold Lexer.ParseString. unfold bind at 1, modify at 1.
  pose proof (ParseString_loop_reads fuel (Lexer.set_str "" l) Hf) as Hl.
  change (Lexer.input (Lexer.set_str "" l)) with (Lexer.input l) in Hl.
  apply bind_within; [exact Hl|]. intros [] l1 E. rewrite E in Hl.
  destruct Hl as [_ Hu]. simpl in Hu.
  apply bind_within.
  - eapply within_mono; [|apply GetChar_within]. pose proof (unread_input l1). lia.
  - intros c l2 E2. pose proof (GetChar_within l1) as H. rewrite E2 in H.
    destruct H as [_ H]. simpl in H. split; [exact I|]. simpl.
    pose proof (unread_input l1). lia.
Qed.

Lemma stoi_ends (s : string) : ends (stoi s).
Proof.
  unfold stoi. destruct (split_sign _) as [sign ds].
  destruct ds as [|c ds]; [exact I|].
  destruct (isdigit c); [|exact I].
  destruct (_ && _); exact I.
Qed.

Lemma ParseNumber_reads (fuel : nat) (l : Lexer.t) :
  (length (Lexer.input l) < fuel)%nat →
  within (length (Lexer.input l)) (Lexer.ParseNumber fuel l).
Proof.
  intros Hf. unfold Lexer.ParseNumber. unfold bind at 1, get at 1.
  set (neg := if is_char (Lexer.lookahead l) "-" then (-1)%Z else 1%Z).
  match goal with |- within _ (bind _ ?k l) => set (rest := k) end.
  assert (Hrest : ∀ l1, (length (Lexer.input l1) < fuel)%nat →
            within (length (Lexer.input l1)) (rest tt l1)).
  { intros l1 Hf1. unfold rest. unfold bind at 1, get at 1.
    pose proof (ParseNumber_loop_reads fuel (String (Lexer.lookahead l1) "") false l1
                  Hf1) as Hloop.
    apply bind_within; [exact Hloop|].
    intros [num is_float] l2 E2. rewrite E2 in Hloop. destruct Hloop as [_ Hu2].
    simpl in Hu2.
    destruct is_float.
    - destruct (stod_converts num); split; try exact I;
        unfold unread in *; simpl in *; lia.
    - unfold bind at 1, lift_outcome at 1. pose proof (stoi_ends num) as Hs.
      destruct (stoi num) as [v| |]; [| |contradiction]; split; try exact I;
        unfold unread in *; simpl in *; lia. }
  clearbody rest. unfold bind.
  destruct (neg =? -1)%Z.
  - destruct (GetChar_unread l) as (c & l1 & E & _ & Hu & Hlen & _).
    rewrite E. simpl. eapply within_mono; [|apply Hrest]; lia.
  - simpl. apply Hrest. exact Hf.
Qed.

Lemma ParseIdentifier_reads (fuel : nat) (l : Lexer.t) :
  (length (Lexer.input l) < fuel)%nat →
  within (length (Lexer.input l)) (Lexer.ParseIdentifier fuel l).
Proof.
  intros Hf. unfold Lexer.ParseIdentifier. unfold bind at 1, get at 1.
  pose proof (ParseIdentifier_loop_reads fuel (String (Lexer.lookahead l) "") l Hf)
    as Hloop.
  apply bind_within; [exact Hloop|]. intros s l1 E. rewrite E in Hloop.
  destruct Hloop as [_ Hu]. split; [exact I|exact Hu].
Qed.

(** The lexer reads what it returns: a call of [getNext] with the fuel the
    parser hands it ends, leaves no more to read than there was, and less
    when it returns a token other than the end token. *)
Lemma getNext_lexed : ∀ (fuel : nat) (l : Lexer.t),
  (unread l + 2 ≤ fuel)%nat →
  lexed (unread l) (Lexer.getNext fuel l).
Proof.
  induction fuel as [|fuel IH]; intros l Hf; [lia|].
  cbn [Lexer.getNext]. unfold bind at 1, get at 1.
  destruct (is_char (Lexer.lookahead l) "#") eqn:Hhash.
  { (* a comment *)
    apply is_char_true in Hhash.
    pose proof (skip_comment_reads fuel l ltac:(lia)) as Hs.
    rewrite Hhash in Hs. change (negb (is_char "#" EOF) && negb (is_char "#" "010"))
      with true in Hs.
    assert (Hpos : (0 < unread l)%nat).
    { rewrite unread_lookahead; [lia|]. rewrite Hhash. reflexivity. }
    unfold bind at 1.
    destruct (Lexer.skip_comment fuel l) as [[[]| |] l1]; destruct Hs as [He Hu];
      simpl in He, Hu; [|apply lexed_below with (b := unread l1);
                          [lia|split; [exact I|simpl; lia]]|contradiction].
    unfold bind at 1, get at 1.
    assert (Hnl : within (unread l1)
              ((if is_char (Lexer.lookahead l1) "010"
                then bind Lexer.GetChar (λ _, ret tt) else ret tt) l1)).
    { destruct (is_char (Lexer.lookahead l1) "010").
      - apply bind_within.
        + eapply within_mono; [|apply GetChar_within]. apply unread_input.
        + intros c l2 E. pose proof (GetChar_within l1) as H. rewrite E in H.
          eapply within_mono; [|exact H]. apply unread_input.
      - split; [exact I|]. simpl. lia. }
    unfold bind at 1.
    destruct ((if is_char (Lexer.lookahead l1) "010"
               then bind Lexer.GetChar (λ _, ret tt) else ret tt) l1)
      as [[[]| |] l2]; destruct Hnl as [He2 Hu2]; simpl in He2, Hu2;
      [|apply lexed_below with (b := unread l2);
         [lia|split; [exact I|simpl; lia]]|contradiction].
    eapply lexed_mono; [|apply IH]; lia. }
  destruct (isspace (Lexer.lookahead l)) eqn:Hspace.
  { (* white space *)
    assert (Heof : is_char (Lexer.lookahead l) EOF = false).
    { destruct (is_char (Lexer.lookahead l) EOF) eqn:Heof; [|reflexivity].
      apply is_char_true in Heof. rewrite Heof in Hspace.
      vm_compute in Hspace. discriminate. }
    pose proof (unread_lookahead l Heof) as Hl.
    destruct (GetChar_unread l) as (c & l1 & E & _ & Hu & _).
    unfold bind at 1. rewrite E.
    eapply lexed_mono; [|apply IH]; lia. }
  unfold bind at 1, Lexer.RecordTokLoc at 1, modify at 1.
  set (l0 := {| Lexer.input := Lexer.input l; Lexer.lookahead := Lexer.lookahead l;
                Lexer.row := Lexer.row l; Lexer.col := Lexer.col l;
                Lexer.tok_begin_row := Lexer.row l;
                Lexer.tok_begin_col := Lexer.col l;
                Lexer.number := Lexer.number l;
                Lexer.float_number := Lexer.float_number l;
                Lexer.id := Lexer.id l; Lexer.str := Lexer.str l |}).
  change (unread l) with (unread l0).
  assert (Hf0 : (length (Lexer.input l0) < fuel)%nat).
  { pose proof (unread_input l). simpl. lia. }
  change (Lexer.lookahead l) with (Lexer.lookahead l0).
  destruct (is_char (Lexer.lookahead l0) EOF) eqn:Heof.
  { split; [split; [exact I|simpl; lia]|].
    intros tok [= <-] Hk. simpl in Hk. contradiction. }
  assert (Hone : ∀ k, lexed (unread l0)
            (bind Lexer.GetChar (λ _, Lexer.MakeToken k) l0)).
  { intros k. apply (token_lexed Lexer.GetChar (λ _, k) l0 Heof).
    apply GetChar_within. }
  destruct (is_char (Lexer.lookahead l0) ";"); [apply Hone|].
  destruct (is_char (Lexer.lookahead l0) ","); [apply Hone|].
  destruct (is_char (Lexer.lookahead l0) "["); [apply Hone|].
  destruct (is_char (Lexer.lookahead l0) "]"); [apply Hone|].
  destruct (is_char (Lexer.lookahead l0) "+"); [apply Hone|].
  destruct (is_char (Lexer.lookahead l0) "*"); [apply Hone|].
  destruct (is_char (Lexer.lookahead l0) "."); [apply Hone|].
  destruct (is_char (Lexer.lookahead l0) "034").
  { apply (token_lexed (Lexer.ParseString fuel) (λ _, STRING) l0 Heof).
    apply ParseString_reads. exact Hf0. }
  destruct (isdigit (Lexer.lookahead l0) || is_char (Lexer.lookahead l0) "-").
  { apply (token_lexed (Lexer.ParseNumber fuel) (λ k, k) l0 Heof).
    apply ParseNumber_reads. exact Hf0. }
  destruct (isalpha (Lexer.lookahead l0) || is_char (Lexer.lookahead l0) "_").
  { apply (token_lexed (Lexer.ParseIdentifier fuel) (λ _, ID) l0 Heof).
    apply ParseIdentifier_reads. exact Hf0. }
  split; [split; [exact I|simpl; lia]|]. intros tok H. discriminate.
Qed.

(** *** The parser consumes its tokens *)

Lemma advances_mono {A} (b b' : nat) (r : outcome A * Parser.t) :
  (b ≤ b')%nat → advances b r → advances b' r.
Proof. intros Hb [H1 H2]. split; [exact H1|lia]. Qed.

Lemma consumes_mono {A} (b b' : nat) (r : outcome A * Parser.t) :
  (b ≤ b')%nat → consumes b r → consumes b' r.
Proof.
  intros Hb [H1 H2]. split; [eapply advances_mono; eauto|].
  intros a Ha. specialize (H2 a Ha). lia.
Qed.

Lemma consumes_below {A} (b b' : nat) (r : outcome A * Parser.t) :
  (b < b')%nat → advances b r → consumes b' r.
Proof.
  intros Hb [H1 H2]. split; [split; [exact H1|lia]|]. intros a _. lia.
Qed.

Lemma bind_advances {A B} (m : M Parser.t A) (k : A → M Parser.t B)
    (p : Parser.t) (b : nat) :
  advances b (m p) →
  (∀ a p1, m p = (Ok a, p1) → advances b (k a p1)) →
  advances b (bind m k p).
Proof.
  unfold bind. intros Hm Hk. destruct (m p) as [[a| |] p1]; auto.
Qed.

Lemma steady_bind {A B} (m : M Parser.t A) (k : A → M Parser.t B) :
  steady m → (∀ a, steady (k a)) → steady (bind m k).
Proof.
  intros Hm Hk p. apply bind_advances; [apply Hm|].
  intros a p1 E. specialize (Hm p). rewrite E in Hm. destruct Hm as [_ Hp].
  eapply advances_mono; [|apply Hk]. exact Hp.
Qed.

Lemma steady_ret {A} (a : A) : steady (ret a).
Proof. intros p. split; [exact I|]. simpl. lia. Qed.

Lemma steady_throw {A} (e : exn) : steady (@throw Parser.t A e).
Proof. intros p. split; [exact I|]. simpl. lia. Qed.

Lemma steady_gets {A} (f : Parser.t → A) : steady (gets f).
Proof. intros p. split; [exact I|]. simpl. lia. Qed.

Lemma steady_throw_CreateError {A} (message : string) :
  steady (@Parser.throw_CreateError A message).
Proof. intros p. split; [exact I|]. simpl. lia. Qed.

Lemma steady_ExpectTok (expected tok : TokenKind) (message : string) :
  steady (Parser.ExpectTok expected tok message).
Proof.
  unfold Parser.ExpectTok. case_bool_decide; [apply steady_throw|apply steady_ret].
Qed.

Lemma steady_push_instruction (i : t86.Instruction) :
  steady (modify (Parser.push_instruction i)).
Proof. intros p. split; [exact I|]. simpl. unfold pending. simpl. lia. Qed.

Lemma steady_push_data (ws : list Z) : steady (modify (Parser.push_data ws)).
Proof. intros p. split; [exact I|]. simpl. unfold pending. simpl. lia. Qed.

Lemma lex_getNext_lexed (p : Parser.t) :
  ∃ r l', Parser.lex_getNext p = (r, Parser.set_lex l' p) ∧
          lexed (unread (Parser.lex p)) (r, l').
Proof.
  unfold Parser.lex_getNext, bind, get, Parser.lexer.
  pose proof (getNext_lexed (Parser.lexer_fuel p) (Parser.lex p)) as H.
  destruct (Lexer.getNext (Parser.lexer_fuel p) (Parser.lex p)) as [r l'].
  exists r, l'. split; [reflexivity|]. apply H.
  unfold Parser.lexer_fuel, unread. destruct (is_char _ _); lia.
Qed.

(** Fetching a token never leaves more pending, and leaves less when the
    current token was not the end token. *)
Lemma next_token_consumes {A} (f : Token → Token → A) (p : Parser.t) :
  let m := bind Parser.lex_getNext (λ tok,
             bind (modify (Parser.set_curtok tok))
                  (λ _, ret (f (Parser.curtok p) tok))) in
  advances (pending p) (m p) ∧
  (kind (Parser.curtok p) ≠ END → consumes (pending p) (m p)).
Proof.
  intros m.
  destruct (lex_getNext_lexed p) as (r & l' & E & [[He Hu] Hstrict]).
  assert (Em : m p = match r with
                     | Ok tok => (Ok (f (Parser.curtok p) tok),
                                  Parser.set_curtok tok (Parser.set_lex l' p))
                     | Throw e => (Throw e, Parser.set_lex l' p)
                     | OutOfFuel => (OutOfFuel, Parser.set_lex l' p)
                     end).
  { unfold m, bind. rewrite E. destruct r; reflexivity. }
  rewrite Em. clear Em m. simpl in He, Hu, Hstrict.
  destruct r as [tok| |]; [| |contradiction].
  - assert (Hp : (pending (Parser.set_curtok tok (Parser.set_lex l' p))
                  ≤ pending p)%nat ∧
                 (kind (Parser.curtok p) ≠ END →
                  (pending (Parser.set_curtok tok (Parser.set_lex l' p))
                   < pending p)%nat)).
    { unfold pending. simpl.
      destruct (decide (kind tok = END)) as [Hk|Hk].
      - rewrite (bool_decide_eq_true_2 _ Hk). split.
        + destruct (bool_decide (kind (Parser.curtok p) = END)); lia.
        + intros Hc. rewrite (bool_decide_eq_false_2 _ Hc). lia.
      - rewrite (bool_decide_eq_false_2 _ Hk).
        specialize (Hstrict tok eq_refl Hk). split.
        + destruct (bool_decide (kind (Parser.curtok p) = END)); lia.
        + intros Hc. rewrite (bool_decide_eq_false_2 _ Hc). lia. }
    destruct Hp as [Hle Hlt].
    split; [split; [exact I|exact Hle]|].
    intros Hc. split; [split; [exact I|exact Hle]|]. intros a _. simpl. auto.
  - assert (Hle : (pending (Parser.set_lex l' p) ≤ pending p)%nat).
    { unfold pending. simpl. lia. }
    split; [split; [exact I|exact Hle]|].
    intros Hc. split; [split; [exact I|exact Hle]|]. intros a H. discriminate.
Qed.

Lemma GetNext_consumes (p : Parser.t) :
  advances (pending p) (Parser.GetNext p) ∧
  (kind (Parser.curtok p) ≠ END → consumes (pending p) (Parser.GetNext p)).
Proof. exact (next_token_consumes (λ _ tok, kind tok) p). Qed.

Lemma GetNextPrev_consumes (p : Parser.t) :
  advances (pending p) (Parser.GetNextPrev p) ∧
  (kind (Parser.curtok p) ≠ END → consumes (pending p) (Parser.GetNextPrev p)).
Proof. exact (next_token_consumes (λ prev _, kind prev) p). Qed.

Lemma steady_GetNext : steady Parser.GetNext.
Proof. intros p. exact (proj1 (GetNext_consumes p)). Qed.

Lemma steady_GetNextPrev : steady Parser.GetNextPrev.
Proof. intros p. exact (proj1 (GetNextPrev_consumes p)). Qed.

Create HintDb steady.

#[local] Hint Resolve steady_ret steady_throw steady_throw_CreateError
  steady_GetNext steady_GetNextPrev steady_ExpectTok steady_gets
  steady_push_instruction steady_push_data : steady.

Ltac steady_step :=
  first
    [ solve [auto 1 with steady nocore]
    | apply steady_bind; [|intros ?]
    | match goal with
      | |- steady (if ?b then _ else _) => destruct b
      | |- steady (match ?x with _ => _ end) => destruct x
      end ].

Ltac steady_tac := repeat steady_step.

Lemma steady_getRegister (regname : string) : steady (Parser.getRegister regname).
Proof. unfold Parser.getRegister. steady_tac. Qed.

#[local] Hint Resolve steady_getRegister : steady.

Lemma steady_Register : steady Parser.Register.
Proof. unfold Parser.Register, Parser.curkind, Parser.getId. steady_tac. Qed.

Lemma steady_Imm : steady Parser.Imm.
Proof. unfold Parser.Imm, Parser.curkind, Parser.getNumber. steady_tac. Qed.

#[local] Hint Resolve steady_Register steady_Imm : steady.

Lemma steady_ImmOrRegister : steady Parser.ImmOrRegister.
Proof. unfold Parser.ImmOrRegister, Parser.curkind. steady_tac. Qed.

Lemma steady_SimpleMemory : steady Parser.SimpleMemory.
Proof. unfold Parser.SimpleMemory, Parser.curkind. steady_tac. Qed.

#[local] Hint Resolve steady_ImmOrRegister steady_SimpleMemory : steady.

Lemma steady_ImmOrRegisterOrSimpleMemory :
  steady Parser.ImmOrRegisterOrSimpleMemory.
Proof. unfold Parser.ImmOrRegisterOrSimpleMemory, Parser.curkind. steady_tac. Qed.

Lemma steady_Operand : steady Parser.Operand.
Proof.
  unfold Parser.Operand, Parser.curkind, Parser.getId, Parser.getNumber.
  steady_tac.
Qed.

#[local] Hint Resolve steady_ImmOrRegisterOrSimpleMemory steady_Operand : steady.

Lemma steady_parse_operand (f : Parser.operand_parser) :
  steady (Parser.parse_operand f).
Proof. destruct f; simpl; steady_tac. Qed.

Lemma steady_expect_comma : steady Parser.expect_comma.
Proof. unfold Parser.expect_comma, Parser.curkind. steady_tac. Qed.

Lemma steady_Operand_getRegister (o : t86.Operand) :
  steady (Parser.Operand_getRegister o).
Proof. destruct o; simpl; steady_tac. Qed.

#[local] Hint Resolve steady_parse_operand steady_expect_comma
  steady_Operand_getRegister : steady.

Lemma bind_consumes {A B} (m : M Parser.t A) (k : A → M Parser.t B)
    (p : Parser.t) (b : nat) :
  consumes b (m p) → (∀ a, steady (k a)) → consumes b (bind m k p).
Proof.
  intros [[He Hle] Hlt] Hk. unfold bind.
  destruct (m p) as [[a| |] p1] eqn:E; simpl in *.
  - specialize (Hlt a eq_refl). destruct (Hk a p1) as [He1 Hle1].
    split; [split; [exact He1|lia]|]. intros b' _. lia.
  - split; [split; [exact I|exact Hle]|]. intros b' H. discriminate.
  - contradiction.
Qed.

Lemma bind_pure_consumes {A B} (m : M Parser.t A) (k : A → M Parser.t B)
    (p : Parser.t) (a : A) (b : nat) :
  m p = (Ok a, p) → consumes b (k a p) → consumes b (bind m k p).
Proof. intros E H. unfold bind. rewrite E. exact H. Qed.

Lemma consumes_throw {A} (e : exn) (p : Parser.t) :
  consumes (pending p) (@throw Parser.t A e p).
Proof.
  split; [split; [exact I|simpl; lia]|]. intros a H. discriminate.
Qed.

(** An instruction is at least one token. *)
Lemma Instruction_consumes (p : Parser.t) :
  kind (Parser.curtok p) = NUM ∨ kind (Parser.curtok p) = ID →
  consumes (pending p) (Parser.Instruction p).
Proof.
  intros Hk. unfold Parser.Instruction.
  eapply bind_pure_consumes; [reflexivity|].
  assert (Htail : ∀ ins_name : string, steady
    (if bool_decide (ins_name = "MOV")
     then dest <- Parser.Operand;;
          Parser.expect_comma;; from <- Parser.Operand;; ret (t86.MOV dest from)
     else
      if bool_decide (ins_name = "LEA")
      then dest <- Parser.Operand;;
           Parser.expect_comma;;
           from <- Parser.Operand;;
           reg <- Parser.Operand_getRegister dest;; ret (t86.LEA reg from)
      else
       match Parser.lookup_instruction ins_name Parser.instruction_table with
       | Some (Parser.BinaryShape from_parse) =>
           dest <- Parser.Register;;
           Parser.expect_comma;;
           from <- Parser.parse_operand from_parse;;
           ret (t86.Binary ins_name dest from)
       | Some (Parser.UnaryShape operand_parse) =>
           op <- Parser.parse_operand operand_parse;; ret (t86.Unary ins_name op)
       | Some Parser.NullaryShape => ret (t86.Nullary ins_name)
       | None =>
           if bool_decide (ins_name = "DBG")
           then throw (ParserError "DBG instruction is not supported")
           else throw (ParserError ("Unknown instruction " +:+ ins_name))
       end)).
  { intros ins_name. steady_tac. }
  destruct (decide (kind (Parser.curtok p) = NUM)) as [Hnum|Hnum].
  - rewrite (bool_decide_eq_true_2 _ Hnum).
    apply bind_consumes.
    + apply bind_consumes; [|intros; apply steady_ret].
      apply GetNextPrev_consumes. rewrite Hnum. discriminate.
    + intros _. unfold Parser.curkind, Parser.getId. steady_tac.
  - rewrite (bool_decide_eq_false_2 _ Hnum).
    destruct Hk as [Hk|Hk]; [contradiction|].
    eapply bind_pure_consumes; [reflexivity|].
    eapply bind_pure_consumes; [reflexivity|]. simpl.
    eapply bind_pure_consumes.
    { unfold Parser.ExpectTok. rewrite bool_decide_eq_false_2 by (rewrite Hk; auto).
      reflexivity. }
    eapply bind_pure_consumes; [reflexivity|].
    apply bind_consumes; [|intros; apply Htail].
    apply GetNextPrev_consumes. rewrite Hk. discriminate.
Qed.

Lemma Text_advances : ∀ (fuel : nat) (p : Parser.t),
  (pending p < fuel)%nat → advances (pending p) (Parser.Text fuel p).
Proof.
  induction fuel as [|fuel IH]; intros p Hf; [lia|].
  cbn [Parser.Text]. unfold bind at 1, Parser.curkind at 1, gets at 1.
  destruct (bool_decide (kind (Parser.curtok p) = NUM) ||
            bool_decide (kind (Parser.curtok p) = ID)) eqn:Hk.
  2:{ apply steady_ret. }
  assert (Hk' : kind (Parser.curtok p) = NUM ∨ kind (Parser.curtok p) = ID).
  { apply orb_true_iff in Hk as [Hk|Hk]; apply bool_decide_eq_true_1 in Hk; auto. }
  destruct (Instruction_consumes p Hk') as [Hadv Hlt].
  apply bind_advances; [exact Hadv|]. intros ins p1 E. rewrite E in Hlt.
  specialize (Hlt ins eq_refl). simpl in Hlt.
  unfold bind at 1, modify at 1.
  eapply advances_mono; [|apply IH].
  - unfold pending in *. simpl. lia.
  - unfold pending in *. simpl. lia.
Qed.

Lemma Data_advances : ∀ (fuel : nat) (p : Parser.t),
  (pending p < fuel)%nat → advances (pending p) (Parser.Data fuel p).
Proof.
  induction fuel as [|fuel IH]; intros p Hf; [lia|].
  cbn [Parser.Data]. unfold bind at 1, Parser.curkind at 1, gets at 1.
  assert (Hgo : ∀ ws, kind (Parser.curtok p) ≠ END →
    advances (pending p)
      (bind (modify (Parser.push_data ws))
            (λ _, bind Parser.GetNext (λ _, Parser.Data fuel)) p)).
  { intros ws Hne. unfold bind at 1, modify at 1.
    set (p0 := Parser.push_data ws p).
    assert (H0 : pending p0 = pending p) by reflexivity.
    destruct (GetNext_consumes p0) as [_ Hc].
    destruct (Hc Hne) as [Hadv Hlt].
    apply bind_advances; [rewrite <- H0; exact Hadv|].
    intros k p1 E. rewrite E in Hlt. specialize (Hlt k eq_refl). simpl in Hlt.
    eapply advances_mono; [|apply IH]; lia. }
  case_bool_decide as Hs.
  { unfold bind at 1, Parser.getStr at 1, gets at 1. apply Hgo.
    rewrite Hs. discriminate. }
  case_bool_decide as Hn.
  { unfold bind at 1, Parser.getNumber at 1, gets at 1. apply Hgo.
    rewrite Hn. discriminate. }
  apply steady_ret.
Qed.

Lemma skip_section_advances : ∀ (fuel : nat) (p : Parser.t),
  (pending p < fuel)%nat → advances (pending p) (Parser.skip_section fuel p).
Proof.
  induction fuel as [|fuel IH]; intros p Hf; [lia|].
  cbn [Parser.skip_section]. unfold bind at 1, Parser.curkind at 1, gets at 1.
  destruct (bool_decide (kind (Parser.curtok p) ≠ DOT) &&
            bool_decide (kind (Parser.curtok p) ≠ END)) eqn:Hk.
  2:{ apply steady_ret. }
  apply andb_true_iff in Hk as [_ Hne]. apply bool_decide_eq_true_1 in Hne.
  destruct (GetNext_consumes p) as [_ Hc]. destruct (Hc Hne) as [Hadv Hlt].
  apply bind_advances; [exact Hadv|].
  intros k p1 E. rewrite E in Hlt. specialize (Hlt k eq_refl). simpl in Hlt.
  eapply advances_mono; [|apply IH]; lia.
Qed.

Lemma Section_advances (fuel : nat) (p : Parser.t) :
  (pending p < fuel)%nat → advances (pending p) (Parser.Section fuel p).
Proof.
  intros Hf. unfold Parser.Section.
  unfold bind at 1, Parser.curkind at 1, gets at 1.
  apply bind_advances; [apply steady_ExpectTok|]. intros [] p1 E.
  assert (p1 = p) as ->.
  { revert E. unfold Parser.ExpectTok. case_bool_decide; intros [=]. congruence. }
  unfold bind at 1, Parser.getId at 1, gets at 1.
  apply bind_advances; [apply steady_GetNext|]. intros k p2 E2.
  pose proof (steady_GetNext p) as [_ Hle]. rewrite E2 in Hle. simpl in Hle.
  case_bool_decide; [eapply advances_mono; [|apply Text_advances]; lia|].
  case_bool_decide; [eapply advances_mono; [|apply Data_advances]; lia|].
  eapply advances_mono; [|apply skip_section_advances]; lia.
Qed.

Lemma Parse_loop_advances : ∀ (fuel : nat) (p : Parser.t),
  (pending p + 1 < fuel)%nat → advances (pending p) (Parser.Parse_loop fuel p).
Proof.
  induction fuel as [|fuel IH]; intros p Hf; [lia|].
  cbn [Parser.Parse_loop].
  destruct (GetNextPrev_consumes p) as [Hadv Hc].
  apply bind_advances; [exact Hadv|]. intros k p1 E.
  assert (Hk : k = kind (Parser.curtok p)).
  { revert E. unfold Parser.GetNextPrev, bind, gets, modify, ret.
    destruct (Parser.lex_getNext p) as [[tok| |] p']; intros [=]; auto. }
  case_bool_decide as Hdot; [|rewrite E in Hadv; destruct Hadv as [_ Hle];
                              split; [exact I|exact Hle]].
  assert (Hne : kind (Parser.curtok p) ≠ END) by (rewrite <- Hk, Hdot; discriminate).
  destruct (Hc Hne) as [_ Hlt]. rewrite E in Hlt. specialize (Hlt k eq_refl).
  simpl in Hlt.
  pose proof (Section_advances fuel p1 ltac:(lia)) as Hsec.
  apply bind_advances; [eapply advances_mono; [|exact Hsec]; lia|].
  intros [] p2 E2. rewrite E2 in Hsec. destruct Hsec as [_ Hle2]. simpl in Hle2.
  eapply advances_mono; [|apply IH]; lia.
Qed.

Lemma Parse_ends (fuel : nat) (p : Parser.t) :
  (pending p + 1 < fuel)%nat → ends (Parser.Parse fuel p).1.
Proof.
  intros Hf. unfold Parser.Parse.
  unfold bind at 1, Parser.curkind at 1, gets at 1.
  case_bool_decide; [exact I|].
  pose proof (Parse_loop_advances fuel p Hf) as [He _].
  unfold bind. destruct (Parser.Parse_loop fuel p) as [[[]| |] p1]; simpl; auto.
Qed.

Lemma make_pending (s : list ascii) (p p' : Parser.t) :
  Parser.make s = (Ok p, p') → (pending p ≤ length s)%nat.
Proof.
  unfold Parser.make.
  set (p0 := {| Parser.lex := Lexer.make s;
                Parser.curtok := {| kind := ID; row := 0; col := 0 |};
                Parser.program := []; Parser.data := [] |}).
  destruct (lex_getNext_lexed p0) as (r & l' & E & [[He Hu] Hstrict]).
  unfold bind at 1. rewrite E.
  destruct r as [tok| |]; [|discriminate|discriminate].
  unfold bind, modify, get. intros [= <- _].
  simpl in Hu, Hstrict.
  assert (Hmake : (unread (Lexer.make s) ≤ length s)%nat).
  { unfold Lexer.make, unread. destruct s as [|c s]; simpl.
    - change (is_char EOF EOF) with true. simpl. lia.
    - destruct (is_char c EOF); lia. }
  unfold pending. simpl.
  destruct (decide (kind tok = END)) as [Hk|Hk].
  - rewrite (bool_decide_eq_true_2 _ Hk). simpl in *. lia.
  - rewrite (bool_decide_eq_false_2 _ Hk). specialize (Hstrict tok eq_refl Hk).
    simpl in *. lia.
Qed.

Lemma make_ends (s : list ascii) : ends (Parser.make s).1.
Proof.
  unfold Parser.make.
  set (p0 := {| Parser.lex := Lexer.make s;
                Parser.curtok := {| kind := ID; row := 0; col := 0 |};
                Parser.program := []; Parser.data := [] |}).
  destruct (lex_getNext_lexed p0) as (r & l' & E & [[He Hu] Hstrict]).
  unfold bind at 1. rewrite E.
  destruct r as [tok| |]; simpl in *; auto.
Qed.

Lemma parse_ends_aux (s : string) : ends (parse s).
Proof.
  unfold parse.
  pose proof (make_ends (String.list_ascii_of_string s)) as He.
  pose proof (make_pending (String.list_ascii_of_string s)) as Hp.
  destruct (Parser.make (String.list_ascii_of_string s)) as [[p| |] p'];
    simpl in *; auto.
  apply Parse_ends. specialize (Hp p p' eq_refl). lia.
Qed.

(** X16. The parser always ends.  Every loop of the lexer and of the parser
    consumes a character or a token for each turn it takes, so parsing any
    text returns a program or throws, within a number of turns per loop
    bounded by the length of the text. *)
Theorem parse_ends (s : string) :
  (∃ prog, parse s = Ok prog) ∨ (∃ e, parse s = Throw e).
Proof.
  pose proof (parse_ends_aux s) as H.
  destruct (parse s) as [prog|e|]; [left|right|contradiction]; eauto.
Qed.

(** *** String literals *)

Lemma is_char_false (c d : ascii) : c ≠ d → is_char c d = false.
Proof. intros H. unfold is_char. apply bool_decide_eq_false_2. exact H. Qed.

Lemma string_of_list_ascii_app (a b : list ascii) :
  String.string_of_list_ascii (a ++ b) =
  String.string_of_list_ascii a +:+ String.string_of_list_ascii b.
Proof.
  induction a as [|c a IH]; simpl; [reflexivity|].
  rewrite IH, append_cons. reflexivity.
Qed.

Lemma append_assoc (a b c : string) : (a +:+ b) +:+ c = a +:+ (b +:+ c).
Proof.
  induction a as [|x a IH]; [reflexivity|].
  rewrite !append_cons, IH. reflexivity.
Qed.

(** The loop of [ParseString] on the body of a literal and its closing
    quote: the characters denoted are appended to [str], and the lexer
    stops on the quote. *)
Lemma ParseString_loop_pieces (xs : list piece) (rest : list ascii) :
  ∀ (fuel : nat) (l : Lexer.t),
    Forall well_written xs →
    (length xs < fuel)%nat →
    Lexer.input l = (body_chars xs ++ "034"%char :: rest)%list →
    ∃ l',
      Lexer.ParseString_loop fuel l = (Ok tt, l') ∧
      Lexer.str l' = Lexer.str l +:+ String.string_of_list_ascii (denoted xs) ∧
      Lexer.lookahead l' = "034"%char ∧
      Lexer.input l' = rest ∧
      Lexer.tok_begin_row l' = Lexer.tok_begin_row l ∧
      Lexer.tok_begin_col l' = Lexer.tok_begin_col l.
Proof.
  induction xs as [|x xs IH]; intros fuel l Hxs Hfuel Hin.
  - destruct fuel as [|fuel]; [lia|]. cbn [Lexer.ParseString_loop].
    destruct (GetChar_spec l) as (l1 & Hg & Hla1 & Hin1 & Hm).
    rewrite Hin in Hg, Hla1, Hin1. simpl in Hg, Hla1, Hin1.
    unfold bind at 1. rewrite Hg. change (is_char "034" "034") with true. cbv iota.
    exists l1. split; [reflexivity|].
    destruct Hm as (Hr & Hc & _ & _ & _ & Hs).
    rewrite Hs. simpl. rewrite append_empty_r. auto.
  - destruct fuel as [|fuel]; [lia|]. simpl in Hfuel.
    apply Forall_cons in Hxs as [Hx Hxs].
    assert (Hstep : ∀ (l2 : Lexer.t) (v : ascii),
      Lexer.input l2 = (body_chars xs ++ "034"%char :: rest)%list →
      Lexer.tok_begin_row l2 = Lexer.tok_begin_row l →
      Lexer.tok_begin_col l2 = Lexer.tok_begin_col l →
      Lexer.str l2 = Lexer.str l →
      piece_value x = v →
      ∃ l',
        Lexer.ParseString_loop fuel
          (Lexer.set_str (push_back (Lexer.str l2) v) l2) = (Ok tt, l') ∧
        Lexer.str l' =
          Lexer.str l +:+ String.string_of_list_ascii (denoted (x :: xs)) ∧
        Lexer.lookahead l' = "034"%char ∧
        Lexer.input l' = rest ∧
        Lexer.tok_begin_row l' = Lexer.tok_begin_row l ∧
        Lexer.tok_begin_col l' = Lexer.tok_begin_col l).
    { intros l2 v Hin2 Hr2 Hc2 Hs2 Hv.
      destruct (IH fuel (Lexer.set_str (push_back (Lexer.str l2) v) l2) Hxs
                  ltac:(lia) Hin2)
        as (l' & HP & Hstr & Hla & Hinp & Hr & Hc).
      exists l'. split; [exact HP|]. simpl in Hstr, Hr, Hc.
      split; [|repeat split; congruence].
      rewrite Hstr, Hs2. unfold denoted. simpl. rewrite Hv.
      unfold push_back. rewrite append_assoc. reflexivity. }
    cbn [Lexer.ParseString_loop].
    destruct (GetChar_spec l) as (l1 & Hg & Hla1 & Hin1 & Hm1).
    destruct Hm1 as (Hr1 & Hc1 & _ & _ & _ & Hs1).
    unfold body_chars in Hin. simpl in Hin. fold (body_chars xs) in Hin.
    destruct x as [c| | | |]; simpl in Hin; rewrite Hin in Hg, Hla1, Hin1;
      simpl in Hg, Hla1, Hin1; unfold bind at 1; rewrite Hg.
    + destruct Hx as (Hq & Hb & He).
      rewrite (is_char_false _ _ Hq), (is_char_false _ _ He),
        (is_char_false _ _ Hb).
      rewrite str_push_back_bind. apply Hstep; auto.
    + change (is_char "\" "034") with false. change (is_char "\" EOF) with false.
      change (is_char "\" "\") with true. cbv iota.
      destruct (GetChar_spec l1) as (l2 & Hg2 & Hla2 & Hin2 & Hm2).
      destruct Hm2 as (Hr2 & Hc2 & _ & _ & _ & Hs2).
      rewrite Hin1 in Hg2, Hla2, Hin2. simpl in Hg2, Hla2, Hin2.
      unfold bind at 1. rewrite Hg2.
      change (is_char "n" "n") with true. cbv iota.
      rewrite str_push_back_bind. apply Hstep; auto; congruence.
    + change (is_char "\" "034") with false. change (is_char "\" EOF) with false.
      change (is_char "\" "\") with true. cbv iota.
      destruct (GetChar_spec l1) as (l2 & Hg2 & Hla2 & Hin2 & Hm2).
      destruct Hm2 as (Hr2 & Hc2 & _ & _ & _ & Hs2).
      rewrite Hin1 in Hg2, Hla2, Hin2. simpl in Hg2, Hla2, Hin2.
      unfold bind at 1. rewrite Hg2.
      change (is_char "t" "n") with false. change (is_char "t" "t") with true.
      cbv iota.
      rewrite str_push_back_bind. apply Hstep; auto; congruence.
    + change (is_char "\" "034") with false. change (is_char "\" EOF) with false.
      change (is_char "\" "\") with true. cbv iota.
      destruct (GetChar_spec l1) as (l2 & Hg2 & Hla2 & Hin2 & Hm2).
      destruct Hm2 as (Hr2 & Hc2 & _ & _ & _ & Hs2).
      rewrite Hin1 in Hg2, Hla2, Hin2. simpl in Hg2, Hla2, Hin2.
      unfold bind at 1. rewrite Hg2.
      change (is_char "\" "n") with false. change (is_char "\" "t") with false.
      change (is_char "\" "\") with true. cbv iota.
      rewrite str_push_back_bind. apply Hstep; auto; congruence.
    + change (is_char "\" "034") with false. change (is_char "\" EOF) with false.
      change (is_char "\" "\") with true. cbv iota.
      destruct (GetChar_spec l1) as (l2 & Hg2 & Hla2 & Hin2 & Hm2).
      destruct Hm2 as (Hr2 & Hc2 & _ & _ & _ & Hs2).
      rewrite Hin1 in Hg2, Hla2, Hin2. simpl in Hg2, Hla2, Hin2.
      unfold bind at 1. rewrite Hg2.
      change (is_char "034" "n") with false. change (is_char "034" "t") with false.
      change (is_char "034" "\") with false. change (is_char "034" "034") with true.
      cbv iota.
      rewrite str_push_back_bind. apply Hstep; auto; congruence.
Qed.

Lemma body_chars_length (xs : list piece) : (length xs ≤ length (body_chars xs))%nat.
Proof.
  induction xs as [|x xs IH]; [simpl; lia|].
  change (body_chars (x :: xs)) with (piece_chars x ++ body_chars xs)%list.
  rewrite length_app. cbn [length]. destruct x; cbn [piece_chars length]; lia.
Qed.

(** The token of a string literal. *)
Lemma getNext_quoted (xs : list piece) (rest : list ascii) (l : Lexer.t)
    (fuel : nat) :
  Forall well_written xs →
  (length xs < fuel)%nat →
  positioned (quoted_chars xs ++ rest) l →
  ∃ l',
    Lexer.getNext (S fuel) l =
      (Ok {| kind := STRING; row := Lexer.row l; col := Lexer.col l |}, l') ∧
    Lexer.str l' = String.string_of_list_ascii (denoted xs) ∧
    positioned rest l'.
Proof.
  intros Hxs Hfuel [Hla Hin]. unfold quoted_chars in Hla, Hin.
  simpl in Hla, Hin. rewrite <- app_assoc in Hin. simpl in Hin.
  cbn [Lexer.getNext]. unfold bind at 1, get at 1. rewrite Hla.
  change (is_char "034" "#") with false. change (isspace "034") with false.
  cbv iota.
  unfold Lexer.RecordTokLoc. unfold bind at 1, modify at 1.
  change (is_char "034" EOF) with false. change (is_char "034" ";") with false.
  change (is_char "034" ",") with false. change (is_char "034" "[") with false.
  change (is_char "034" "]") with false. change (is_char "034" "+") with false.
  change (is_char "034" "*") with false. change (is_char "034" ".") with false.
  change (is_char "034" "034") with true. cbv iota.
  set (l0 := {| Lexer.input := Lexer.input l; Lexer.lookahead := Lexer.lookahead l;
                Lexer.row := Lexer.row l; Lexer.col := Lexer.col l;
                Lexer.tok_begin_row := Lexer.row l;
                Lexer.tok_begin_col := Lexer.col l;
                Lexer.number := Lexer.number l;
                Lexer.float_number := Lexer.float_number l;
                Lexer.id := Lexer.id l; Lexer.str := Lexer.str l |}).
  destruct (ParseString_loop_pieces xs rest fuel (Lexer.set_str "" l0) Hxs Hfuel Hin)
    as (l1 & HP & Hstr & Hla1 & Hin1 & Hr1 & Hc1).
  destruct (GetChar_spec l1) as (l2 & Hg & Hla2 & Hin2 & Hm2).
  destruct Hm2 as (Hr2 & Hc2 & _ & _ & _ & Hs2).
  unfold Lexer.ParseString.
  unfold bind at 1. unfold bind at 1, modify at 1.
  unfold bind at 1. rewrite HP. unfold bind at 1. rewrite Hg.
  unfold ret at 1. unfold Lexer.MakeToken, bind, get, ret.
  rewrite Hr2, Hc2, Hr1, Hc1. simpl.
  eexists. split; [reflexivity|]. split.
  - rewrite Hs2, Hstr. simpl. apply append_nil.
  - split; [rewrite Hla2, Hin1; reflexivity|rewrite Hin2, Hin1; reflexivity].
Qed.

(** One space, then the literal. *)
Lemma getNext_spaced_quoted (xs : list piece) (rest : list ascii) (l : Lexer.t) :
  Forall well_written xs →
  positioned (" "%char :: quoted_chars xs ++ rest) l →
  ∃ tok l',
    Lexer.getNext (3 + length (Lexer.input l)) l = (Ok tok, l') ∧
    kind tok = STRING ∧
    Lexer.str l' = String.string_of_list_ascii (denoted xs) ∧
    positioned rest l'.
Proof.
  intros Hxs [Hla Hin]. simpl in Hla, Hin.
  cbn [Nat.add]. cbn [Lexer.getNext]. unfold bind at 1, get at 1. rewrite Hla.
  change (is_char " " "#") with false. change (isspace " ") with true.
  cbv iota.
  destruct (GetChar_spec l) as (l1 & Hg & Hla1 & Hin1 & _).
  unfold bind at 1. rewrite Hg.
  assert (Hat : positioned (quoted_chars xs ++ rest) l1).
  { split; [by rewrite Hla1, Hin|by rewrite Hin1, Hin]. }
  assert (Hlen : (length xs < S (length (Lexer.input l)))%nat).
  { rewrite Hin. unfold quoted_chars. simpl. rewrite !length_app.
    pose proof (body_chars_length xs). lia. }
  destruct (getNext_quoted xs rest l1 (S (length (Lexer.input l))) Hxs Hlen Hat)
    as (l' & Hn & Hv & Hpos).
  eexists _, l'. split; [exact Hn|]. done.
Qed.

(** The loop of [Data] on a parser whose current token is a string and
    whose lexer has reached the end of the text. *)
Lemma Data_string (p : Parser.t) (fuel : nat) :
  kind (Parser.curtok p) = STRING →
  positioned [] (Parser.lex p) →
  ∃ p',
    Parser.Data (S (S fuel)) p = (Ok tt, p') ∧
    Parser.data p' =
      (Parser.data p ++
       (Parser.char_word <$> String.list_ascii_of_string (Lexer.str (Parser.lex p))))%list ∧
    Parser.program p' = Parser.program p ∧
    kind (Parser.curtok p') = END ∧
    positioned [] (Parser.lex p').
Proof.
  intros Hk Hpos.
  cbn [Parser.Data]. unfold bind at 1, Parser.curkind at 1, gets at 1.
  rewrite Hk. rewrite bool_decide_eq_true_2 by done.
  unfold bind at 1, Parser.getStr at 1, gets at 1.
  unfold bind at 1, modify at 1.
  set (p2 := Parser.push_data _ p).
  destruct (getNext_end (Parser.lex p2)
              (2 + length (Lexer.input (Parser.lex p2))) Hpos)
    as (l3 & Hget3 & Hpos3).
  unfold bind at 1. rewrite (Parser_GetNext_lex p2 _ l3 Hget3).
  unfold bind at 1, Parser.curkind at 1, gets at 1.
  cbn [Parser.curtok Parser.set_curtok kind].
  rewrite !bool_decide_eq_false_2 by discriminate.
  unfold ret. eexists. split; [reflexivity|].
  cbn [Parser.data Parser.program Parser.curtok Parser.lex
       Parser.set_curtok Parser.set_lex Parser.push_data p2 kind].
  done.
Qed.

(** X17. A string literal of the data section is read back as the characters it
    denotes.  For a literal written between quotes, with plain characters
    other than the quote and the backslash and with the escapes for a new
    line, a tab, a backslash and a quote, the parser appends to the data
    section one word for each character denoted, in order. *)
Theorem data_string_literal (xs : list piece) :
  Forall well_written xs →
  parse (".data " +:+ quoted xs) =
    Ok {| t86.instructions := []; t86.data := Parser.char_word <$> denoted xs |}.
Proof.
  intros Hxs.
  unfold parse. rewrite list_ascii_of_string_app. unfold quoted.
  rewrite String.list_ascii_of_string_of_list_ascii.
  change (String.list_ascii_of_string ".data ")
    with ["."; "d"; "a"; "t"; "a"; " "]%char.
  cbn [app].
  set (tl := quoted_chars xs).
  destruct (data_section_prefix tl)
    as (p & Hmake & Hk & p1 & Hprev & Hk1 & Hid & Hpos1 & Hprog & Hdata).
  rewrite Hmake. cbn [length Nat.add].
  unfold Parser.Parse. unfold bind at 1, Parser.curkind at 1, gets at 1.
  rewrite Hk. rewrite bool_decide_eq_false_2 by (intros H; by apply H).
  unfold bind at 1. cbn [Parser.Parse_loop]. unfold bind at 1.
  rewrite Hprev. rewrite bool_decide_eq_true_2 by done.
  unfold bind at 1.
  unfold Parser.Section. unfold bind at 1, Parser.curkind at 1, gets at 1.
  rewrite Hk1. unfold Parser.ExpectTok.
  rewrite bool_decide_eq_false_2 by (intros H; by apply H).
  unfold bind at 1, ret at 1.
  unfold bind at 1, Parser.getId at 1, gets at 1. rewrite Hid.
  assert (Hpos1' : positioned (" "%char :: quoted_chars xs ++ []) (Parser.lex p1)).
  { rewrite app_nil_r. exact Hpos1. }
  destruct (getNext_spaced_quoted xs [] (Parser.lex p1) Hxs Hpos1')
    as (tok & l2 & Hget & Hkt & Hstr & Hpos2).
  unfold bind at 1. rewrite (Parser_GetNext_lex p1 tok l2 Hget).
  change (bool_decide ("data" = "text")) with false.
  change (bool_decide ("data" = "data")) with true. cbv iota.
  set (p2 := Parser.set_curtok tok (Parser.set_lex l2 p1)).
  assert (Hlen : (1 ≤ length tl)%nat) by (unfold tl, quoted_chars; simpl; lia).
  match goal with
  | |- context [Parser.Data ?f p2] =>
      destruct f as [|[|f']] eqn:Ef; [simpl in Ef; lia..|];
      destruct (Data_string p2 f' Hkt Hpos2)
        as (p3 & HD & Hdata3 & Hprog3 & Hend3 & Hpos3)
  end.
  rewrite HD.
  destruct (getNext_end (Parser.lex p3)
              (2 + length (Lexer.input (Parser.lex p3))) Hpos3)
    as (l4 & Hget4 & _).
  cbn [Parser.Parse_loop]. unfold bind at 1.
  rewrite (Parser_GetNextPrev_lex p3 _ l4 Hget4). rewrite Hend3.
  rewrite bool_decide_eq_false_2 by discriminate.
  unfold ret at 1. unfold bind, get, ret. cbn [fst].
  cbn [Parser.program Parser.data Parser.set_curtok Parser.set_lex].
  rewrite Hprog3, Hdata3.
  cbn [Parser.program Parser.data Parser.lex Parser.set_curtok Parser.set_lex p2].
  rewrite Hprog, Hdata, Hstr.
  rewrite String.list_ascii_of_string_of_list_ascii. reflexivity.
Qed.

(** A literal of six characters between its quotes: [a], an escaped new
    line, an escaped quote, [b]; four characters denoted. *)
Lemma data_string_literal_witness :
  parse (".data " +:+ quoted [Plain "a"; EscNewline; EscQuote; Plain "b"]) =
    Ok {| t86.instructions := []; t86.data := [97; 10; 34; 98]%Z |}.
Proof.
  apply (data_string_literal [Plain "a"; EscNewline; EscQuote; Plain "b"]).
  repeat constructor; discriminate.
Defined.

(** *** Texts without a section *)

Lemma make_positioned (s : list ascii) : positioned s (Lexer.make s).
Proof. unfold Lexer.make. destruct s as [|c s]; split; reflexivity. Qed.

Lemma getNext_blank (ws : list ascii) : ∀ (fuel : nat) (l : Lexer.t),
  forallb isspace ws = true →
  (length ws < fuel)%nat →
  positioned ws l →
  ∃ tok l', Lexer.getNext fuel l = (Ok tok, l') ∧ kind tok = END.
Proof.
  induction ws as [|c ws IH]; intros fuel l Hws Hfuel Hpos.
  - destruct fuel as [|fuel]; [simpl in Hfuel; lia|].
    destruct (getNext_end l fuel Hpos) as (l' & H & _).
    eexists _, l'. split; [exact H|reflexivity].
  - destruct fuel as [|fuel]; [simpl in Hfuel; lia|]. simpl in Hfuel.
    simpl in Hws. apply andb_true_iff in Hws as [Hc Hws].
    destruct Hpos as [Hla Hin]. simpl in Hla, Hin.
    cbn [Lexer.getNext]. unfold bind at 1, get at 1. rewrite Hla.
    assert (Hhash : is_char c "#" = false).
    { destruct (is_char c "#") eqn:E; [|reflexivity].
      apply is_char_true in E. rewrite E in Hc. vm_compute in Hc. discriminate. }
    rewrite Hhash, Hc.
    destruct (GetChar_spec l) as (l1 & Hg & Hla1 & Hin1 & _).
    unfold bind at 1. rewrite Hg.
    apply IH; [exact Hws|lia|].
    split; [rewrite Hla1, Hin; reflexivity|rewrite Hin1, Hin; reflexivity].
Qed.

(** X18. A text of white space only, the empty text among them, has no
    section: the parser throws the [ParserError] that says so. *)
Theorem blank_text_has_no_section (s : string) :
  forallb isspace (String.list_ascii_of_string s) = true →
  parse s = Throw (ParserError "File does not contain any sections").
Proof.
  intros Hs. unfold parse.
  set (input := String.list_ascii_of_string s) in *.
  unfold Parser.make.
  set (p0 := {| Parser.lex := Lexer.make input;
                Parser.curtok := {| kind := ID; row := 0; col := 0 |};
                Parser.program := []; Parser.data := [] |}).
  destruct (getNext_blank input (Parser.lexer_fuel p0) (Parser.lex p0) Hs)
    as (tok & l' & Hget & Hk).
  { unfold Parser.lexer_fuel, p0. simpl. unfold Lexer.make.
    destruct input as [|c t]; simpl; lia. }
  { apply make_positioned. }
  unfold bind at 1. unfold Parser.lex_getNext, bind at 1, get at 1, Parser.lexer.
  rewrite Hget. unfold bind, modify, get. cbn [fst].
  unfold Parser.Parse, bind, Parser.curkind, gets.
  cbn [Parser.curtok Parser.set_curtok]. rewrite Hk.
  rewrite bool_decide_eq_true_2 by discriminate. reflexivity.
Qed.

(** Two spaces and a new line. *)
Lemma blank_text_has_no_section_witness :
  parse ("  " +:+ new_line) =
    Throw (ParserError "File does not contain any sections").
Proof. apply blank_text_has_no_section. reflexivity. Defined.

(** *** Register names *)









End AsmMore.

(** ** Further properties of the source layer *)

Module SourceMore.
Import Source SourceSpec.

(** Induction on a DIE with the property at hand for all its children. *)
Lemma DIE_children_ind (Q : DIE → Prop) :
  (∀ tag attrs cs, Forall Q cs → Q (MakeDIE tag attrs cs)) →
  ∀ die, Q die.
Proof.
  intros H. fix IH 1. intros [tag attrs cs]. apply H.
  induction cs as [|c cs IHcs]; constructor; [apply IH|exact IHcs].
Qed.


Lemma FindDIEById_eq (tag : TAG) (attrs : list DIE_ATTR) (cs : list DIE) (id : N) :
  FindDIEById (MakeDIE tag attrs cs) id =
  match FindDieAttribute sel_id (MakeDIE tag attrs cs) with
  | Some found_id =>
      if bool_decide (found_id = id) then Some (MakeDIE tag attrs cs)
      else find_in_children id cs
  | None => find_in_children id cs
  end.
Proof.
  assert (E : ∀ cs, (fix go (cs : list DIE) : option DIE :=
                   match cs with
                   | c :: rest =>
                       match FindDIEById c id with
                       | Some found => Some found
                       | None => go rest
                       end
                   | [] => None
                   end) cs = find_in_children id cs).
  { clear cs. induction cs as [|c cs IH]; simpl; [reflexivity|].
    destruct (FindDIEById c id); [reflexivity|exact IH]. }
  cbn [FindDIEById]. rewrite E. reflexivity.
Qed.

Lemma preorder_eq (tag : TAG) (attrs : list DIE_ATTR) (cs : list DIE) :
  preorder (MakeDIE tag attrs cs) = MakeDIE tag attrs cs :: concat (preorder <$> cs).
Proof.
  cbn [preorder]. f_equal.
  induction cs as [|c cs IH]; simpl; [reflexivity|]. rewrite IH. reflexivity.
Qed.

(** X11. [FindDIEById] returns the first DIE of the tree, parents before
    children and children in their order, that carries the id; it returns
    nothing exactly when no DIE of the tree carries it. *)
Theorem FindDIEById_first (die : DIE) (id : N) :
  FindDIEById die id = head (filter (has_id id) (preorder die)).
Proof.
  induction die as [tag attrs cs IH] using DIE_children_ind.
  assert (E : find_in_children id cs =
              head (filter (has_id id) (concat (preorder <$> cs)))).
  { induction IH as [|c cs Hc _ IHcs]; simpl; [reflexivity|].
    rewrite filter_app, Hc, IHcs.
    destruct (filter (has_id id) (preorder c)); reflexivity. }
  rewrite FindDIEById_eq, preorder_eq, filter_cons, E.
  destruct (decide (has_id id (MakeDIE tag attrs cs))) as [Hid|Hid].
  - unfold has_id in Hid. rewrite Hid. rewrite bool_decide_eq_true_2 by reflexivity.
    reflexivity.
  - unfold has_id in Hid.
    destruct (FindDieAttribute sel_id (MakeDIE tag attrs cs)) as [found|];
      [|reflexivity].
    rewrite bool_decide_eq_false_2 by congruence. reflexivity.
Qed.


Section Cache.
Variable ToPrimitiveType : string → option PrimitiveKind.


Lemma grows_refl (s : Source) : grows s s.
Proof. split; reflexivity. Qed.

Lemma grows_trans (s1 s2 s3 : Source) : grows s1 s2 → grows s2 s3 → grows s1 s3.
Proof.
  intros [T1 C1] [T2 C2]. split; [congruence|]. etransitivity; eassumption.
Qed.

Lemma cache_type_grows (id : N) (ty : Type_) (s : Source) :
  grows s (cache_type id ty s).
Proof.
  split; [reflexivity|]. unfold cache_type. simpl.
  destruct (cached_types s !! id) eqn:E; [reflexivity|].
  apply insert_subseteq. exact E.
Qed.

Lemma transform_grows {A B} (f : A → M Source B) (l : list A) :
  (∀ a s, grows s (f a s).2) → ∀ s, grows s (transform f l s).2.
Proof.
  intros Hf. induction l as [|a l IH]; intros s; simpl; [apply grows_refl|].
  unfold bind at 1. specialize (Hf a s).
  destruct (f a s) as [[b| |] s1]; simpl in *; try exact Hf.
  unfold bind at 1. specialize (IH s1).
  destruct (transform f l s1) as [[bs| |] s2]; simpl in *;
    eapply grows_trans; eauto.
Qed.

Lemma ReconstructTypeInformation_grows : ∀ (fuel : nat) (id : N) (s : Source),
  grows s (ReconstructTypeInformation ToPrimitiveType fuel id s).2.
Proof.
  induction fuel as [|fuel IH]; intros id s; [apply grows_refl|].
  cbn [ReconstructTypeInformation].
  unfold bind at 1, gets at 1.
  destruct (cached_types s !! id); [apply grows_refl|].
  unfold bind at 1, gets at 1.
  destruct (top_die s) as [top|]; [|apply grows_refl].
  destruct (FindDIEById top id) as [type_die|]; [|apply grows_refl].
  destruct (get_tag type_die); try apply grows_refl.
  - (* primitive_type *)
    destruct (FindDieAttribute sel_name type_die) as [name|]; [|apply grows_refl].
    destruct (ToPrimitiveType name); [|apply grows_refl].
    destruct (FindDieAttribute sel_size type_die); apply grows_refl.
  - (* structured_type *)
    destruct (FindDieAttribute sel_name type_die) as [name|]; [|apply grows_refl].
    destruct (FindDieAttribute sel_size type_die) as [size|]; [|apply grows_refl].
    destruct (FindDieAttribute sel_members type_die) as [members|];
      [|apply grows_refl].
    unfold bind at 1.
    match goal with
    | |- context [transform ?f members s] =>
        pose proof (transform_grows f members) as Ht
    end.
    simpl in Ht. specialize (Ht ltac:(
      intros m s0; unfold bind; specialize (IH (member_type_id m) s0);
      destruct (ReconstructTypeInformation ToPrimitiveType fuel (member_type_id m) s0)
        as [[r| |] s1]; exact IH) s).
    destruct (transform _ members s) as [[members_vec| |] s1]; simpl in *;
      try exact Ht.
    eapply grows_trans; [exact Ht|]. apply cache_type_grows.
  - (* pointer_type *)
    destruct (FindDieAttribute sel_type type_die) as [pointing_to|];
      [|apply grows_refl].
    destruct (FindDieAttribute sel_size type_die) as [size|]; [|apply grows_refl].
    destruct (FindDIEById top pointing_to) as [pointed_die|]; [|apply grows_refl].
    destruct (FindDieAttribute sel_name pointed_die) as [name|]; [|apply grows_refl].
    apply cache_type_grows.
Qed.

(** X12. The cache of reconstructed types only grows.  Whatever a call of
    [ReconstructTypeInformation] does, returns or throws, it leaves the DIE
    tree alone and keeps every entry of the cache as it is; so a type that
    is cached is the answer for its id from then on. *)
Theorem ReconstructTypeInformation_cache_grows (fuel : nat) (id : N) (s : Source) :
  let s' := (ReconstructTypeInformation ToPrimitiveType fuel id s).2 in
  top_die s' = top_die s ∧
  cached_types s ⊆ cached_types s' ∧
  ∀ id0 ty fuel0,
    cached_types s !! id0 = Some ty →
    ReconstructTypeInformation ToPrimitiveType (S fuel0) id0 s' = (Ok (Some ty), s').
Proof.
  intros s'. destruct (ReconstructTypeInformation_grows fuel id s) as [Ht Hc].
  fold s' in Ht, Hc. split; [exact Ht|]. split; [exact Hc|].
  intros id0 ty fuel0 Hin.
  cbn [ReconstructTypeInformation]. unfold bind at 1, gets at 1.
  rewrite (lookup_weaken _ _ _ _ Hin Hc). reflexivity.
Qed.

End Cache.

Section Functions.

Lemma GetFunctionNameByAddress_loop_spec (address : N) (dies : list DIE) :
  match GetFunctionNameByAddress_loop address dies with
  | Some name => ∃ die, die ∈ dies ∧ covers address die name
  | None => ∀ die name, die ∈ dies → ¬ covers address die name
  end.
Proof.
  induction dies as [|die rest IH]; simpl.
  - intros die name H. inversion H.
  - assert (Hrest :
      (∀ name, ¬ covers address die name) →
      match GetFunctionNameByAddress_loop address rest with
      | Some name => ∃ d, d ∈ die :: rest ∧ covers address d name
      | None => ∀ d name, d ∈ die :: rest → ¬ covers address d name
      end).
    { intros Hno. destruct (GetFunctionNameByAddress_loop address rest) as [name|].
      - destruct IH as (d & Hd & Hc). exists d. split; [right; exact Hd|exact Hc].
      - intros d name Hd. apply elem_of_cons in Hd as [->|Hd]; [apply Hno|].
        apply IH. exact Hd. }
    case_bool_decide as Htag.
    2:{ apply Hrest. intros name (Ht & _). contradiction. }
    destruct (FindDieAttribute sel_begin_addr die) as [b|] eqn:Eb.
    2:{ apply Hrest. intros name (_ & _ & b & e & Hb & _). congruence. }
    destruct (FindDieAttribute sel_end_addr die) as [e|] eqn:Ee.
    2:{ apply Hrest. intros name (_ & _ & b' & e' & _ & He & _). congruence. }
    destruct ((b <=? address)%N && (address <? e)%N) eqn:Er.
    2:{ apply Hrest. intros name (_ & _ & b' & e' & Hb & He & Hr).
        assert (b' = b) as -> by congruence. assert (e' = e) as -> by congruence.
        apply andb_false_iff in Er as [Er|Er];
          [apply N.leb_gt in Er|apply N.ltb_ge in Er]; lia. }
    destruct (FindDieAttribute sel_name die) as [n|] eqn:En.
    2:{ apply Hrest. intros name (_ & Hn & _). congruence. }
    exists die. split; [left|].
    apply andb_true_iff in Er as [Er1 Er2].
    apply N.leb_le in Er1. apply N.ltb_lt in Er2.
    split; [exact Htag|]. split; [exact En|]. exists b, e. auto.
Qed.

(** X13. [GetFunctionNameByAddress] answers with the name of a function DIE,
    among the children of the top DIE, that has a name and whose range
    [begin_addr, end_addr) holds the address; it answers nothing exactly
    when there is no such DIE (or no debug information at all). *)
Theorem GetFunctionNameByAddress_covers (s : Source) (address : N) :
  match GetFunctionNameByAddress s address with
  | Some name =>
      ∃ top die, top_die s = Some top ∧ die ∈ children top ∧
                 covers address die name
  | None =>
      ∀ top die name, top_die s = Some top → die ∈ children top →
                      ¬ covers address die name
  end.
Proof.
  unfold GetFunctionNameByAddress. destruct (top_die s) as [top|].
  - pose proof (GetFunctionNameByAddress_loop_spec address (children top)) as H.
    destruct (GetFunctionNameByAddress_loop address (children top)) as [name|].
    + destruct H as (die & Hd & Hc). exists top, die. auto.
    + intros top' die name [= <-]. apply H.
  - intros top die name H. discriminate.
Qed.

Lemma GetFunctionAddrByName_loop_spec (name : string) (dies : list DIE) (b e : N) :
  GetFunctionAddrByName_loop name dies = Some (b, e) →
  ∃ die, die ∈ dies ∧ get_tag die = function ∧
         FindDieAttribute sel_name die = Some name ∧
         FindDieAttribute sel_begin_addr die = Some b ∧
         FindDieAttribute sel_end_addr die = Some e.
Proof.
  induction dies as [|die rest IH]; simpl; [discriminate|].
  assert (Hrest : GetFunctionAddrByName_loop name rest = Some (b, e) →
    ∃ d, d ∈ die :: rest ∧ get_tag d = function ∧
         FindDieAttribute sel_name d = Some name ∧
         FindDieAttribute sel_begin_addr d = Some b ∧
         FindDieAttribute sel_end_addr d = Some e).
  { intros H. destruct (IH H) as (d & Hd & Hrest). exists d. split; [right; exact Hd|exact Hrest]. }
  case_bool_decide as Htag; [|exact Hrest].
  destruct (FindDieAttribute sel_name die) as [n|] eqn:En; [|exact Hrest].
  case_bool_decide as Hn; [exact Hrest|].
  assert (n = name) as -> by (destruct (decide (n = name)); [auto|contradiction]).
  destruct (FindDieAttribute sel_begin_addr die) as [b'|] eqn:Eb; [|discriminate].
  destruct (FindDieAttribute sel_end_addr die) as [e'|] eqn:Ee; [|discriminate].
  intros [= -> ->]. exists die. split; [left|]. auto.
Qed.

(** X14. The two lookups of functions agree.  The range [GetFunctionAddrByName]
    returns for a name is the range of a function DIE of that name, and
    every address inside it is an address [GetFunctionNameByAddress] has a
    function for. *)
Theorem GetFunctionAddrByName_range (s : Source) (name : string) (b e : N) :
  GetFunctionAddrByName s name = Some (b, e) →
  (∃ top die, top_die s = Some top ∧ die ∈ children top ∧
              get_tag die = function ∧
              FindDieAttribute sel_name die = Some name ∧
              FindDieAttribute sel_begin_addr die = Some b ∧
              FindDieAttribute sel_end_addr die = Some e) ∧
  ∀ address, (b ≤ address < e)%N →
    is_Some (GetFunctionNameByAddress s address).
Proof.
  unfold GetFunctionAddrByName. destruct (top_die s) as [top|] eqn:Htop; [|discriminate].
  intros H. apply GetFunctionAddrByName_loop_spec in H
    as (die & Hd & Htag & Hn & Hb & He).
  split; [exists top, die; repeat split; auto|].
  intros address Hr.
  pose proof (GetFunctionNameByAddress_loop_spec address (children top)) as G.
  unfold GetFunctionNameByAddress. rewrite Htop.
  destruct (GetFunctionNameByAddress_loop address (children top)) as [n|]; [eauto|].
  exfalso. apply (G die name Hd).
  split; [exact Htag|]. split; [exact Hn|]. exists b, e. auto.
Qed.

(** A compile unit with the function [main] at addresses 0 to 9. *)
Lemma GetFunctionAddrByName_range_witness :
  let main :=
    MakeDIE function
      [ATTR_name "main"; ATTR_begin_addr 0; ATTR_end_addr 10] [] in
  let top := MakeDIE compile_unit [] [main] in
  let s := {| top_die := Some top; cached_types := ∅ |} in
  (∃ top die, top_die s = Some top ∧ die ∈ children top ∧
              get_tag die = function ∧
              FindDieAttribute sel_name die = Some "main" ∧
              FindDieAttribute sel_begin_addr die = Some 0%N ∧
              FindDieAttribute sel_end_addr die = Some 10%N) ∧
  ∀ address, (0 ≤ address < 10)%N →
    is_Some (GetFunctionNameByAddress s address).
Proof.
  intros main top s.
  exact (GetFunctionAddrByName_range s "main" 0 10 eq_refl).
Defined.

End Functions.

Section Variables.

Lemma FindVariables_eq (address : N) (tag : TAG) (attrs : list DIE_ATTR)
    (cs : list DIE) (result : gmap string DIE) :
  FindVariables address (MakeDIE tag attrs cs) result =
  let die := MakeDIE tag attrs cs in
  let in_children := foldl (λ r d, FindVariables address d r) result cs in
  let scoped :=
    if bool_decide (tag = scope) || bool_decide (tag = function) then
      match FindDieAttribute sel_begin_addr die,
            FindDieAttribute sel_end_addr die with
      | Some begin_addr, Some end_addr =>
          if negb ((begin_addr <=? address)%N && (address <? end_addr)%N)
          then result
          else in_children
      | _, _ => result
      end
    else in_children in
  if bool_decide (tag = variable) then
    match FindDieAttribute sel_name die with
    | Some n => <[n := die]> result
    | None => scoped
    end
  else scoped.
Proof.
  assert (E : ∀ cs result,
    (fix go (cs : list DIE) (result : gmap string DIE) : gmap string DIE :=
       match cs with
       | d :: rest => go rest (FindVariables address d result)
       | [] => result
       end) cs result = foldl (λ r d, FindVariables address d r) result cs).
  { clear. induction cs as [|c cs IH]; intros result; simpl; [reflexivity|].
    apply IH. }
  cbn [FindVariables get_tag]. rewrite E. reflexivity.
Qed.


Lemma FindVariables_spec (address : N) (die : DIE) :
  ∀ (result : gmap string DIE) (n : string) (d : DIE),
    FindVariables address die result !! n = Some d →
    result !! n = Some d ∨ named_variable die n d.
Proof.
  induction die as [tag attrs cs IH] using DIE_children_ind.
  intros result n d. rewrite FindVariables_eq. cbv zeta.
  assert (Hinner : ∀ result,
    foldl (λ r c, FindVariables address c r) result cs !! n = Some d →
    result !! n = Some d ∨
    (d ∈ concat (preorder <$> cs) ∧ get_tag d = variable ∧
     FindDieAttribute sel_name d = Some n)).
  { clear result.
    induction IH as [|c cs Hc _ IHcs]; intros result; simpl; [auto|].
    intros H. apply IHcs in H as [H|(Hin & Hrest)].
    - apply Hc in H as [H|(Hin & Hrest)]; [auto|]. right. split; [|exact Hrest].
      apply elem_of_app. left. exact Hin.
    - right. split; [|exact Hrest]. apply elem_of_app. right. exact Hin. }
  assert (Hchildren : ∀ result,
    foldl (λ r c, FindVariables address c r) result cs !! n = Some d →
    result !! n = Some d ∨ named_variable (MakeDIE tag attrs cs) n d).
  { clear result. intros result H. apply Hinner in H as [H|(Hin & Hrest)]; [auto|].
    right. split; [|exact Hrest]. rewrite preorder_eq. right. exact Hin. }
  match goal with
  | |- context [if bool_decide (tag = variable) then _ else ?sc] =>
      set (scoped := sc)
  end.
  assert (Hscoped : scoped !! n = Some d →
    result !! n = Some d ∨ named_variable (MakeDIE tag attrs cs) n d).
  { unfold scoped.
    destruct (bool_decide (tag = scope) || bool_decide (tag = function));
      [|apply Hchildren].
    destruct (FindDieAttribute sel_begin_addr _); [|auto].
    destruct (FindDieAttribute sel_end_addr _); [|auto].
    destruct (negb _); [auto|apply Hchildren]. }
  clearbody scoped.
  destruct (decide (tag = variable)) as [Htag|Htag].
  2:{ rewrite bool_decide_eq_false_2 by exact Htag. exact Hscoped. }
  rewrite bool_decide_eq_true_2 by exact Htag.
  destruct (FindDieAttribute sel_name (MakeDIE tag attrs cs)) as [name|] eqn:En;
    [|exact Hscoped].
  intros H. apply lookup_insert_Some in H as [[-> <-]|[_ H]]; [|auto].
  right. split; [rewrite preorder_eq; left|]. split; [exact Htag|exact En].
Qed.

(** X15. The variables in scope are variables of the debug information, each
    under its own name: a DIE that [GetVariableDie] returns for a name is a
    [variable] DIE of the tree whose name attribute is that name, and the
    names [GetScopedVariables] lists are the names [GetVariableDie] finds. *)
Theorem GetVariableDie_named (s : Source) (address : N) (n : string) :
  match GetVariableDie s address n with
  | Some d =>
      n ∈ GetScopedVariables s address ∧
      ∃ top, top_die s = Some top ∧ d ∈ preorder top ∧
             get_tag d = variable ∧ FindDieAttribute sel_name d = Some n
  | None => n ∉ GetScopedVariables s address
  end.
Proof.
  unfold GetVariableDie, GetScopedVariables.
  destruct (GetActiveVariables s address !! n) as [d|] eqn:E.
  - split; [apply elem_of_dom; eauto|].
    unfold GetActiveVariables in E. destruct (top_die s) as [top|].
    + apply FindVariables_spec in E as [E|E].
      * rewrite lookup_empty in E. discriminate.
      * exists top. split; [reflexivity|exact E].
    + rewrite lookup_empty in E. discriminate.
  - apply not_elem_of_dom. exact E.
Qed.

End Variables.

Section Lines.

Lemma GetLines_loop_spec (file : SourceFile) (idx : N) (count : nat) : ∀ i : N,
  let r := GetLines_loop file idx i count in
  (length r ≤ count)%nat ∧
  (∀ j : nat, (j < length r)%nat →
     file (wrap64 (i + N.of_nat j + idx)) = r !! j) ∧
  ((length r < count)%nat →
     file (wrap64 (i + N.of_nat (length r) + idx)) = None).
Proof.
  induction count as [|count IH]; intros i; cbn [GetLines_loop].
  - cbv zeta. simpl. split; [lia|]. split; intros; lia.
  - destruct (file (wrap64 (i + idx))) as [line|] eqn:E.
    + specialize (IH (i + 1)%N). cbv zeta in IH. destruct IH as (H1 & H2 & H3).
      cbv zeta. cbn [length]. split; [lia|]. split.
      * intros [|j] Hj.
        -- rewrite N.add_0_r. exact E.
        -- replace (i + N.of_nat (S j))%N with (i + 1 + N.of_nat j)%N by lia.
           apply H2. lia.
      * intros Hlt.
        replace (i + N.of_nat (S (length (GetLines_loop file idx (i + 1) count))))%N
          with (i + 1 + N.of_nat (length (GetLines_loop file idx (i + 1) count)))%N
          by lia.
        apply H3. lia.
    + cbv zeta. simpl. split; [lia|]. split; [intros; lia|].
      intros _. rewrite N.add_0_r. exact E.
Qed.

(** X23. [GetLines] returns the lines that are there: from line [idx] on, one
    line after the other up to the first line the file does not have, and
    at most [amount] of them.  Without a source file it returns nothing. *)
Theorem GetLines_run (file : SourceFile) (idx amount : N) :
  GetLines None idx amount = [] ∧
  let r := GetLines (Some file) idx amount in
  (N.of_nat (length r) ≤ amount)%N ∧
  (∀ j : nat, (j < length r)%nat → file (wrap64 (N.of_nat j + idx)) = r !! j) ∧
  ((N.of_nat (length r) < amount)%N →
     file (wrap64 (N.of_nat (length r) + idx)) = None).
Proof.
  split; [reflexivity|]. cbv zeta. unfold GetLines.
  destruct (GetLines_loop_spec file idx (N.to_nat amount) 0) as (H1 & H2 & H3).
  split; [lia|]. split.
  - intros j Hj. rewrite <- (H2 j Hj). f_equal.
  - intros Hlt. rewrite <- H3 by lia. f_equal.
Qed.

End Lines.

End SourceMore.
